(** * The identifier cache of ember-data's store

    A shallow embedding of
    [packages/store/addon/-private/identifiers/cache.ts] and the
    properties of its public operations.

    JavaScript objects have identity: two identifiers with equal fields are
    still two objects.  Identifier objects therefore live in a heap
    (a list, the address of an object being its position) and every table
    of the cache stores addresses.  Exceptions do not roll the cache back,
    so an operation returns its outcome together with the cache as it is at
    the point of the return or of the throw. *)

From stdpp Require Import gmap strings list fin_maps.

Open Scope string_scope.
Open Scope list_scope.
Open Scope nat_scope.

(** ** Resource data *)

(** A property of a plain JavaScript object: missing, or present with the
    value [undefined], [null] or a string. *)
Inductive field :=
  | Absent
  | Undefined
  | Null
  | Str (s : string).

#[global] Instance field_eq_dec : EqDecision field.
Proof. solve_decision. Defined.

(** [ResourceData]: the three properties the cache reads.  Attributes and
    relationships of richer payloads are never inspected. *)
Record ResourceData := mkData {
  r_type : field;
  r_id : field;
  r_lid : field
}.

#[global] Instance ResourceData_eq_dec : EqDecision ResourceData.
Proof. solve_decision. Defined.

(** The argument of [createIdentifierForNewRecord]:
    [{ type: T; id?: string | null }]. *)
Record NewRecordData := mkNew {
  n_type : string;
  n_id : field
}.

(** ** Identifier objects *)

Definition addr := nat.

(** [StableRecordIdentifier]: [{ lid, id, type }].  The fields carry a
    prefix because [id] and [type] are taken in Rocq. *)
Record Token := mkToken {
  tk_lid : string;
  tk_id : option string;
  tk_type : string;
  tk_clientOriginated : bool
}.

#[global] Instance Token_eq_dec : EqDecision Token.
Proof. solve_decision. Defined.

(** What a caller hands to the cache: an object it got from a cache
    earlier (an identifier, stable or forgotten), or plain resource data. *)
Inductive Ref :=
  | RefToken (a : addr)
  | RefData (d : ResourceData).

(** [KeyOptions]: the per-type index. *)
Record KeyOptions := mkKeyOptions {
  ko_lid : gmap string addr;
  ko_id : gmap string addr;
  allIdentifiers : list addr
}.

(** ** Hooks and the observable trace *)

Inductive error :=
  | ErrNotInStore        (* The supplied identifier does not belong to this store instance *)
  | ErrTypeAssert        (* resource.type needs to be a string *)
  | ErrLidChanged        (* You should not change the <lid> of a RecordIdentifier *)
  | ErrTypeChanged       (* You should not change the <type> of a RecordIdentifier *)
  | ErrLidNotUnique      (* The lid generated for the new record is not unique *)
  | ErrLidUpdate         (* The 'lid' for a RecordIdentifier cannot be updated *)
  | ErrTypeUpdate        (* The 'type' for a RecordIdentifier cannot be updated *)
  | ErrTypeError.        (* property read on undefined *)

#[global] Instance error_eq_dec : EqDecision error.
Proof. solve_decision. Defined.

(** Calls of the host's callbacks and warnings, in the order they happen.
    The callbacks are observers: they do not call back into the cache. *)
Inductive Event :=
  | EvUpdate (a : addr) (d : ResourceData)
  | EvForget (a : addr)
  | EvMerge (target matched : addr) (d : ResourceData)
  | EvWarnId (a : addr) (newId : option string)
  | EvReset.

#[global] Instance Event_eq_dec : EqDecision Event.
Proof. solve_decision. Defined.

(** [GenerationMethod]: the second argument counts the earlier calls of the
    method on this cache, which is all a random or stateful policy can
    depend on besides the data. *)
Definition GenerationMethod := ResourceData → nat → string.

(** [MergeMethod]: it sees both identifiers (with their fields, through the
    heap) and the data, and answers with the identifier to keep; [None] is
    JavaScript's [undefined]. *)
Definition MergeMethod := list Token → addr → addr → ResourceData → option addr.

(** [defaultEmptyCallback]: returns [undefined]. *)
Definition defaultEmptyCallback : MergeMethod := λ _ _ _ _, None.

(** ** The cache *)

Record IdentifierCache := mkCache {
  heap : list Token;                 (* every identifier object ever made *)
  stable : gset addr;                (* the marks of is-stable-identifier *)
  lids : gmap string addr;           (* _cache.lids *)
  types : gmap string KeyOptions;    (* _cache.types *)
  _generate : GenerationMethod;
  _merge : MergeMethod;
  generated : nat;                   (* calls of _generate so far *)
  trace : list Event
}.

Definition emptyIndex : KeyOptions := mkKeyOptions ∅ ∅ [].

(** The index a type name stands for; a type never seen reads as the empty
    index [getTypeIndex] would create for it. *)
Definition typeIndex (c : IdentifierCache) (ty : string) : KeyOptions :=
  default emptyIndex (types c !! ty).

Definition dummyToken : Token := mkToken "" None "" false.

(** The fields of the object at [a]. *)
Definition tok (c : IdentifierCache) (a : addr) : Token :=
  default dummyToken (heap c !! a).

(** ** Outcomes and sequencing *)

Inductive outcome (A : Type) :=
  | Return (a : A)
  | Throw (e : error).
Arguments Return {A} a.
Arguments Throw {A} e.

#[global] Instance outcome_eq_dec {A} `{EqDecision A} : EqDecision (outcome A).
Proof. solve_decision. Defined.

Definition M (A : Type) := IdentifierCache → outcome A * IdentifierCache.

Definition ret {A} (a : A) : M A := λ c, (Return a, c).
Definition throw {A} (e : error) : M A := λ c, (Throw e, c).
Definition bind {A B} (m : M A) (k : A → M B) : M B :=
  λ c, match m c with
       | (Return a, c') => k a c'
       | (Throw e, c') => (Throw e, c')
       end.
Definition get : M IdentifierCache := λ c, (Return c, c).
Definition modify (f : IdentifierCache → IdentifierCache) : M unit :=
  λ c, (Return tt, f c).

Declare Scope cache_scope.
Delimit Scope cache_scope with cache.
Notation "x <- m ;; k" := (bind m (λ x, k))
  (at level 100, m at next level, right associativity) : cache_scope.
Notation "m ;;; k" := (bind m (λ _, k))
  (at level 100, right associativity) : cache_scope.
Open Scope cache_scope.

(** ** State updates *)

Definition with_heap (h : list Token) (c : IdentifierCache) :=
  mkCache h (stable c) (lids c) (types c) (_generate c) (_merge c) (generated c) (trace c).
Definition with_stable (s : gset addr) (c : IdentifierCache) :=
  mkCache (heap c) s (lids c) (types c) (_generate c) (_merge c) (generated c) (trace c).
Definition with_lids (l : gmap string addr) (c : IdentifierCache) :=
  mkCache (heap c) (stable c) l (types c) (_generate c) (_merge c) (generated c) (trace c).
Definition with_types (t : gmap string KeyOptions) (c : IdentifierCache) :=
  mkCache (heap c) (stable c) (lids c) t (_generate c) (_merge c) (generated c) (trace c).
Definition with_merge (m : MergeMethod) (c : IdentifierCache) :=
  mkCache (heap c) (stable c) (lids c) (types c) (_generate c) m (generated c) (trace c).
Definition with_generated (n : nat) (c : IdentifierCache) :=
  mkCache (heap c) (stable c) (lids c) (types c) (_generate c) (_merge c) n (trace c).
Definition emit (e : Event) (c : IdentifierCache) :=
  mkCache (heap c) (stable c) (lids c) (types c) (_generate c) (_merge c) (generated c)
          (trace c ++ [e]).

(** Replace the index of [ty] by [f] of it. *)
Definition with_index (ty : string) (f : KeyOptions → KeyOptions) (c : IdentifierCache) :=
  with_types (<[ty := f (typeIndex c ty)]> (types c)) c.

(** [m[k] = v], where storing [undefined] is modelled as removing the
    entry: the tables are only ever read by key, and a key bound to
    [undefined] reads like a missing one. *)
Definition assign (k : string) (v : option addr) (m : gmap string addr) : gmap string addr :=
  match v with
  | Some a => <[k := a]> m
  | None => delete k m
  end.

Definition set_ko_lid (k : string) (a : addr) (ko : KeyOptions) :=
  mkKeyOptions (<[k := a]> (ko_lid ko)) (ko_id ko) (allIdentifiers ko).
Definition del_ko_lid (k : string) (ko : KeyOptions) :=
  mkKeyOptions (delete k (ko_lid ko)) (ko_id ko) (allIdentifiers ko).
Definition set_ko_id (k : string) (v : option addr) (ko : KeyOptions) :=
  mkKeyOptions (ko_lid ko) (assign k v (ko_id ko)) (allIdentifiers ko).
Definition del_ko_id (k : string) (ko : KeyOptions) :=
  mkKeyOptions (ko_lid ko) (delete k (ko_id ko)) (allIdentifiers ko).
Definition push (a : addr) (ko : KeyOptions) :=
  mkKeyOptions (ko_lid ko) (ko_id ko) (allIdentifiers ko ++ [a]).

(** [indexOf]: the first position of [a], if any. *)
Fixpoint indexOf (a : addr) (l : list addr) : option nat :=
  match l with
  | [] => None
  | x :: l' => if decide (x = a) then Some 0 else S <$> indexOf a l'
  end.

(** [l.splice(l.indexOf(a), 1)]: drops the first occurrence of [a]; when
    there is none [indexOf] is [-1] and [splice(-1, 1)] drops the last
    element. *)
Definition spliceOut (a : addr) (l : list addr) : list addr :=
  match indexOf a l with
  | Some i => delete i l
  | None => removelast l
  end.

Definition splice_all (a : addr) (ko : KeyOptions) :=
  mkKeyOptions (ko_lid ko) (ko_id ko) (spliceOut a (allIdentifiers ko)).

(** ** Helpers imported by cache.ts *)

(** Modelled from the spec: [coerceId] ([system/coerce-id] is not among the
    sources).  The spec has the cache "coerce the caller-supplied local
    key (if any)" and treats empty keys as absent: a missing, [undefined],
    [null] or empty value coerces to [null], a string to itself. *)
Definition coerceId (f : field) : option string :=
  match f with
  | Str s => if decide (s = "") then None else Some s
  | _ => None
  end.

(** Modelled from the spec: [isNonEmptyString] ([utils/is-non-empty-string]
    is not among the sources): "a non-empty string". *)
Definition isNonEmptyString (f : field) : bool :=
  match f with
  | Str s => negb (bool_decide (s = ""))
  | _ => false
  end.

(** JavaScript truthiness of a property that holds a string or nothing. *)
Definition truthy (f : field) : bool :=
  match f with
  | Str s => negb (bool_decide (s = ""))
  | _ => false
  end.

(** The string a property holds; what is not a string reads as ["undefined"],
    as a template literal would print it. *)
Definition str_of (f : field) : string :=
  match f with
  | Str s => s
  | Null => "null"
  | _ => "undefined"
  end.

(** [null] used as a property key is the key ["null"]. *)
Definition key_of (o : option string) : string := default "null" o.

(** Modelled from the spec: [isStableIdentifier], [markStableIdentifier]
    and [unmarkStableIdentifier] ([identifiers/is-stable-identifier] is
    not among the sources).  The spec speaks of a "marker" that makes an
    object a "live stable identity" and that forget takes away; the marks
    are the set [stable] of the cache.  [isStableIdentifier]: the object
    carries the mark; resource data never does. *)
Definition isStableIdentifier (c : IdentifierCache) (r : Ref) : bool :=
  match r with
  | RefToken a => bool_decide (a ∈ stable c)
  | RefData _ => false
  end.

(** Modelled from the spec: [unmarkStableIdentifier] (see
    [isStableIdentifier]); removing the mark of an object that has none
    does nothing. *)
Definition unmarkStableIdentifier (r : Ref) (c : IdentifierCache) : IdentifierCache :=
  match r with
  | RefToken a => with_stable (stable c ∖ {[a]}) c
  | RefData _ => c
  end.

(** The properties an object shows when it is read as resource data.  An
    identifier shows its three fields ([id] is a string or [null]). *)
Definition data_of (c : IdentifierCache) (r : Ref) : ResourceData :=
  match r with
  | RefData d => d
  | RefToken a =>
      let t := tok c a in
      mkData (Str (tk_type t))
             (match tk_id t with Some i => Str i | None => Null end)
             (Str (tk_lid t))
  end.

(** [getTypeIndex]: creates the empty index of a type on first use. *)
Definition ensureIndex (ty : string) (c : IdentifierCache) : IdentifierCache :=
  match types c !! ty with
  | Some _ => c
  | None => with_types (<[ty := emptyIndex]> (types c)) c
  end.

Definition getTypeIndex (ty : string) : M unit := modify (ensureIndex ty).

(** Calling [this._generate(data, 'record')]. *)
Definition generate (d : ResourceData) : M string :=
  λ c, (Return (_generate c d (generated c)), with_generated (S (generated c)) c).

(** [makeStableRecordIdentifier]: a new object, marked (the marking is
    [markStableIdentifier], see [isStableIdentifier]).  In a DEBUG build
    the object handed out is a frozen wrapper whose getters read the
    record behind it, and updates go to that record through [DEBUG_MAP];
    wrapper and record are one object here. *)
Definition allocate (t : Token) (c : IdentifierCache) : IdentifierCache :=
  with_stable ({[length (heap c)]} ∪ stable c) (with_heap (heap c ++ [t]) c).

Definition makeStableRecordIdentifier (id : option string) (ty lid : string)
    (clientOriginated : bool) : M addr :=
  λ c, (Return (length (heap c)), allocate (mkToken lid id ty clientOriginated) c).

(** [identifier.id = id] *)
Definition setTokenId (a : addr) (id : option string) (c : IdentifierCache) : IdentifierCache :=
  let t := tok c a in
  with_heap (<[a := mkToken (tk_lid t) id (tk_type t) (tk_clientOriginated t)]> (heap c)) c.

(** What the module is built and linked with: [DEBUG] of [@glimmer/env],
    fixed when the library is built, and the imported [normalizeModelName]
    and [uuidv4] (the [n]-th random identifier drawn is [uuidv4 n]). *)
Class Env := {
  DEBUG : bool;
  normalizeModelName : string → string;
  uuidv4 : nat → string
}.

Section Cache.

Context `{Env}.

(** [defaultGenerationMethod] *)
Definition defaultGenerationMethod : GenerationMethod := λ data n,
  if isNonEmptyString (r_lid data) then str_of (r_lid data)
  else if bool_decide (r_id data ≠ Absent) && bool_decide (is_Some (coerceId (r_id data)))
  then ("@ember-data:lid-" ++ normalizeModelName (str_of (r_type data)) ++ "-"
        ++ str_of (r_id data))%string
  else uuidv4 n.

(** The constructor: the generation method configured at that moment, or
    the default one; the merge method is the empty callback until
    [__configureMerge] is called. *)
Definition newIdentifierCache (configuredGenerationMethod : option GenerationMethod)
    : IdentifierCache :=
  mkCache [] ∅ ∅ ∅ (default defaultGenerationMethod configuredGenerationMethod)
          defaultEmptyCallback 0 [].

(** [__configureMerge] *)
Definition __configureMerge (method : option MergeMethod) : M unit :=
  modify (with_merge (default defaultEmptyCallback method)).

(** Entering a new identifier in the global table, the primary table of
    its type and the list of all identifiers of the type (lines 257-265 and
    352-358). *)
Definition insertIdentifier (ty lid : string) (identifier : addr) (c : IdentifierCache)
    : IdentifierCache :=
  with_index ty (push identifier)
    (with_index ty (set_ko_lid lid identifier)
       (with_lids (<[lid := identifier]> (lids c)) c)).

(** The two lookups in the index (lines 215-224): the primary table by
    [lid] when there is one, then, if that gave nothing, the secondary
    table by [id] when there is one. *)
Definition indexLookup (keyOptions : KeyOptions) (lid id : option string) : option addr :=
  match lid ≫= (λ l, ko_lid keyOptions !! l), id with
  | None, Some i => ko_id keyOptions !! i
  | identifier, _ => identifier
  end.

(** The lookup by the generated [lid] (line 241), made only when the
    caller gave none. *)
Definition generatedLookup (keyOptions : KeyOptions) (lid : option string) (newLid : string)
    : option addr :=
  match lid with
  | None => ko_lid keyOptions !! newLid
  | Some _ => None
  end.

(** Filling the secondary table for the identifier found or made
    (lines 275-277). *)
Definition registerId (ty : string) (identifier : addr) (c : IdentifierCache)
    : IdentifierCache :=
  match tk_id (tok c identifier) with
  | Some i => with_index ty (set_ko_id i (Some identifier)) c
  | None => c
  end.

(** The creation step of [_getRecordIdentifier] (lines 245-266). *)
Definition createAndIndex (id : option string) (ty newLid : string) : M addr :=
  identifier <- makeStableRecordIdentifier id ty newLid false ;;
  c <- get ;;
  if DEBUG && bool_decide (is_Some (lids c !! newLid))
  then throw ErrTypeChanged
  else
    modify (insertIdentifier ty newLid identifier) ;;;
    ret identifier.

(** [_getRecordIdentifier].  Modelled from the spec: [assert] of
    [@ember/debug] is not among the sources; a missing or empty type past
    the early returns "is a caller contract violation, reported as an
    error". *)
Definition _getRecordIdentifier (resource : Ref) (shouldGenerate : bool) : M (option addr) :=
  c <- get ;;
  if isStableIdentifier c resource then
    match resource with
    | RefToken a =>
        if DEBUG && negb (bool_decide (lids c !! tk_lid (tok c a) = Some a))
        then throw ErrNotInStore
        else ret (Some a)
    | RefData _ => ret None
    end
  else
    let d := data_of c resource in
    let lid := coerceId (r_lid d) in
    match lid ≫= (λ l, lids c !! l) with
    | Some identifier => ret (Some identifier)
    | None =>
      if negb shouldGenerate && negb (truthy (r_type d) && truthy (r_id d))
      then ret None
      else if negb (isNonEmptyString (r_type d))
      then throw ErrTypeAssert
      else
        let type := normalizeModelName (str_of (r_type d)) in
        let id := coerceId (r_id d) in
        getTypeIndex type ;;;
        c <- get ;;
        let keyOptions := typeIndex c type in
        match indexLookup keyOptions lid id with
        | Some identifier => ret (Some identifier)
        | None =>
          newLid <- generate d ;;
          if bool_decide (is_Some lid) && negb (bool_decide (lid = Some newLid))
          then throw ErrLidChanged
          else
            let identifier := generatedLookup keyOptions lid newLid in
            if shouldGenerate then
              identifier <- match identifier with
                            | Some identifier => ret identifier
                            | None => createAndIndex id type newLid
                            end ;;
              modify (registerId type identifier) ;;;
              ret (Some identifier)
            else ret identifier
        end
    end.

(** [peekRecordIdentifier] *)
Definition peekRecordIdentifier (resource : Ref) : M (option addr) :=
  _getRecordIdentifier resource false.

(** [getOrCreateRecordIdentifier]: with [shouldGenerate] the result is an
    identifier; the [None] branch stands for a later read on [undefined]. *)
Definition getOrCreateRecordIdentifier (resource : Ref) : M addr :=
  r <- _getRecordIdentifier resource true ;;
  match r with
  | Some identifier => ret identifier
  | None => throw ErrTypeError
  end.

(** [createIdentifierForNewRecord] *)
Definition createIdentifierForNewRecord (data : NewRecordData) : M addr :=
  newLid <- generate (mkData (Str (n_type data)) (n_id data) Absent) ;;
  identifier <- makeStableRecordIdentifier (coerceId (n_id data)) (n_type data) newLid true ;;
  getTypeIndex (n_type data) ;;;
  c <- get ;;
  if DEBUG && bool_decide (is_Some (lids c !! newLid))
  then throw ErrLidNotUnique
  else
    modify (insertIdentifier (n_type data) newLid identifier) ;;;
    ret identifier.

(** Taking an identifier with fields [t] out of the tables (lines 472-479):
    the secondary table when it has an [id], the global table, the primary
    table, the list of all identifiers. *)
Definition removeIdentifier (identifier : addr) (t : Token) (c : IdentifierCache)
    : IdentifierCache :=
  let c := match tk_id t with
           | Some i => with_index (tk_type t) (del_ko_id i) c
           | None => c
           end in
  with_index (tk_type t) (splice_all identifier)
    (with_index (tk_type t) (del_ko_lid (tk_lid t))
       (with_lids (delete (tk_lid t) (lids c)) c)).

(** [forgetRecordIdentifier] *)
Definition forgetRecordIdentifier (identifierObject : Ref) : M unit :=
  identifier <- getOrCreateRecordIdentifier identifierObject ;;
  c <- get ;;
  let t := tok c identifier in
  getTypeIndex (tk_type t) ;;;
  modify (removeIdentifier identifier t) ;;;
  modify (unmarkStableIdentifier identifierObject) ;;;
  modify (emit (EvForget identifier)).

(** [destroy] *)
Definition destroy : M unit := modify (emit EvReset).

(** ['type' in data && data.type && normalizeModelName(data.type)], as far
    as it is a string: the empty string when [data.type] is empty. *)
Definition newTypeOf (data : ResourceData) : option string :=
  match r_type data with
  | Str s => if decide (s = "") then Some "" else Some (normalizeModelName s)
  | _ => None
  end.

(** [detectMerge]; [false] and [undefined] are both [None]. *)
Definition detectMerge (identifier : addr) (data : ResourceData) (newId : option string)
    : M (option addr) :=
  c <- get ;;
  let t := tok c identifier in
  let id := tk_id t in
  let type := tk_type t in
  let lid := tk_lid t in
  if bool_decide (is_Some id) && negb (bool_decide (id = newId)) && bool_decide (is_Some newId)
  then
    getTypeIndex type ;;;
    c <- get ;;
    ret (ko_id (typeIndex c type) !! key_of newId)
  else
    let newType := newTypeOf data in
    if bool_decide (is_Some id) && bool_decide (id = newId)
       && bool_decide (newType = Some type)
       && truthy (r_lid data) && negb (bool_decide (r_lid data = Str lid))
    then ret (lids c !! str_of (r_lid data))
    else if bool_decide (is_Some id) && bool_decide (id = newId)
       && bool_decide (is_Some newType) && negb (bool_decide (newType = Some ""))
       && negb (bool_decide (newType = Some type))
       && truthy (r_lid data) && bool_decide (r_lid data = Str lid)
    then
      getTypeIndex (key_of newType) ;;;
      c <- get ;;
      ret (ko_id (typeIndex c (key_of newType)) !! key_of id)
    else ret None.

(** [performRecordIdentifierUpdate].  Modelled from the spec: [warn] of
    [@ember/debug] is not among the sources; its test argument is [false]
    here, and a warning is "reported as a warning, processing continues":
    it is recorded in the trace. *)
Definition performRecordIdentifierUpdate (identifier : addr) (data : ResourceData) : M unit :=
  (if DEBUG then
     c <- get ;;
     let t := tok c identifier in
     (if negb (bool_decide (r_lid data = Absent)) && negb (bool_decide (r_lid data = Undefined))
         && negb (bool_decide (coerceId (r_lid data) = Some (tk_lid t)))
      then throw ErrLidUpdate else ret tt) ;;;
     (if negb (bool_decide (r_id data = Absent)) && negb (bool_decide (r_id data = Undefined))
         && bool_decide (is_Some (tk_id t))
         && negb (bool_decide (tk_id t = coerceId (r_id data)))
      then modify (emit (EvWarnId identifier (coerceId (r_id data)))) else ret tt) ;;;
     (match newTypeOf data with
      | Some type =>
          if negb (bool_decide (type = "")) && negb (bool_decide (type = tk_type t))
          then throw ErrTypeUpdate else ret tt
      | None => ret tt
      end) ;;;
     modify (emit (EvUpdate identifier data))
   else
     modify (emit (EvUpdate identifier data))) ;;;
  if negb (bool_decide (r_id data = Absent)) && negb (bool_decide (r_id data = Undefined))
  then
    modify (setTokenId identifier (coerceId (r_id data)))
  else ret tt.

(** [_mergeRecordIdentifiers].  [keyOptions] is the index of [type], taken
    by the caller before the call; indices are never dropped from the type
    map, so the name stands for the object.  The data object is changed in
    place ([data.lid = kept.lid]): its final state is returned with the
    identifier kept. *)
Definition _mergeRecordIdentifiers (type : string) (identifier existingIdentifier : addr)
    (data : ResourceData) (newId : option string) : M (addr * ResourceData) :=
  c <- get ;;
  let kept := _merge c (heap c) identifier existingIdentifier data in
  modify (emit (EvMerge identifier existingIdentifier data)) ;;;
  let abandoned :=
    if bool_decide (kept = Some identifier) then existingIdentifier else identifier in
  forgetRecordIdentifier (RefToken abandoned) ;;;
  modify (with_index type (set_ko_id (key_of newId) kept)) ;;;
  c <- get ;;
  let baseType := tk_type (tok c existingIdentifier) in
  getTypeIndex baseType ;;;
  modify (with_index baseType (set_ko_id (key_of newId) kept)) ;;;
  match kept with
  | None => throw ErrTypeError
  | Some kept =>
      c <- get ;;
      ret (kept, mkData (r_type data) (r_id data) (Str (tk_lid (tok c kept))))
  end.

(** [updateRecordIdentifier]: the identifier returned and the data object
    as the call leaves it. *)
Definition updateRecordIdentifier (identifierObject : Ref) (data : ResourceData)
    : M (addr * ResourceData) :=
  identifier <- getOrCreateRecordIdentifier identifierObject ;;
  let newId := coerceId (r_id data) in
  existingIdentifier <- detectMerge identifier data newId ;;
  c <- get ;;
  existingIdentifier <-
    match existingIdentifier with
    | Some e => ret (Some e)
    | None =>
        if truthy (r_type data)
           && negb (bool_decide (tk_type (tok c identifier)
                                 = normalizeModelName (str_of (r_type data))))
        then
          let incomingDataResource := mkData (r_type data) (r_id data) Absent in
          e <- getOrCreateRecordIdentifier (RefData incomingDataResource) ;;
          ret (Some e)
        else ret None
    end ;;
  merged <-
    match existingIdentifier with
    | Some e =>
        c <- get ;;
        let type := tk_type (tok c identifier) in
        getTypeIndex type ;;;
        _mergeRecordIdentifiers type identifier e data newId
    | None => ret (identifier, data)
    end ;;
  let identifier := merged.1 in
  let data := merged.2 in
  c <- get ;;
  let id := tk_id (tok c identifier) in
  performRecordIdentifierUpdate identifier data ;;;
  c <- get ;;
  let newId := tk_id (tok c identifier) in
  (if negb (bool_decide (id = newId)) && bool_decide (is_Some newId)
   then
     let type := tk_type (tok c identifier) in
     getTypeIndex type ;;;
     modify (with_index type (set_ko_id (key_of newId) (Some identifier))) ;;;
     match id with
     | Some i => modify (with_index type (del_ko_id i))
     | None => ret tt
     end
   else ret tt) ;;;
  ret (identifier, data).

End Cache.

(** ** Concrete builds, for examples *)

Fixpoint tally (n : nat) : string :=
  match n with
  | 0 => ""
  | S m => ("i" ++ tally m)%string
  end.

(** A stand-in for the random source: the [n]-th draw is ["uuid-"] followed
    by [n] strokes, so all draws differ. *)
Definition counterUuid (n : nat) : string := ("uuid-" ++ tally n)%string.

(** The examples use lower-case, dash-separated type names only, which a
    normalizer of model names leaves as they are. *)
Definition devBuild : Env :=
  {| DEBUG := true; normalizeModelName := λ s, s; uuidv4 := counterUuid |}.
Definition prodBuild : Env :=
  {| DEBUG := false; normalizeModelName := λ s, s; uuidv4 := counterUuid |}.

Definition buildOf (debug : bool) : Env := if debug then devBuild else prodBuild.

(** A generation method a host could configure: every identifier gets a
    random [lid] unless the data brings one. *)
Definition randomLids : GenerationMethod := λ data n,
  if isNonEmptyString (r_lid data) then str_of (r_lid data) else counterUuid n.

(** Merge methods a host could configure. *)
Definition keepMatched : MergeMethod := λ _ _ matched _, Some matched.
Definition keepTarget : MergeMethod := λ _ target _ _, Some target.

(** ** Well-formed tables *)

(** Every entry of the global table and of a primary table is filed under
    the [lid] of its identifier, and a primary table holds identifiers of
    its own type only.  Entries are addresses of objects that exist. *)
Definition keyed (c : IdentifierCache) : Prop :=
  (∀ L a, lids c !! L = Some a → a < length (heap c) ∧ tk_lid (tok c a) = L)
  ∧ (∀ ty L a, ko_lid (typeIndex c ty) !! L = Some a →
       a < length (heap c) ∧ tk_lid (tok c a) = L ∧ tk_type (tok c a) = ty).

(** The two local-key tables agree: what a primary table files under a
    [lid], the global table files under it too. *)
Definition lidTablesAgree (c : IdentifierCache) : Prop :=
  ∀ ty L a, ko_lid (typeIndex c ty) !! L = Some a → lids c !! L = Some a.

(** Every entry of a secondary table is filed under the [id] of its
    identifier, which is in the primary table of the same index. *)
Definition idTableSound (c : IdentifierCache) : Prop :=
  ∀ ty k a, ko_id (typeIndex c ty) !! k = Some a →
    tk_id (tok c a) = Some k
    ∧ ko_lid (typeIndex c ty) !! tk_lid (tok c a) = Some a.

(** Every identifier of a primary table that has an [id] is the entry of
    the secondary table for that [id]. *)
Definition registeredById (c : IdentifierCache) : Prop :=
  ∀ ty L e i, ko_lid (typeIndex c ty) !! L = Some e →
    tk_id (tok c e) = Some i → ko_id (typeIndex c ty) !! i = Some e.

(** Every identifier of the global table is in the primary table of its
    type, under the same [lid]. *)
Definition globalEntriesIndexed (c : IdentifierCache) : Prop :=
  ∀ L a, lids c !! L = Some a → ko_lid (typeIndex c (tk_type (tok c a))) !! L = Some a.

(** The tables of a DEBUG build on which no update has run. *)
Definition agreeing (c : IdentifierCache) : Prop :=
  keyed c ∧ lidTablesAgree c ∧ idTableSound c.

(** A live identifier: marked, and the owner of its [lid] in the global
    table (what the DEBUG check of [_getRecordIdentifier] asks for). *)
Definition live (c : IdentifierCache) (a : addr) : Prop :=
  a ∈ stable c ∧ a < length (heap c) ∧ lids c !! tk_lid (tok c a) = Some a.

(** The cache after an operation, whatever its outcome. *)
Definition after {A} (m : M A) (c : IdentifierCache) : IdentifierCache := (m c).2.

(** The identifier an operation returned; [0] stands in when it threw. *)
Definition returned (m : M addr) (c : IdentifierCache) : addr :=
  match (m c).1 with
  | Return a => a
  | Throw _ => 0
  end.

(** The cache after a marked identifier [a] has been forgotten. *)
Definition forgotten (a : addr) (c : IdentifierCache) : IdentifierCache :=
  emit (EvForget a)
    (unmarkStableIdentifier (RefToken a)
       (removeIdentifier a (tok c a) (ensureIndex (tk_type (tok c a)) c))).

(** The cache after [createIdentifierForNewRecord data] has returned. *)
Definition created (data : NewRecordData) (c : IdentifierCache) : IdentifierCache :=
  let newLid := _generate c (mkData (Str (n_type data)) (n_id data) Absent) (generated c) in
  insertIdentifier (n_type data) newLid (length (heap c))
    (ensureIndex (n_type data)
       (allocate (mkToken newLid (coerceId (n_id data)) (n_type data) true)
          (with_generated (S (generated c)) c))).

(** The cache after an update has given the identifier [a], which had no
    external key, the key [k]. *)
Definition assigned (a : addr) (k : string) (c : IdentifierCache) : IdentifierCache :=
  with_index (tk_type (tok c a)) (set_ko_id k (Some a))
    (ensureIndex (tk_type (tok c a))
       (setTokenId a (Some k) (emit (EvUpdate a (mkData Absent (Str k) Absent)) c))).

(** The cache after [_mergeRecordIdentifiers] has folded [loser] and filed
    [kept] under [key] in the secondary table of [ty]. *)
Definition merged (ty : string) (target matched : addr) (data : ResourceData)
    (key : string) (kept loser : addr) (c : IdentifierCache) : IdentifierCache :=
  with_index ty (set_ko_id key (Some kept))
    (ensureIndex ty
       (with_index ty (set_ko_id key (Some kept))
          (forgotten loser (emit (EvMerge target matched data) c)))).

(** The warning of [performRecordIdentifierUpdate], given in a DEBUG build
    when the identifier has an external key other than the incoming one. *)
Definition warned (debug : bool) (a : addr) (newId : option string) (c : IdentifierCache)
    : IdentifierCache :=
  if debug && bool_decide (is_Some (tk_id (tok c a)))
     && negb (bool_decide (tk_id (tok c a) = newId))
  then emit (EvWarnId a newId) c
  else c.

(** The last step of [updateRecordIdentifier] (lines 414-422) on an
    identifier [a] whose external key was [old] before the update. *)
Definition settled (a : addr) (old : option string) (c : IdentifierCache) : IdentifierCache :=
  if negb (bool_decide (old = tk_id (tok c a))) && bool_decide (is_Some (tk_id (tok c a)))
  then
    let c1 := with_index (tk_type (tok c a)) (set_ko_id (key_of (tk_id (tok c a))) (Some a))
                (ensureIndex (tk_type (tok c a)) c) in
    match old with
    | Some i => with_index (tk_type (tok c a)) (del_ko_id i) c1
    | None => c1
    end
  else c.

Definition isMerge (e : Event) : bool :=
  match e with
  | EvMerge _ _ _ => true
  | _ => false
  end.

(** An identifier's external key as a property of resource data. *)
Definition idField (t : Token) : field :=
  match tk_id t with
  | Some i => Str i
  | None => Null
  end.

(** An operation keeps a property of the cache, whether it returns or
    throws. *)
Definition preserves {A} (I : IdentifierCache → Prop) (m : M A) : Prop :=
  ∀ c, I c → I (after m c).

Section Vocabulary.

Context `{Env}.

(** ** Sequences of calls *)

Inductive Op :=
  | OpGetOrCreate (r : Ref)
  | OpPeek (r : Ref)
  | OpCreateForNew (d : NewRecordData)
  | OpUpdate (r : Ref) (d : ResourceData)
  | OpForget (r : Ref)
  | OpConfigureMerge (m : option MergeMethod).

(** One call; a call that throws leaves the cache as it was at the throw. *)
Definition exec (c : IdentifierCache) (o : Op) : IdentifierCache :=
  match o with
  | OpGetOrCreate r => after (getOrCreateRecordIdentifier r) c
  | OpPeek r => after (peekRecordIdentifier r) c
  | OpCreateForNew d => after (createIdentifierForNewRecord d) c
  | OpUpdate r d => after (updateRecordIdentifier r d) c
  | OpForget r => after (forgetRecordIdentifier r) c
  | OpConfigureMerge m => after (__configureMerge m) c
  end.

Definition run (ops : list Op) (c : IdentifierCache) : IdentifierCache :=
  foldl exec c ops.

Definition isUpdate (o : Op) : bool :=
  match o with
  | OpUpdate _ _ => true
  | _ => false
  end.

Definition isResolve (o : Op) : bool :=
  match o with
  | OpGetOrCreate _ | OpPeek _ => true
  | _ => false
  end.

(** The calls between two resolutions that leave the external keys of
    the identifiers and their entries alone: resolutions, peeks, new
    records without external key, and, in a DEBUG build (whose checks keep
    the two local-key tables in step), forgets. *)
Definition permitted (o : Op) : bool :=
  match o with
  | OpGetOrCreate _ | OpPeek _ | OpConfigureMerge _ => true
  | OpCreateForNew d => bool_decide (coerceId (n_id d) = None)
  | OpForget _ => DEBUG
  | OpUpdate _ _ => false
  end.

(** No forget of the sequence is a forget of the identifier [a]. *)
Fixpoint spares (a : addr) (ops : list Op) (c : IdentifierCache) : bool :=
  match ops with
  | [] => true
  | o :: ops' =>
      match o with
      | OpForget r => negb (bool_decide ((getOrCreateRecordIdentifier r c).1 = Return a))
      | _ => true
      end && spares a ops' (exec c o)
  end.

(** The tables as resolutions, peeks, new records without external key
    and (in a DEBUG build) forgets leave them. *)
Definition coherent (c : IdentifierCache) : Prop :=
  keyed c ∧ registeredById c
  ∧ (DEBUG = true → lidTablesAgree c ∧ idTableSound c ∧ globalEntriesIndexed c).

(** ** The ways [_getRecordIdentifier] can end *)

(** The caller's [lid], if it gave one, is in no entry of the global
    table. *)
Definition lidUnknown (c : IdentifierCache) (d : ResourceData) : Prop :=
  coerceId (r_lid d) ≫= (λ l, lids c !! l) = None.

(** The cache when the generation method has been asked: the index of the
    type exists and one more [lid] has been generated. *)
Definition asked (ty : string) (c : IdentifierCache) : IdentifierCache :=
  with_generated (S (generated c)) (ensureIndex ty c).

Inductive resolved (r : Ref) (sg : bool) (c : IdentifierCache)
    : outcome (option addr) → IdentifierCache → Prop :=
  | Res_stable a :
      r = RefToken a → a ∈ stable c →
      (DEBUG = true → lids c !! tk_lid (tok c a) = Some a) →
      resolved r sg c (Return (Some a)) c
  | Res_not_in_store a :
      r = RefToken a → a ∈ stable c → DEBUG = true →
      lids c !! tk_lid (tok c a) ≠ Some a →
      resolved r sg c (Throw ErrNotInStore) c
  | Res_lids l a :
      isStableIdentifier c r = false →
      coerceId (r_lid (data_of c r)) = Some l → lids c !! l = Some a →
      resolved r sg c (Return (Some a)) c
  | Res_absent :
      isStableIdentifier c r = false → lidUnknown c (data_of c r) →
      sg = false →
      truthy (r_type (data_of c r)) && truthy (r_id (data_of c r)) = false →
      resolved r sg c (Return None) c
  | Res_assert :
      isStableIdentifier c r = false → lidUnknown c (data_of c r) →
      isNonEmptyString (r_type (data_of c r)) = false →
      negb sg && negb (truthy (r_type (data_of c r)) && truthy (r_id (data_of c r))) = false →
      resolved r sg c (Throw ErrTypeAssert) c
  | Res_indexed ty a :
      isStableIdentifier c r = false → lidUnknown c (data_of c r) →
      ty = normalizeModelName (str_of (r_type (data_of c r))) →
      indexLookup (typeIndex c ty) (coerceId (r_lid (data_of c r)))
                  (coerceId (r_id (data_of c r))) = Some a →
      isNonEmptyString (r_type (data_of c r)) = true →
      resolved r sg c (Return (Some a)) (ensureIndex ty c)
  | Res_lid_changed ty l :
      isStableIdentifier c r = false → lidUnknown c (data_of c r) →
      ty = normalizeModelName (str_of (r_type (data_of c r))) →
      indexLookup (typeIndex c ty) (coerceId (r_lid (data_of c r)))
                  (coerceId (r_id (data_of c r))) = None →
      coerceId (r_lid (data_of c r)) = Some l →
      l ≠ _generate c (data_of c r) (generated c) →
      isNonEmptyString (r_type (data_of c r)) = true →
      resolved r sg c (Throw ErrLidChanged) (asked ty c)
  | Res_peek_generated ty :
      isStableIdentifier c r = false → lidUnknown c (data_of c r) →
      sg = false →
      ty = normalizeModelName (str_of (r_type (data_of c r))) →
      indexLookup (typeIndex c ty) (coerceId (r_lid (data_of c r)))
                  (coerceId (r_id (data_of c r))) = None →
      isNonEmptyString (r_type (data_of c r)) = true →
      (∀ l, coerceId (r_lid (data_of c r)) = Some l →
            l = _generate c (data_of c r) (generated c)) →
      resolved r sg c
        (Return (generatedLookup (typeIndex c ty) (coerceId (r_lid (data_of c r)))
                   (_generate c (data_of c r) (generated c))))
        (asked ty c)
  | Res_generated_hit ty e :
      isStableIdentifier c r = false → lidUnknown c (data_of c r) →
      sg = true →
      ty = normalizeModelName (str_of (r_type (data_of c r))) →
      indexLookup (typeIndex c ty) (coerceId (r_lid (data_of c r)))
                  (coerceId (r_id (data_of c r))) = None →
      coerceId (r_lid (data_of c r)) = None →
      ko_lid (typeIndex c ty) !! _generate c (data_of c r) (generated c) = Some e →
      isNonEmptyString (r_type (data_of c r)) = true →
      resolved r sg c (Return (Some e)) (registerId ty e (asked ty c))
  | Res_type_changed ty newLid :
      isStableIdentifier c r = false → lidUnknown c (data_of c r) →
      sg = true →
      ty = normalizeModelName (str_of (r_type (data_of c r))) →
      newLid = _generate c (data_of c r) (generated c) →
      DEBUG = true → is_Some (lids c !! newLid) →
      isNonEmptyString (r_type (data_of c r)) = true →
      (∀ l, coerceId (r_lid (data_of c r)) = Some l → l = newLid) →
      resolved r sg c (Throw ErrTypeChanged)
        (allocate (mkToken newLid (coerceId (r_id (data_of c r))) ty false) (asked ty c))
  | Res_created ty newLid :
      isStableIdentifier c r = false → lidUnknown c (data_of c r) →
      sg = true →
      isNonEmptyString (r_type (data_of c r)) = true →
      ty = normalizeModelName (str_of (r_type (data_of c r))) →
      newLid = _generate c (data_of c r) (generated c) →
      indexLookup (typeIndex c ty) (coerceId (r_lid (data_of c r)))
                  (coerceId (r_id (data_of c r))) = None →
      (∀ l, coerceId (r_lid (data_of c r)) = Some l → l = newLid) →
      generatedLookup (typeIndex c ty) (coerceId (r_lid (data_of c r))) newLid = None →
      (DEBUG = true → lids c !! newLid = None) →
      resolved r sg c (Return (Some (length (heap c))))
        (registerId ty (length (heap c))
           (insertIdentifier ty newLid (length (heap c))
              (allocate (mkToken newLid (coerceId (r_id (data_of c r))) ty false)
                 (asked ty c)))).

End Vocabulary.

(** * Vocabulary of the properties of the whole cache *)

(** Every list of all identifiers holds an identifier once at most, and
    only objects of the type of its index. *)
Definition listed (c : IdentifierCache) : Prop :=
  ∀ ty, NoDup (allIdentifiers (typeIndex c ty))
        ∧ ∀ a, a ∈ allIdentifiers (typeIndex c ty) →
               a < length (heap c) ∧ tk_type (tok c a) = ty.

(** The objects of [c0] are objects of [c], with the [lid], the [type] and
    the origin they had in [c0]. *)
Definition extends (c0 c : IdentifierCache) : Prop :=
  length (heap c0) ≤ length (heap c)
  ∧ ∀ a, a < length (heap c0) →
      tk_lid (tok c a) = tk_lid (tok c0 a)
      ∧ tk_type (tok c a) = tk_type (tok c0 a)
      ∧ tk_clientOriginated (tok c a) = tk_clientOriginated (tok c0 a).

(** The objects of [c0] are objects of [c], unchanged. *)
Definition unchanged (c0 c : IdentifierCache) : Prop :=
  length (heap c0) ≤ length (heap c)
  ∧ ∀ a, a < length (heap c0) → tok c a = tok c0 a.

(** The tables of [c'] read as those of [c]: the global table, and the two
    tables and the list of every type. *)
Definition sameTables (c c' : IdentifierCache) : Prop :=
  lids c' = lids c ∧ ∀ ty, typeIndex c' ty = typeIndex c ty.

Section Outcomes.

Context `{Env}.

(** The error a call ends with, if it throws. *)
Definition thrown {A} (m : M A) (c : IdentifierCache) : option error :=
  match (m c).1 with
  | Return _ => None
  | Throw e => Some e
  end.

Definition failure (c : IdentifierCache) (o : Op) : option error :=
  match o with
  | OpGetOrCreate r => thrown (getOrCreateRecordIdentifier r) c
  | OpPeek r => thrown (peekRecordIdentifier r) c
  | OpCreateForNew d => thrown (createIdentifierForNewRecord d) c
  | OpUpdate r d => thrown (updateRecordIdentifier r d) c
  | OpForget r => thrown (forgetRecordIdentifier r) c
  | OpConfigureMerge m => thrown (__configureMerge m) c
  end.

End Outcomes.

(** * Properties *)

Arguments typeIndex : simpl never.
Arguments tok : simpl never.
Arguments with_index : simpl never.
Arguments ensureIndex : simpl never.
Arguments setTokenId : simpl never.
Arguments allocate : simpl never.
Arguments insertIdentifier : simpl never.
Arguments removeIdentifier : simpl never.
Arguments registerId : simpl never.
Arguments asked : simpl never.
Arguments forgotten : simpl never.
Arguments created : simpl never.
Arguments assigned : simpl never.
Arguments merged : simpl never.
Arguments warned : simpl never.
Arguments settled : simpl never.

(** ** Sequencing *)

Lemma bind_Return {A B} (m : M A) (k : A → M B) c a c' :
  m c = (Return a, c') → bind m k c = k a c'.
Proof. intros E. unfold bind. by rewrite E. Qed.

Lemma bind_Throw {A B} (m : M A) (k : A → M B) c e c' :
  m c = (Throw e, c') → bind m k c = (Throw e, c').
Proof. intros E. unfold bind. by rewrite E. Qed.

Lemma bind_get {B} (k : IdentifierCache → M B) c : bind get k c = k c c.
Proof. done. Qed.

Lemma bind_ret {A B} (a : A) (k : A → M B) c : bind (ret a) k c = k a c.
Proof. done. Qed.

Lemma bind_modify {B} f (k : unit → M B) c : bind (modify f) k c = k tt (f c).
Proof. done. Qed.

Lemma bind_getTypeIndex {B} ty (k : unit → M B) c :
  bind (getTypeIndex ty) k c = k tt (ensureIndex ty c).
Proof. done. Qed.

Lemma bind_bind {A B C} (m : M A) (k : A → M B) (h : B → M C) c :
  bind (bind m k) h c = bind m (λ a, bind (k a) h) c.
Proof. unfold bind. by destruct (m c) as [[a|e] c']. Qed.

(** ** Reading a cache after a step *)

Lemma typeIndex_with_index ty f c ty' :
  typeIndex (with_index ty f c) ty'
  = if decide (ty = ty') then f (typeIndex c ty) else typeIndex c ty'.
Proof.
  unfold typeIndex, with_index. simpl.
  destruct (decide (ty = ty')) as [->|Hne].
  - by rewrite lookup_insert_eq.
  - by rewrite lookup_insert_ne.
Qed.

Lemma typeIndex_with_index_eq ty f c :
  typeIndex (with_index ty f c) ty = f (typeIndex c ty).
Proof. rewrite typeIndex_with_index. by rewrite decide_True. Qed.

Lemma typeIndex_with_index_ne ty f c ty' :
  ty ≠ ty' → typeIndex (with_index ty f c) ty' = typeIndex c ty'.
Proof. intros. rewrite typeIndex_with_index. by rewrite decide_False. Qed.

Lemma typeIndex_ensureIndex ty c ty' :
  typeIndex (ensureIndex ty c) ty' = typeIndex c ty'.
Proof.
  unfold typeIndex, ensureIndex.
  destruct (types c !! ty) eqn:E; [done|]. simpl.
  destruct (decide (ty = ty')) as [<-|Hne].
  - by rewrite lookup_insert_eq, E.
  - by rewrite lookup_insert_ne.
Qed.

Lemma ensureIndex_heap ty c : heap (ensureIndex ty c) = heap c.
Proof. unfold ensureIndex. by destruct (types c !! ty). Qed.
Lemma ensureIndex_stable ty c : stable (ensureIndex ty c) = stable c.
Proof. unfold ensureIndex. by destruct (types c !! ty). Qed.
Lemma ensureIndex_lids ty c : lids (ensureIndex ty c) = lids c.
Proof. unfold ensureIndex. by destruct (types c !! ty). Qed.
Lemma ensureIndex_generate ty c : _generate (ensureIndex ty c) = _generate c.
Proof. unfold ensureIndex. by destruct (types c !! ty). Qed.
Lemma ensureIndex_merge ty c : _merge (ensureIndex ty c) = _merge c.
Proof. unfold ensureIndex. by destruct (types c !! ty). Qed.
Lemma ensureIndex_generated ty c : generated (ensureIndex ty c) = generated c.
Proof. unfold ensureIndex. by destruct (types c !! ty). Qed.
Lemma ensureIndex_trace ty c : trace (ensureIndex ty c) = trace c.
Proof. unfold ensureIndex. by destruct (types c !! ty). Qed.
Lemma tok_ensureIndex ty c a : tok (ensureIndex ty c) a = tok c a.
Proof. unfold tok. by rewrite ensureIndex_heap. Qed.

Lemma with_index_heap ty f c : heap (with_index ty f c) = heap c.
Proof. done. Qed.
Lemma with_index_stable ty f c : stable (with_index ty f c) = stable c.
Proof. done. Qed.
Lemma with_index_lids ty f c : lids (with_index ty f c) = lids c.
Proof. done. Qed.
Lemma with_index_generate ty f c : _generate (with_index ty f c) = _generate c.
Proof. done. Qed.
Lemma with_index_merge ty f c : _merge (with_index ty f c) = _merge c.
Proof. done. Qed.
Lemma with_index_generated ty f c : generated (with_index ty f c) = generated c.
Proof. done. Qed.
Lemma with_index_trace ty f c : trace (with_index ty f c) = trace c.
Proof. done. Qed.
Lemma tok_with_index ty f c a : tok (with_index ty f c) a = tok c a.
Proof. done. Qed.

Lemma typeIndex_with_heap h c ty : typeIndex (with_heap h c) ty = typeIndex c ty.
Proof. done. Qed.
Lemma typeIndex_with_stable s c ty : typeIndex (with_stable s c) ty = typeIndex c ty.
Proof. done. Qed.
Lemma typeIndex_with_lids l c ty : typeIndex (with_lids l c) ty = typeIndex c ty.
Proof. done. Qed.
Lemma typeIndex_with_merge m c ty : typeIndex (with_merge m c) ty = typeIndex c ty.
Proof. done. Qed.
Lemma typeIndex_with_generated n c ty : typeIndex (with_generated n c) ty = typeIndex c ty.
Proof. done. Qed.
Lemma typeIndex_emit e c ty : typeIndex (emit e c) ty = typeIndex c ty.
Proof. done. Qed.
Lemma typeIndex_unmark r c ty : typeIndex (unmarkStableIdentifier r c) ty = typeIndex c ty.
Proof. by destruct r. Qed.

Lemma tok_with_stable s c a : tok (with_stable s c) a = tok c a.
Proof. done. Qed.
Lemma tok_with_lids l c a : tok (with_lids l c) a = tok c a.
Proof. done. Qed.
Lemma tok_with_merge m c a : tok (with_merge m c) a = tok c a.
Proof. done. Qed.
Lemma tok_with_generated n c a : tok (with_generated n c) a = tok c a.
Proof. done. Qed.
Lemma tok_emit e c a : tok (emit e c) a = tok c a.
Proof. done. Qed.
Lemma tok_unmark r c a : tok (unmarkStableIdentifier r c) a = tok c a.
Proof. by destruct r. Qed.

Lemma unmark_heap r c : heap (unmarkStableIdentifier r c) = heap c.
Proof. by destruct r. Qed.
Lemma unmark_lids r c : lids (unmarkStableIdentifier r c) = lids c.
Proof. by destruct r. Qed.
Lemma unmark_trace r c : trace (unmarkStableIdentifier r c) = trace c.
Proof. by destruct r. Qed.
Lemma unmark_generate r c : _generate (unmarkStableIdentifier r c) = _generate c.
Proof. by destruct r. Qed.
Lemma unmark_merge r c : _merge (unmarkStableIdentifier r c) = _merge c.
Proof. by destruct r. Qed.
Lemma unmark_generated r c : generated (unmarkStableIdentifier r c) = generated c.
Proof. by destruct r. Qed.

Lemma emit_heap e c : heap (emit e c) = heap c.
Proof. done. Qed.
Lemma emit_lids e c : lids (emit e c) = lids c.
Proof. done. Qed.
Lemma emit_stable e c : stable (emit e c) = stable c.
Proof. done. Qed.
Lemma emit_trace e c : trace (emit e c) = trace c ++ [e].
Proof. done. Qed.

(** [asked] *)
Lemma asked_heap ty c : heap (asked ty c) = heap c.
Proof. unfold asked. simpl. apply ensureIndex_heap. Qed.
Lemma asked_stable ty c : stable (asked ty c) = stable c.
Proof. unfold asked. simpl. apply ensureIndex_stable. Qed.
Lemma asked_lids ty c : lids (asked ty c) = lids c.
Proof. unfold asked. simpl. apply ensureIndex_lids. Qed.
Lemma asked_generate ty c : _generate (asked ty c) = _generate c.
Proof. unfold asked. simpl. apply ensureIndex_generate. Qed.
Lemma asked_merge ty c : _merge (asked ty c) = _merge c.
Proof. unfold asked. simpl. apply ensureIndex_merge. Qed.
Lemma asked_generated ty c : generated (asked ty c) = S (generated c).
Proof. unfold asked. simpl. by rewrite ?ensureIndex_generated. Qed.
Lemma asked_trace ty c : trace (asked ty c) = trace c.
Proof. unfold asked. simpl. apply ensureIndex_trace. Qed.
Lemma tok_asked ty c a : tok (asked ty c) a = tok c a.
Proof. unfold tok. by rewrite asked_heap. Qed.
Lemma typeIndex_asked ty c ty' : typeIndex (asked ty c) ty' = typeIndex c ty'.
Proof. unfold asked. rewrite typeIndex_with_generated. apply typeIndex_ensureIndex. Qed.

(** [allocate] *)
Lemma allocate_heap t c : heap (allocate t c) = heap c ++ [t].
Proof. done. Qed.
Lemma allocate_stable t c : stable (allocate t c) = {[length (heap c)]} ∪ stable c.
Proof. done. Qed.
Lemma allocate_lids t c : lids (allocate t c) = lids c.
Proof. done. Qed.
Lemma allocate_generate t c : _generate (allocate t c) = _generate c.
Proof. done. Qed.
Lemma allocate_merge t c : _merge (allocate t c) = _merge c.
Proof. done. Qed.
Lemma allocate_generated t c : generated (allocate t c) = generated c.
Proof. done. Qed.
Lemma allocate_trace t c : trace (allocate t c) = trace c.
Proof. done. Qed.
Lemma typeIndex_allocate t c ty : typeIndex (allocate t c) ty = typeIndex c ty.
Proof. done. Qed.
Lemma tok_allocate_old t c a : a < length (heap c) → tok (allocate t c) a = tok c a.
Proof. intros Ha. unfold tok. rewrite allocate_heap. by rewrite lookup_app_l. Qed.
Lemma tok_allocate_new t c : tok (allocate t c) (length (heap c)) = t.
Proof.
  unfold tok. rewrite allocate_heap.
  rewrite lookup_app_r by lia. by rewrite Nat.sub_diag.
Qed.

Lemma tok_allocate_asked t ty c : tok (allocate t (asked ty c)) (length (heap c)) = t.
Proof.
  pose proof (tok_allocate_new t (asked ty c)) as E. by rewrite asked_heap in E.
Qed.

(** [setTokenId] *)
Lemma setTokenId_length a i c : length (heap (setTokenId a i c)) = length (heap c).
Proof. unfold setTokenId. simpl. apply length_insert. Qed.
Lemma setTokenId_stable a i c : stable (setTokenId a i c) = stable c.
Proof. done. Qed.
Lemma setTokenId_lids a i c : lids (setTokenId a i c) = lids c.
Proof. done. Qed.
Lemma setTokenId_generate a i c : _generate (setTokenId a i c) = _generate c.
Proof. done. Qed.
Lemma setTokenId_merge a i c : _merge (setTokenId a i c) = _merge c.
Proof. done. Qed.
Lemma setTokenId_generated a i c : generated (setTokenId a i c) = generated c.
Proof. done. Qed.
Lemma setTokenId_trace a i c : trace (setTokenId a i c) = trace c.
Proof. done. Qed.
Lemma typeIndex_setTokenId a i c ty : typeIndex (setTokenId a i c) ty = typeIndex c ty.
Proof. done. Qed.
Lemma tok_setTokenId_ne a i c b : a ≠ b → tok (setTokenId a i c) b = tok c b.
Proof. intros Hne. unfold tok, setTokenId. simpl. by rewrite list_lookup_insert_ne. Qed.
Lemma tok_setTokenId_lid a i c b : tk_lid (tok (setTokenId a i c) b) = tk_lid (tok c b).
Proof.
  destruct (decide (a = b)) as [<-|Hne]; [|by rewrite tok_setTokenId_ne].
  unfold tok, setTokenId. simpl.
  destruct (decide (a < length (heap c))).
  - by rewrite list_lookup_insert_eq.
  - by rewrite list_insert_ge by lia.
Qed.
Lemma tok_setTokenId_type a i c b : tk_type (tok (setTokenId a i c) b) = tk_type (tok c b).
Proof.
  destruct (decide (a = b)) as [<-|Hne]; [|by rewrite tok_setTokenId_ne].
  unfold tok, setTokenId. simpl.
  destruct (decide (a < length (heap c))).
  - by rewrite list_lookup_insert_eq.
  - by rewrite list_insert_ge by lia.
Qed.
Lemma tok_setTokenId_id a i c : a < length (heap c) → tk_id (tok (setTokenId a i c) a) = i.
Proof. intros Ha. unfold tok, setTokenId. simpl. by rewrite list_lookup_insert_eq. Qed.

Create Rewrite HintDb cache.

#[local] Hint Rewrite
  typeIndex_ensureIndex ensureIndex_heap ensureIndex_stable ensureIndex_lids
  ensureIndex_generate ensureIndex_merge ensureIndex_generated ensureIndex_trace
  tok_ensureIndex
  with_index_heap with_index_stable with_index_lids with_index_generate with_index_merge
  with_index_generated with_index_trace tok_with_index
  typeIndex_with_heap typeIndex_with_stable typeIndex_with_lids typeIndex_with_merge
  typeIndex_with_generated typeIndex_emit typeIndex_unmark
  tok_with_stable tok_with_lids tok_with_merge tok_with_generated tok_emit tok_unmark
  unmark_heap unmark_lids unmark_trace unmark_generate unmark_merge unmark_generated
  asked_heap asked_stable asked_lids asked_generate asked_merge asked_generated
  asked_trace tok_asked typeIndex_asked
  allocate_heap allocate_stable allocate_lids allocate_generate allocate_merge
  allocate_generated allocate_trace typeIndex_allocate tok_allocate_new tok_allocate_asked
  setTokenId_length setTokenId_stable setTokenId_lids setTokenId_generate setTokenId_merge
  setTokenId_generated setTokenId_trace typeIndex_setTokenId
  tok_setTokenId_lid tok_setTokenId_type
  typeIndex_with_index_eq
  : cache.

(** ** Operations that keep a property *)

Lemma preserves_bind {A B} I (m : M A) (k : A → M B) :
  preserves I m → (∀ a, preserves I (k a)) → preserves I (bind m k).
Proof.
  intros Hm Hk c Hc. unfold after, bind. specialize (Hm c Hc). unfold after in Hm.
  destruct (m c) as [[a|e] c']; simpl in *; [|done].
  by apply Hk.
Qed.

Lemma preserves_ret {A} I (a : A) : preserves I (ret a).
Proof. by intros c Hc. Qed.

Lemma preserves_throw {A} I e : preserves I (@throw A e).
Proof. by intros c Hc. Qed.

Lemma preserves_get_bind {B} I (k : IdentifierCache → M B) :
  (∀ c0, preserves (λ c, c = c0 ∧ I c) (k c0)) → preserves I (bind get k).
Proof.
  intros Hk c Hc. unfold after, bind, get. simpl.
  by apply (Hk c c).
Qed.

Lemma preserves_get I : preserves I get.
Proof. by intros c Hc. Qed.

Lemma preserves_modify I f : (∀ c, I c → I (f c)) → preserves I (modify f).
Proof. intros Hf c Hc. by apply Hf. Qed.

Lemma preserves_weaken {A} (I J : IdentifierCache → Prop) (m : M A) :
  (∀ c, J c → I c) → preserves I m → (∀ c, J c → I (after m c)).
Proof. intros HJ Hm c Hc. apply Hm. by apply HJ. Qed.

(** A call that also establishes [Q] of what it returns. *)
Lemma after_bind_post {A B} (I : IdentifierCache → Prop) (Q : A → IdentifierCache → Prop)
    (m : M A) (k : A → M B) c :
  I c →
  (match m c with
   | (Return a, c') => I c' ∧ Q a c'
   | (Throw _, c') => I c'
   end) →
  (∀ a c', I c' → Q a c' → I (after (k a) c')) →
  I (after (bind m k) c).
Proof.
  intros Hc Hm Hk. unfold after, bind.
  destruct (m c) as [[a|e] c']; simpl in *; [|done].
  destruct Hm. by apply Hk.
Qed.

(** ** [keyed] is kept by every step *)

(** A step that adds no entry to the local-key tables, drops no object and
    leaves [lid] and [type] of the objects alone keeps the tables keyed. *)
Lemma keyed_shrink c c' :
  length (heap c) ≤ length (heap c') →
  (∀ a, a < length (heap c) →
     tk_lid (tok c' a) = tk_lid (tok c a) ∧ tk_type (tok c' a) = tk_type (tok c a)) →
  (∀ L a, lids c' !! L = Some a → lids c !! L = Some a) →
  (∀ ty L a, ko_lid (typeIndex c' ty) !! L = Some a →
     ko_lid (typeIndex c ty) !! L = Some a) →
  keyed c → keyed c'.
Proof.
  intros Hlen Htok Hlids Hidx [K1 K2]. split.
  - intros L a Ha. apply Hlids, K1 in Ha as [Hlt Hl].
    destruct (Htok a Hlt) as [-> _]. split; [lia|done].
  - intros ty L a Ha. apply Hidx, K2 in Ha as (Hlt & Hl & Ht).
    destruct (Htok a Hlt) as [-> ->]. split; [lia|done].
Qed.

Ltac by_shrinking :=
  apply keyed_shrink; intros; autorewrite with cache in *; auto; try lia.

Lemma keyed_ensureIndex ty c : keyed c → keyed (ensureIndex ty c).
Proof. by_shrinking. Qed.

Lemma keyed_asked ty c : keyed c → keyed (asked ty c).
Proof. by_shrinking. Qed.

Lemma keyed_allocate t c : keyed c → keyed (allocate t c).
Proof.
  by_shrinking.
  - rewrite length_app. lia.
  - by rewrite tok_allocate_old.
Qed.

Lemma keyed_emit e c : keyed c → keyed (emit e c).
Proof. by_shrinking. Qed.

Lemma keyed_unmark r c : keyed c → keyed (unmarkStableIdentifier r c).
Proof. by_shrinking. Qed.

Lemma keyed_with_merge m c : keyed c → keyed (with_merge m c).
Proof. by_shrinking. Qed.

Lemma keyed_setTokenId a i c : keyed c → keyed (setTokenId a i c).
Proof. by_shrinking. Qed.

Lemma ko_lid_set_ko_id k v ko : ko_lid (set_ko_id k v ko) = ko_lid ko.
Proof. done. Qed.
Lemma ko_lid_del_ko_id k ko : ko_lid (del_ko_id k ko) = ko_lid ko.
Proof. done. Qed.
Lemma ko_lid_push a ko : ko_lid (push a ko) = ko_lid ko.
Proof. done. Qed.
Lemma ko_lid_splice a ko : ko_lid (splice_all a ko) = ko_lid ko.
Proof. done. Qed.
Lemma ko_id_push a ko : ko_id (push a ko) = ko_id ko.
Proof. done. Qed.
Lemma ko_id_splice a ko : ko_id (splice_all a ko) = ko_id ko.
Proof. done. Qed.
Lemma ko_id_set_ko_lid k a ko : ko_id (set_ko_lid k a ko) = ko_id ko.
Proof. done. Qed.
Lemma ko_id_del_ko_lid k ko : ko_id (del_ko_lid k ko) = ko_id ko.
Proof. done. Qed.

(** A change of an index that leaves its primary table alone. *)
Lemma keyed_with_index ty f c :
  (∀ ko, ko_lid (f ko) = ko_lid ko) → keyed c → keyed (with_index ty f c).
Proof.
  intros Hf. by_shrinking.
  rewrite typeIndex_with_index in *.
  destruct (decide (ty = ty0)) as [<-|]; [|done]. by rewrite Hf in *.
Qed.

Lemma keyed_registerId ty a c : keyed c → keyed (registerId ty a c).
Proof.
  intros Hc. unfold registerId. destruct (tk_id (tok c a)); [|done].
  by apply keyed_with_index.
Qed.

Lemma ko_lid_removeIdentifier a t c ty :
  ko_lid (typeIndex (removeIdentifier a t c) ty)
  = if decide (tk_type t = ty) then delete (tk_lid t) (ko_lid (typeIndex c ty))
    else ko_lid (typeIndex c ty).
Proof.
  unfold removeIdentifier.
  destruct (tk_id t); rewrite !typeIndex_with_index, ?typeIndex_with_lids,
    ?typeIndex_with_index.
  all: destruct (decide (tk_type t = ty)) as [<-|]; rewrite ?decide_True by done; done.
Qed.

Lemma lids_removeIdentifier a t c :
  lids (removeIdentifier a t c) = delete (tk_lid t) (lids c).
Proof. unfold removeIdentifier. simpl. by destruct (tk_id t). Qed.

Lemma heap_removeIdentifier a t c : heap (removeIdentifier a t c) = heap c.
Proof. unfold removeIdentifier. simpl. by destruct (tk_id t). Qed.

Lemma tok_removeIdentifier a t c b : tok (removeIdentifier a t c) b = tok c b.
Proof. unfold tok. by rewrite heap_removeIdentifier. Qed.

Lemma keyed_removeIdentifier a t c : keyed c → keyed (removeIdentifier a t c).
Proof.
  apply keyed_shrink.
  - by rewrite heap_removeIdentifier.
  - intros b _. by rewrite tok_removeIdentifier.
  - intros L b. rewrite lids_removeIdentifier. intros Hb.
    by apply lookup_delete_Some in Hb as [_ ?].
  - intros ty L b. rewrite ko_lid_removeIdentifier.
    destruct (decide (tk_type t = ty)); [|done].
    intros Hb. by apply lookup_delete_Some in Hb as [_ ?].
Qed.

Lemma lids_insertIdentifier ty L a c :
  lids (insertIdentifier ty L a c) = <[L := a]> (lids c).
Proof. done. Qed.

Lemma heap_insertIdentifier ty L a c : heap (insertIdentifier ty L a c) = heap c.
Proof. done. Qed.

Lemma tok_insertIdentifier ty L a c b : tok (insertIdentifier ty L a c) b = tok c b.
Proof. done. Qed.

Lemma typeIndex_insertIdentifier ty L a c ty' :
  typeIndex (insertIdentifier ty L a c) ty'
  = if decide (ty = ty') then push a (set_ko_lid L a (typeIndex c ty))
    else typeIndex c ty'.
Proof.
  unfold insertIdentifier. rewrite !typeIndex_with_index, typeIndex_with_lids.
  destruct (decide (ty = ty')); by rewrite ?decide_True.
Qed.

Lemma keyed_insertIdentifier ty L a c :
  a < length (heap c) → tk_lid (tok c a) = L → tk_type (tok c a) = ty →
  keyed c → keyed (insertIdentifier ty L a c).
Proof.
  intros Ha Hl Ht [K1 K2]. split.
  - intros L' b. rewrite lids_insertIdentifier, heap_insertIdentifier, tok_insertIdentifier.
    intros Hb. apply lookup_insert_Some in Hb as [[<- <-]|[_ Hb]]; [done|by apply K1].
  - intros ty' L' b.
    rewrite typeIndex_insertIdentifier, heap_insertIdentifier, tok_insertIdentifier.
    destruct (decide (ty = ty')) as [<-|]; [|by apply K2]. simpl.
    intros Hb. apply lookup_insert_Some in Hb as [[<- <-]|[_ Hb]]; [done|by apply K2].
Qed.

Lemma keyed_new g m : keyed (mkCache [] ∅ ∅ ∅ g m 0 []).
Proof. split; intros *; unfold typeIndex; simpl; by rewrite ?lookup_empty. Qed.

Create HintDb keyed.

#[local] Hint Resolve keyed_ensureIndex keyed_asked keyed_allocate keyed_emit keyed_unmark
  keyed_with_merge keyed_setTokenId keyed_registerId keyed_removeIdentifier
  keyed_with_index : keyed.

Ltac preserve :=
  repeat match goal with
    | |- preserves _ (ret _) => apply preserves_ret
    | |- preserves _ (throw _) => apply preserves_throw
    | |- preserves _ get => apply preserves_get
    | |- preserves _ (bind _ _) => apply preserves_bind; [|intros ?]
    | |- preserves _ (modify _) => apply preserves_modify; intros ? ?
    | |- preserves _ (getTypeIndex _) => apply preserves_modify; intros ? ?
    | |- preserves _ (if ?b then _ else _) => destruct b
    | |- preserves _ (match ?x with _ => _ end) => destruct x
    end.

(** ** [agreeing] is kept by the steps of resolve, create and forget *)

Lemma agreeing_same c c' :
  length (heap c) ≤ length (heap c') →
  (∀ a, a < length (heap c) → tok c' a = tok c a) →
  lids c' = lids c →
  (∀ ty, ko_lid (typeIndex c' ty) = ko_lid (typeIndex c ty)
         ∧ ko_id (typeIndex c' ty) = ko_id (typeIndex c ty)) →
  agreeing c → agreeing c'.
Proof.
  intros Hlen Htok Hlids Hidx (K & A & S). split; [|split].
  - revert K. apply keyed_shrink; auto.
    + intros a Ha. by rewrite Htok.
    + intros L a. by rewrite Hlids.
    + intros ty L a. by destruct (Hidx ty) as [-> _].
  - intros ty L a. destruct (Hidx ty) as [-> _]. rewrite Hlids. apply A.
  - intros ty k a. destruct (Hidx ty) as [-> ->]. intros Ha.
    destruct (S ty k a Ha) as [Hi Hl].
    destruct K as [_ K2]. destruct (K2 _ _ _ Hl) as (Hlt & _ & _).
    by rewrite Htok.
Qed.

Ltac by_sameness :=
  apply agreeing_same; intros; autorewrite with cache in *; auto; try lia.

Lemma agreeing_ensureIndex ty c : agreeing c → agreeing (ensureIndex ty c).
Proof. by_sameness. Qed.

Lemma agreeing_asked ty c : agreeing c → agreeing (asked ty c).
Proof. by_sameness. Qed.

Lemma agreeing_allocate t c : agreeing c → agreeing (allocate t c).
Proof.
  by_sameness.
  - rewrite length_app. lia.
  - by rewrite tok_allocate_old.
Qed.

Lemma agreeing_emit e c : agreeing c → agreeing (emit e c).
Proof. by_sameness. Qed.

Lemma agreeing_unmark r c : agreeing c → agreeing (unmarkStableIdentifier r c).
Proof. by_sameness. Qed.

Lemma agreeing_with_merge m c : agreeing c → agreeing (with_merge m c).
Proof. by_sameness. Qed.

Lemma agreeing_with_generated n c : agreeing c → agreeing (with_generated n c).
Proof. by_sameness. Qed.

Lemma agreeing_new g m : agreeing (mkCache [] ∅ ∅ ∅ g m 0 []).
Proof.
  split; [apply keyed_new|].
  split; intros ty *; unfold typeIndex; simpl; by rewrite lookup_empty.
Qed.

(** Registering an identifier of the primary table under its [id]. *)
Lemma agreeing_registerId ty L e c :
  ko_lid (typeIndex c ty) !! L = Some e →
  agreeing c → agreeing (registerId ty e c).
Proof.
  intros He (K & A & S). unfold registerId.
  destruct (tk_id (tok c e)) as [i|] eqn:Ei; [|done].
  split; [by apply keyed_with_index|]. split.
  - intros ty' L' a. rewrite typeIndex_with_index, with_index_lids.
    destruct (decide (ty = ty')) as [<-|]; [|apply A]. simpl. apply A.
  - intros ty' k a. rewrite typeIndex_with_index, tok_with_index.
    destruct (decide (ty = ty')) as [<-|]; [|apply S]. simpl.
    intros Ha. apply lookup_insert_Some in Ha as [[<- <-]|[_ Ha]]; [|by apply S].
    split; [done|].
    destruct K as [_ K2]. destruct (K2 _ _ _ He) as (_ & -> & _). done.
Qed.

(** Entering a new identifier whose [lid] the global table does not have. *)
Lemma agreeing_insertIdentifier ty L a c :
  a < length (heap c) → tk_lid (tok c a) = L → tk_type (tok c a) = ty →
  lids c !! L = None →
  agreeing c → agreeing (insertIdentifier ty L a c).
Proof.
  intros Ha Hl Ht Hfree (K & A & S).
  split; [by apply keyed_insertIdentifier|]. split.
  - intros ty' L' b. rewrite typeIndex_insertIdentifier, lids_insertIdentifier.
    destruct (decide (ty = ty')) as [<-|]; simpl.
    + intros Hb. apply lookup_insert_Some in Hb as [[<- <-]|[Hne Hb]].
      * by rewrite lookup_insert_eq.
      * rewrite lookup_insert_ne by done. by apply A in Hb.
    + intros Hb. apply A in Hb.
      rewrite lookup_insert_ne; [done|]. intros <-. congruence.
  - intros ty' k b. rewrite typeIndex_insertIdentifier, tok_insertIdentifier.
    destruct (decide (ty = ty')) as [<-|]; simpl; [|apply S].
    intros Hb. destruct (S _ _ _ Hb) as [Hi Hb']. split; [done|].
    rewrite lookup_insert_ne; [done|]. intros Heq. rewrite <- Heq in Hb'.
    apply A in Hb'. congruence.
Qed.

(** Taking a live identifier out of the tables. *)
Lemma agreeing_removeIdentifier a c :
  lids c !! tk_lid (tok c a) = Some a →
  agreeing c → agreeing (removeIdentifier a (tok c a) c).
Proof.
  intros Hlive (K & A & S).
  split; [by apply keyed_removeIdentifier|]. split.
  - intros ty L b. rewrite ko_lid_removeIdentifier, lids_removeIdentifier.
    destruct (decide (tk_type (tok c a) = ty)) as [<-|Hty].
    + intros Hb. apply lookup_delete_Some in Hb as [Hne Hb].
      rewrite lookup_delete_ne by done. by apply A in Hb.
    + intros Hb. destruct K as [_ K2]. destruct (K2 _ _ _ Hb) as (_ & Hl & Ht).
      apply A in Hb. rewrite lookup_delete_ne; [done|].
      intros <-. rewrite Hlive in Hb. congruence.
  - intros ty k b Hb.
    assert (ko_id (typeIndex c ty) !! k = Some b
            ∧ ¬ (tk_type (tok c a) = ty ∧ tk_id (tok c a) = Some k)) as [Hb0 Hnot].
    { revert Hb. unfold removeIdentifier.
      destruct (tk_id (tok c a)) as [i|]; rewrite !typeIndex_with_index,
        ?typeIndex_with_lids, ?typeIndex_with_index;
        destruct (decide (tk_type (tok c a) = ty)) as [<-|]; simpl;
        rewrite ?decide_True by done; simpl; intros Hb.
      - apply lookup_delete_Some in Hb as [Hne Hb]. split; [done|].
        intros [_ ?]. congruence.
      - split; [done|]. by intros [? _].
      - split; [done|]. by intros [_ ?].
      - split; [done|]. by intros [? _]. }
    rewrite tok_removeIdentifier, ko_lid_removeIdentifier.
    destruct (S _ _ _ Hb0) as [Hi Hl]. split; [done|].
    destruct (decide (tk_type (tok c a) = ty)) as [Hty|]; [|done].
    rewrite lookup_delete_ne; [done|]. intros Heq. rewrite <- Heq in Hl.
    apply A in Hl. rewrite Hlive in Hl. injection Hl as <-.
    apply Hnot. by split.
Qed.

(** ** Removal from the list of all identifiers *)

Lemma indexOf_None a l : indexOf a l = None → a ∉ l.
Proof.
  induction l as [|x l IH]; simpl; [intros _; apply not_elem_of_nil|].
  destruct (decide (x = a)); [done|].
  destruct (indexOf a l); [done|]. intros _.
  apply not_elem_of_cons. split; [done|]. by apply IH.
Qed.

Lemma filter_others (a : addr) (l : list addr) : a ∉ l → filter (λ x, x ≠ a) l = l.
Proof.
  induction l as [|x l IH]; intros Hn; [done|].
  apply not_elem_of_cons in Hn as [Hne Hn].
  rewrite filter_cons_True by done. by rewrite IH.
Qed.

(** On a list without repetition, splicing [a] out keeps all the others
    in their order. *)
Lemma spliceOut_filter a l :
  a ∈ l → NoDup l → spliceOut a l = filter (λ x, x ≠ a) l.
Proof.
  unfold spliceOut. induction l as [|x l IH]; intros Hin Hnd.
  - by apply elem_of_nil in Hin.
  - apply NoDup_cons in Hnd as [Hx Hnd]. simpl.
    destruct (decide (x = a)) as [->|Hne]; simpl.
    + rewrite filter_cons_False by (intros ?; done).
      by rewrite filter_others.
    + rewrite filter_cons_True by done.
      apply elem_of_cons in Hin as [->|Hin]; [done|].
      specialize (IH Hin Hnd).
      destruct (indexOf a l) as [i|] eqn:Ei; simpl.
      * by rewrite IH.
      * apply indexOf_None in Ei. done.
Qed.

Lemma ko_id_removeIdentifier a t c ty :
  ko_id (typeIndex (removeIdentifier a t c) ty)
  = if decide (tk_type t = ty)
    then match tk_id t with
         | Some i => delete i (ko_id (typeIndex c ty))
         | None => ko_id (typeIndex c ty)
         end
    else ko_id (typeIndex c ty).
Proof.
  unfold removeIdentifier.
  destruct (tk_id t); rewrite !typeIndex_with_index, ?typeIndex_with_lids,
    ?typeIndex_with_index.
  all: destruct (decide (tk_type t = ty)) as [<-|]; rewrite ?decide_True by done; done.
Qed.

Lemma allIdentifiers_removeIdentifier a t c :
  allIdentifiers (typeIndex (removeIdentifier a t c) (tk_type t))
  = spliceOut a (allIdentifiers (typeIndex c (tk_type t))).
Proof.
  unfold removeIdentifier.
  destruct (tk_id t); rewrite !typeIndex_with_index_eq, ?typeIndex_with_lids,
    ?typeIndex_with_index_eq; done.
Qed.

Lemma forgotten_lids a c : lids (forgotten a c) = delete (tk_lid (tok c a)) (lids c).
Proof.
  unfold forgotten, removeIdentifier. simpl.
  destruct (tk_id (tok c a)); simpl; by rewrite ensureIndex_lids.
Qed.

Lemma forgotten_heap a c : heap (forgotten a c) = heap c.
Proof.
  unfold forgotten, removeIdentifier. simpl.
  destruct (tk_id (tok c a)); simpl; by rewrite ensureIndex_heap.
Qed.

Lemma forgotten_tok a c b : tok (forgotten a c) b = tok c b.
Proof. unfold tok. by rewrite forgotten_heap. Qed.

Lemma forgotten_stable a c : stable (forgotten a c) = stable c ∖ {[a]}.
Proof.
  unfold forgotten, removeIdentifier. simpl.
  destruct (tk_id (tok c a)); simpl; by rewrite ensureIndex_stable.
Qed.

Lemma forgotten_trace a c : trace (forgotten a c) = trace c ++ [EvForget a].
Proof.
  unfold forgotten, removeIdentifier. simpl.
  destruct (tk_id (tok c a)); simpl; by rewrite ensureIndex_trace.
Qed.

Lemma forgotten_generate a c : _generate (forgotten a c) = _generate c.
Proof.
  unfold forgotten, removeIdentifier. simpl.
  destruct (tk_id (tok c a)); simpl; by rewrite ensureIndex_generate.
Qed.

Lemma forgotten_generated a c : generated (forgotten a c) = generated c.
Proof.
  unfold forgotten, removeIdentifier. simpl.
  destruct (tk_id (tok c a)); simpl; by rewrite ensureIndex_generated.
Qed.

Lemma forgotten_merge a c : _merge (forgotten a c) = _merge c.
Proof.
  unfold forgotten, removeIdentifier. simpl.
  destruct (tk_id (tok c a)); simpl; by rewrite ensureIndex_merge.
Qed.

Lemma forgotten_ko_lid a c ty :
  ko_lid (typeIndex (forgotten a c) ty)
  = if decide (tk_type (tok c a) = ty)
    then delete (tk_lid (tok c a)) (ko_lid (typeIndex c ty))
    else ko_lid (typeIndex c ty).
Proof.
  unfold forgotten. rewrite typeIndex_emit, typeIndex_unmark, ko_lid_removeIdentifier.
  by rewrite typeIndex_ensureIndex.
Qed.

Lemma forgotten_ko_id a c ty :
  ko_id (typeIndex (forgotten a c) ty)
  = if decide (tk_type (tok c a) = ty)
    then match tk_id (tok c a) with
         | Some i => delete i (ko_id (typeIndex c ty))
         | None => ko_id (typeIndex c ty)
         end
    else ko_id (typeIndex c ty).
Proof.
  unfold forgotten. rewrite typeIndex_emit, typeIndex_unmark, ko_id_removeIdentifier.
  by rewrite typeIndex_ensureIndex.
Qed.

Lemma forgotten_allIdentifiers a c :
  allIdentifiers (typeIndex (forgotten a c) (tk_type (tok c a)))
  = spliceOut a (allIdentifiers (typeIndex c (tk_type (tok c a)))).
Proof.
  unfold forgotten. rewrite typeIndex_emit, typeIndex_unmark, allIdentifiers_removeIdentifier.
  by rewrite typeIndex_ensureIndex.
Qed.

(** ** Global entries stay indexed, identifiers stay registered *)

Lemma indexed_same c c' :
  (∀ a, a < length (heap c) → tok c' a = tok c a) →
  lids c' = lids c →
  (∀ ty, ko_lid (typeIndex c' ty) = ko_lid (typeIndex c ty)) →
  keyed c → globalEntriesIndexed c → globalEntriesIndexed c'.
Proof.
  intros Htok Hlids Hidx [K1 _] G L a. rewrite Hlids. intros Ha.
  destruct (K1 _ _ Ha) as [Hlt _]. rewrite Htok by done. rewrite Hidx. by apply G.
Qed.

Lemma indexed_insertIdentifier ty L a c :
  tk_type (tok c a) = ty →
  globalEntriesIndexed c → globalEntriesIndexed (insertIdentifier ty L a c).
Proof.
  intros Ht G L' b.
  rewrite lids_insertIdentifier, tok_insertIdentifier, typeIndex_insertIdentifier.
  intros Hb. apply lookup_insert_Some in Hb as [[<- <-]|[Hne Hb]].
  - rewrite Ht, decide_True by done. simpl. apply lookup_insert_eq.
  - apply G in Hb. destruct (decide (ty = tk_type (tok c b))) as [->|]; [|done].
    simpl. by rewrite lookup_insert_ne.
Qed.

Lemma indexed_removeIdentifier x c :
  globalEntriesIndexed c → globalEntriesIndexed (removeIdentifier x (tok c x) c).
Proof.
  intros G L b. rewrite lids_removeIdentifier, tok_removeIdentifier, ko_lid_removeIdentifier.
  intros Hb. apply lookup_delete_Some in Hb as [Hne Hb]. apply G in Hb.
  destruct (decide _); [|done]. by rewrite lookup_delete_ne.
Qed.

Lemma registered_same c c' :
  (∀ a, a < length (heap c) → tok c' a = tok c a) →
  (∀ ty, typeIndex c' ty = typeIndex c ty) →
  keyed c → registeredById c → registeredById c'.
Proof.
  intros Htok Hidx [_ K2] J ty L e i. rewrite Hidx. intros He.
  destruct (K2 _ _ _ He) as (Hlt & _). rewrite Htok by done. apply (J _ _ _ _ He).
Qed.

Lemma registered_insert_keyless ty L a c :
  tk_id (tok c a) = None →
  registeredById c → registeredById (insertIdentifier ty L a c).
Proof.
  intros Hid J ty' L' e i. rewrite typeIndex_insertIdentifier, tok_insertIdentifier.
  destruct (decide (ty = ty')) as [<-|]; [|apply J]. simpl.
  intros He Hi. apply lookup_insert_Some in He as [[<- <-]|[_ He]]; [congruence|].
  by apply (J _ _ _ _ He).
Qed.

Lemma registered_removeIdentifier x c :
  ko_lid (typeIndex c (tk_type (tok c x))) !! tk_lid (tok c x) = Some x →
  keyed c → registeredById c → registeredById (removeIdentifier x (tok c x) c).
Proof.
  intros Hx [_ K2] J ty L e i.
  rewrite ko_lid_removeIdentifier, ko_id_removeIdentifier, tok_removeIdentifier.
  destruct (decide (tk_type (tok c x) = ty)) as [<-|]; [|apply J].
  intros He Hi. apply lookup_delete_Some in He as [Hne He].
  pose proof (J _ _ _ _ He Hi) as Hreg.
  destruct (tk_id (tok c x)) as [j|] eqn:Ej; [|done].
  rewrite lookup_delete_ne; [done|]. intros <-.
  pose proof (J _ _ _ _ Hx Ej) as Hregx.
  assert (e = x) as -> by congruence.
  destruct (K2 _ _ _ He) as (_ & Hl & _). congruence.
Qed.

Section Properties.

Context `{Env}.

(** Every call of [_getRecordIdentifier] ends in one of the ways listed by
    [resolved]. *)
Lemma resolve_spec r sg c :
  resolved r sg c (_getRecordIdentifier r sg c).1 (_getRecordIdentifier r sg c).2.
Proof.
  unfold _getRecordIdentifier, createAndIndex.
  unfold bind, get, ret, throw, modify, getTypeIndex, makeStableRecordIdentifier, generate.
  cbn beta iota.
  destruct (isStableIdentifier c r) eqn:Hst.
  { destruct r as [a|d]; [|done]. simpl in Hst. apply bool_decide_eq_true in Hst.
    destruct DEBUG eqn:HD; simpl.
    - case_bool_decide as Hl; simpl.
      + eapply Res_stable; eauto.
      + eapply Res_not_in_store; eauto.
    - eapply Res_stable; eauto. congruence. }
  set (d := data_of c r).
  destruct (coerceId (r_lid d) ≫= (λ l, lids c !! l)) as [a|] eqn:Hl.
  { simpl.
    assert (∃ l, coerceId (r_lid d) = Some l ∧ lids c !! l = Some a) as (l & El & Hl').
    { destruct (coerceId (r_lid d)) as [l|]; [|done]. by exists l. }
    eapply Res_lids; eauto. }
  assert (Hlu : lidUnknown c d) by exact Hl.
  destruct (negb sg && negb (truthy (r_type d) && truthy (r_id d))) eqn:Hab.
  { simpl. apply andb_true_iff in Hab as [Hsg Ht]. apply negb_true_iff in Hsg, Ht.
    eapply Res_absent; eauto. }
  destruct (isNonEmptyString (r_type d)) eqn:Hty; simpl.
  2: { eapply Res_assert; eauto. }
  rewrite !typeIndex_ensureIndex.
  set (ty := normalizeModelName (str_of (r_type d))).
  destruct (indexLookup (typeIndex c ty) (coerceId (r_lid d)) (coerceId (r_id d)))
    as [a|] eqn:Hix; simpl.
  { eapply Res_indexed; eauto. }
  rewrite ensureIndex_generate, ensureIndex_generated.
  set (newLid := _generate c d (generated c)).
  fold (asked ty c).
  destruct (bool_decide (is_Some (coerceId (r_lid d)))
            && negb (bool_decide (coerceId (r_lid d) = Some newLid))) eqn:Hch; simpl.
  { apply andb_true_iff in Hch as [H1 H2].
    apply bool_decide_eq_true in H1 as [l El].
    apply negb_true_iff, bool_decide_eq_false in H2.
    eapply (Res_lid_changed _ _ _ ty l); eauto.
    intros Heq. apply H2. rewrite El. by rewrite Heq. }
  assert (∀ l, coerceId (r_lid d) = Some l → l = newLid) as Hsame.
  { intros l El. rewrite El in Hch. simpl in Hch.
    apply negb_false_iff, bool_decide_eq_true in Hch. congruence. }
  destruct sg; simpl.
  2: { eapply Res_peek_generated; eauto. }
  destruct (generatedLookup (typeIndex c ty) (coerceId (r_lid d)) newLid) as [e|] eqn:Hg; simpl.
  { assert (coerceId (r_lid d) = None
            ∧ ko_lid (typeIndex c ty) !! newLid = Some e) as [El Hg'].
    { unfold generatedLookup in Hg. by destruct (coerceId (r_lid d)). }
    eapply Res_generated_hit; eauto. }
  rewrite ensureIndex_lids, ensureIndex_heap.
  destruct DEBUG eqn:HD; simpl.
  - destruct (bool_decide (is_Some (lids c !! newLid))) eqn:Hin; simpl.
    + apply bool_decide_eq_true in Hin. eapply Res_type_changed; eauto.
    + apply bool_decide_eq_false in Hin.
      eapply (Res_created _ _ _ ty newLid); eauto.
      intros _. destruct (lids c !! newLid) eqn:E; [|done]. exfalso. apply Hin. eauto.
  - eapply (Res_created _ _ _ ty newLid); eauto. congruence.
Qed.

(** ** The local-key tables stay keyed under every operation *)

Lemma keyed_resolve r sg : preserves keyed (_getRecordIdentifier r sg).
Proof.
  intros c Hc. unfold after.
  destruct (resolve_spec r sg c); eauto with keyed.
  apply keyed_registerId, keyed_insertIdentifier; autorewrite with cache; eauto with keyed.
  rewrite length_app. simpl. lia.
Qed.

Lemma tok_allocate_bumped t n c :
  tok (allocate t (with_generated n c)) (length (heap c)) = t.
Proof. apply (tok_allocate_new t (with_generated n c)). Qed.

Lemma keyed_getOrCreate r : preserves keyed (getOrCreateRecordIdentifier r).
Proof. unfold getOrCreateRecordIdentifier. preserve. apply keyed_resolve. Qed.

Lemma keyed_peek r : preserves keyed (peekRecordIdentifier r).
Proof. apply keyed_resolve. Qed.

Lemma keyed_createForNew d : preserves keyed (createIdentifierForNewRecord d).
Proof.
  intros c Hc. unfold after, createIdentifierForNewRecord.
  unfold bind, generate, makeStableRecordIdentifier, getTypeIndex, modify, get, throw, ret.
  simpl.
  set (t := mkToken _ _ _ _).
  destruct (DEBUG && _); simpl; eauto with keyed.
  apply keyed_insertIdentifier; autorewrite with cache; eauto with keyed.
  - rewrite length_app. simpl. lia.
  - by rewrite tok_allocate_bumped.
  - by rewrite tok_allocate_bumped.
Qed.

Lemma keyed_createForNew_throw t ty n c :
  keyed c → keyed (ensureIndex ty (allocate t (with_generated n c))).
Proof. intros K. apply keyed_ensureIndex, keyed_allocate. by apply keyed_shrink with c. Qed.

Lemma keyed_forget r : preserves keyed (forgetRecordIdentifier r).
Proof.
  unfold forgetRecordIdentifier, getTypeIndex. preserve; eauto with keyed.
  apply keyed_getOrCreate.
Qed.

Lemma keyed_detectMerge a d i : preserves keyed (detectMerge a d i).
Proof. unfold detectMerge, getTypeIndex. preserve; eauto with keyed. Qed.

Lemma keyed_perform a d : preserves keyed (performRecordIdentifierUpdate a d).
Proof. unfold performRecordIdentifierUpdate. preserve; eauto with keyed. Qed.

Lemma keyed_merge ty a e d i : preserves keyed (_mergeRecordIdentifiers ty a e d i).
Proof.
  unfold _mergeRecordIdentifiers, getTypeIndex. preserve; eauto with keyed.
  apply keyed_forget.
Qed.

Lemma keyed_update r d : preserves keyed (updateRecordIdentifier r d).
Proof.
  unfold updateRecordIdentifier, getTypeIndex.
  preserve; eauto using keyed_getOrCreate, keyed_detectMerge, keyed_merge, keyed_perform
    with keyed.
Qed.

Lemma keyed_exec c o : keyed c → keyed (exec c o).
Proof.
  destruct o; simpl.
  - apply keyed_getOrCreate.
  - apply keyed_peek.
  - apply keyed_createForNew.
  - apply keyed_update.
  - apply keyed_forget.
  - unfold __configureMerge. intros ?. by apply keyed_with_merge.
Qed.

Lemma keyed_run ops c : keyed c → keyed (run ops c).
Proof.
  revert c. induction ops as [|o ops IH]; intros c Hc; [done|].
  simpl. apply IH. by apply keyed_exec.
Qed.

(** ** In a DEBUG build the two local-key tables agree as long as no
    update is made *)

Lemma indexLookup_Some ko lid id a :
  indexLookup ko lid id = Some a →
  (∃ l, lid = Some l ∧ ko_lid ko !! l = Some a)
  ∨ (∃ i, id = Some i ∧ ko_id ko !! i = Some a).
Proof.
  unfold indexLookup. destruct lid as [l|]; simpl.
  - destruct (ko_lid ko !! l) as [b|] eqn:E.
    + intros [= <-]. left. eauto.
    + destruct id as [i|]; [|done]. intros Hi. right. eauto.
  - destruct id as [i|]; [|done]. intros Hi. right. eauto.
Qed.

Lemma generatedLookup_Some ko lid newLid a :
  generatedLookup ko lid newLid = Some a → lid = None ∧ ko_lid ko !! newLid = Some a.
Proof. unfold generatedLookup. by destruct lid. Qed.

(** What [_getRecordIdentifier] returns owns its [lid] in the global
    table. *)
Lemma agreeing_resolve r sg c :
  DEBUG = true → agreeing c →
  agreeing (_getRecordIdentifier r sg c).2
  ∧ ∀ a, (_getRecordIdentifier r sg c).1 = Return (Some a) →
         lids (_getRecordIdentifier r sg c).2
           !! tk_lid (tok (_getRecordIdentifier r sg c).2 a) = Some a.
Proof.
  intros HD Hc. pose proof Hc as (K & A & S). destruct K as [K1 K2].
  destruct (resolve_spec r sg c) as
    [a ? ? Hl|a|l a ? ? Hl| | |ty a ? ? ? Hix|ty l|ty ? ? ? ? Hix|ty e ? ? ? ? ? ? He
    |ty newLid|ty newLid ? ? ? ? ? ? ? ? ? Hfree].
  - split; [done|]. intros ? [= <-]. auto.
  - split; [done|]. by intros ?.
  - split; [done|]. intros ? [= <-]. by destruct (K1 _ _ Hl) as [_ ->].
  - split; [done|]. by intros ?.
  - split; [done|]. by intros ?.
  - split; [by apply agreeing_ensureIndex|]. intros ? [= <-].
    autorewrite with cache.
    apply indexLookup_Some in Hix as [(l & _ & Hl)|(i & _ & Hi)].
    + destruct (K2 _ _ _ Hl) as (_ & -> & _). by apply A in Hl.
    + destruct (S _ _ _ Hi) as [_ Hl]. by apply A in Hl.
  - split; [by apply agreeing_asked|]. by intros ?.
  - split; [by apply agreeing_asked|]. intros a Ha. injection Ha as Ha.
    apply generatedLookup_Some in Ha as [_ Hl]. autorewrite with cache.
    destruct (K2 _ _ _ Hl) as (_ & -> & _). by apply A in Hl.
  - split.
    + eapply agreeing_registerId; [|by apply agreeing_asked].
      autorewrite with cache. exact He.
    + intros ? [= <-]. unfold registerId.
      destruct (tk_id _); autorewrite with cache;
        destruct (K2 _ _ _ He) as (_ & -> & _); by apply A in He.
  - split; [by apply agreeing_allocate, agreeing_asked|]. by intros ?.
  - assert (agreeing
              (insertIdentifier ty newLid (length (heap c))
                 (allocate (mkToken newLid (coerceId (r_id (data_of c r))) ty false)
                    (asked ty c)))) as Hins.
    { apply agreeing_insertIdentifier; autorewrite with cache; auto.
      - rewrite length_app. simpl. lia.
      - by apply agreeing_allocate, agreeing_asked. }
    split.
    + eapply (agreeing_registerId _ newLid); [|done].
      rewrite typeIndex_insertIdentifier, decide_True by done. simpl.
      by rewrite lookup_insert_eq.
    + intros ? [= <-]. unfold registerId.
      destruct (tk_id _); autorewrite with cache;
        rewrite ?lids_insertIdentifier, ?tok_insertIdentifier; autorewrite with cache;
        simpl; by rewrite lookup_insert_eq.
Qed.

Lemma agreeing_getOrCreate r c :
  DEBUG = true → agreeing c →
  match getOrCreateRecordIdentifier r c with
  | (Return a, c') => agreeing c' ∧ lids c' !! tk_lid (tok c' a) = Some a
  | (Throw _, c') => agreeing c'
  end.
Proof.
  intros HD Hc. destruct (agreeing_resolve r true c HD Hc) as [Hc' Hlive].
  unfold getOrCreateRecordIdentifier, bind, ret, throw.
  destruct (_getRecordIdentifier r true c) as [[[a|]|e] c']; simpl in *; auto.
Qed.

Lemma agreeing_createForNew d c :
  DEBUG = true → agreeing c → agreeing (after (createIdentifierForNewRecord d) c).
Proof.
  intros HD Hc. unfold after, createIdentifierForNewRecord.
  unfold bind, generate, makeStableRecordIdentifier, getTypeIndex, modify, get, throw, ret.
  simpl. rewrite HD. simpl.
  set (t := mkToken _ _ _ _).
  assert (agreeing (ensureIndex (n_type d) (allocate t (with_generated (S (generated c)) c))))
    as Hc' by by apply agreeing_ensureIndex, agreeing_allocate, agreeing_with_generated.
  destruct (bool_decide _) eqn:Hin; simpl; [done|].
  apply bool_decide_eq_false in Hin.
  apply agreeing_insertIdentifier; autorewrite with cache; auto.
  - rewrite length_app. simpl. lia.
  - by rewrite tok_allocate_bumped.
  - by rewrite tok_allocate_bumped.
  - apply eq_None_not_Some. intros HS. apply Hin. by rewrite ensureIndex_lids.
Qed.

Lemma agreeing_forget r c :
  DEBUG = true → agreeing c → agreeing (after (forgetRecordIdentifier r) c).
Proof.
  intros HD Hc. unfold forgetRecordIdentifier.
  apply (after_bind_post agreeing (λ a c', lids c' !! tk_lid (tok c' a) = Some a)); [done|..].
  - by apply agreeing_getOrCreate.
  - intros a c' Hc' Hlive. unfold after, bind, get, getTypeIndex, modify. simpl.
    apply agreeing_emit, agreeing_unmark.
    set (X := ensureIndex (tk_type (tok c' a)) c').
    replace (removeIdentifier a (tok c' a) X) with (removeIdentifier a (tok X a) X)
      by (unfold X; by rewrite tok_ensureIndex).
    apply agreeing_removeIdentifier; [|by apply agreeing_ensureIndex].
    unfold X. by autorewrite with cache.
Qed.

Lemma agreeing_exec c o :
  DEBUG = true → isUpdate o = false → agreeing c → agreeing (exec c o).
Proof.
  intros HD Ho Hc. destruct o; simpl; try done.
  - unfold after. pose proof (agreeing_getOrCreate r c HD Hc) as Hr.
    destruct (getOrCreateRecordIdentifier r c) as [[a|e] c']; simpl; tauto.
  - unfold after, peekRecordIdentifier. by apply agreeing_resolve.
  - by apply agreeing_createForNew.
  - by apply agreeing_forget.
Qed.

Lemma agreeing_run ops c :
  DEBUG = true → forallb (λ o, negb (isUpdate o)) ops = true →
  agreeing c → agreeing (run ops c).
Proof.
  intros HD. revert c. induction ops as [|o ops IH]; intros c Hops Hc; [done|].
  simpl in *. apply andb_true_iff in Hops as [Ho Hops].
  apply IH; [done|]. apply agreeing_exec; [done| |done]. by apply negb_true_iff.
Qed.

(** ** Resolution never rebinds an external key *)

Lemma indexLookup_None_id ko lid i :
  indexLookup ko lid (Some i) = None → ko_id ko !! i = None.
Proof. unfold indexLookup. by destruct lid as [l|]; simpl; [destruct (ko_lid ko !! l)|]. Qed.

Lemma registerId_same ty L e c :
  registeredById c → ko_lid (typeIndex c ty) !! L = Some e →
  ∀ ty', ko_id (typeIndex (registerId ty e c) ty') = ko_id (typeIndex c ty').
Proof.
  intros J He ty'. unfold registerId. destruct (tk_id (tok c e)) as [i|] eqn:Ei; [|done].
  rewrite typeIndex_with_index. destruct (decide (ty = ty')) as [<-|]; [|done]. simpl.
  apply insert_id. by apply (J _ _ _ _ He).
Qed.

(** [_getRecordIdentifier] keeps every identifier with an [id] registered
    under it, and leaves the entries of the secondary tables as they are. *)
Lemma registered_resolve r sg c :
  keyed c → registeredById c →
  registeredById (_getRecordIdentifier r sg c).2
  ∧ ∀ ty k a, ko_id (typeIndex c ty) !! k = Some a →
              ko_id (typeIndex (_getRecordIdentifier r sg c).2 ty) !! k = Some a.
Proof.
  intros K J. pose proof K as [K1 K2].
  assert (∀ c', length (heap c) ≤ length (heap c') →
            (∀ a, a < length (heap c) → tok c' a = tok c a) →
            (∀ ty, typeIndex c' ty = typeIndex c ty) →
            registeredById c'
            ∧ ∀ ty k a, ko_id (typeIndex c ty) !! k = Some a →
                        ko_id (typeIndex c' ty) !! k = Some a) as Hsame.
  { intros c' Hlen Htok Hidx. split.
    - intros ty L e i. rewrite Hidx. intros He.
      destruct (K2 _ _ _ He) as (Hlt & _). rewrite Htok by done.
      apply (J _ _ _ _ He).
    - intros ty k a. by rewrite Hidx. }
  destruct (resolve_spec r sg c) as
    [a ? ? Hl|a|l a ? ? Hl| | |ty a ? ? ? Hix|ty l|ty ? ? ? ? Hix|ty e ? ? ? ? ? ? He
    |ty newLid|ty newLid ? ? ? ? ? ? Hix Hlid Hgen Hfree]; try (apply Hsame; by auto).
  - apply Hsame; intros; by autorewrite with cache.
  - apply Hsame; intros; by autorewrite with cache.
  - apply Hsame; intros; by autorewrite with cache.
  - destruct (Hsame (asked ty c)) as [J' Hkeep]; try (intros; by autorewrite with cache).
    assert (ko_lid (typeIndex (asked ty c) ty) !! _generate c (data_of c r) (generated c)
            = Some e) as He' by by autorewrite with cache.
    split.
    + intros ty' L e' i. unfold registerId.
      destruct (tk_id (tok (asked ty c) e)) as [j|] eqn:Ej; [|apply J'].
      rewrite tok_with_index, typeIndex_with_index.
      destruct (decide (ty = ty')) as [<-|]; [|apply J']. simpl.
      intros Hl Hi. rewrite insert_id; [by apply (J' _ _ _ _ Hl)|].
      by apply (J' _ _ _ _ He').
    + intros ty' k a Ha. rewrite (registerId_same _ _ _ _ J' He'). by apply Hkeep.
  - apply Hsame; intros; autorewrite with cache; auto.
    + rewrite length_app. lia.
    + rewrite tok_allocate_old; by autorewrite with cache.
  - set (t := mkToken newLid (coerceId (r_id (data_of c r))) ty false).
    set (c1 := insertIdentifier ty newLid (length (heap c)) (allocate t (asked ty c))).
    assert (ko_lid (typeIndex c ty) !! newLid = None) as Hnone.
    { destruct (coerceId (r_lid (data_of c r))) as [l|] eqn:El.
      - rewrite <- (Hlid l eq_refl). unfold indexLookup in Hix. simpl in Hix.
        by destruct (ko_lid (typeIndex c ty) !! l).
      - done. }
    assert (∀ b, b < length (heap c) → tok c1 b = tok c b) as Htok.
    { intros b Hb. unfold c1. rewrite tok_insertIdentifier, tok_allocate_old;
        by autorewrite with cache. }
    assert (tok c1 (length (heap c)) = t) as Hnew.
    { unfold c1. by rewrite tok_insertIdentifier, tok_allocate_asked. }
    assert (∀ ty', ko_id (typeIndex c1 ty') = ko_id (typeIndex c ty')) as Hid.
    { intros ty'. unfold c1. rewrite typeIndex_insertIdentifier.
      destruct (decide (ty = ty')) as [<-|]; by autorewrite with cache. }
    assert (∀ ty' L e, ko_lid (typeIndex c1 ty') !! L = Some e →
              (ty' = ty ∧ L = newLid ∧ e = length (heap c))
              ∨ (ko_lid (typeIndex c ty') !! L = Some e)) as Hlidtab.
    { intros ty' L e. unfold c1. rewrite typeIndex_insertIdentifier.
      destruct (decide (ty = ty')) as [<-|]; autorewrite with cache; [|auto]. simpl.
      intros He. apply lookup_insert_Some in He as [[<- <-]|[_ He]]; auto. }
    unfold registerId. rewrite Hnew. simpl.
    destruct (coerceId (r_id (data_of c r))) as [i|] eqn:Ei.
    + apply indexLookup_None_id in Hix. split.
      * intros ty' L e j. rewrite tok_with_index, typeIndex_with_index.
        destruct (decide (ty = ty')) as [<-|]; simpl.
        -- intros He Hj. apply Hlidtab in He as [(_ & _ & ->)|He].
           ++ rewrite Hnew in Hj. simpl in Hj. injection Hj as <-.
              by rewrite lookup_insert_eq.
           ++ destruct (K2 _ _ _ He) as (Hlt & _). rewrite Htok in Hj by done.
              pose proof (J _ _ _ _ He Hj) as Hreg.
              rewrite lookup_insert_ne; [by rewrite Hid|]. intros <-. congruence.
        -- intros He Hj. apply Hlidtab in He as [(? & _)|He]; [done|].
           destruct (K2 _ _ _ He) as (Hlt & _). rewrite Htok in Hj by done.
           rewrite Hid. by apply (J _ _ _ _ He).
      * intros ty' k a Ha. rewrite typeIndex_with_index.
        destruct (decide (ty = ty')) as [<-|]; simpl; [|by rewrite Hid].
        rewrite lookup_insert_ne; [by rewrite Hid|]. intros <-. congruence.
    + split.
      * intros ty' L e j He Hj. rewrite Hid.
        apply Hlidtab in He as [(_ & _ & ->)|He].
        -- rewrite Hnew in Hj. done.
        -- destruct (K2 _ _ _ He) as (Hlt & _). rewrite Htok in Hj by done.
           by apply (J _ _ _ _ He).
      * intros ty' k a Ha. by rewrite Hid.
Qed.

Lemma getOrCreate_after r c :
  after (getOrCreateRecordIdentifier r) c = (_getRecordIdentifier r true c).2.
Proof.
  unfold after, getOrCreateRecordIdentifier, bind, ret, throw.
  by destruct (_getRecordIdentifier r true c) as [[[a|]|e] c'].
Qed.

Lemma getOrCreate_Return r c a :
  (getOrCreateRecordIdentifier r c).1 = Return a →
  (_getRecordIdentifier r true c).1 = Return (Some a).
Proof.
  unfold getOrCreateRecordIdentifier, bind, ret, throw.
  destruct (_getRecordIdentifier r true c) as [[[b|]|e] c']; simpl; congruence.
Qed.

Lemma registered_exec c o :
  isResolve o = true → keyed c → registeredById c →
  registeredById (exec c o)
  ∧ ∀ ty k a, ko_id (typeIndex c ty) !! k = Some a →
              ko_id (typeIndex (exec c o) ty) !! k = Some a.
Proof.
  intros Ho K J. destruct o; try done; simpl.
  - rewrite getOrCreate_after. by apply registered_resolve.
  - by apply registered_resolve.
Qed.

Lemma registered_run ops c :
  forallb isResolve ops = true → keyed c → registeredById c →
  registeredById (run ops c)
  ∧ ∀ ty k a, ko_id (typeIndex c ty) !! k = Some a →
              ko_id (typeIndex (run ops c) ty) !! k = Some a.
Proof.
  revert c. induction ops as [|o ops IH]; intros c Hops K J; [done|].
  simpl in *. apply andb_true_iff in Hops as [Ho Hops].
  destruct (registered_exec c o Ho K J) as [J' Hkeep].
  destruct (IH (exec c o) Hops (keyed_exec _ _ K) J') as [J'' Hkeep'].
  split; [done|]. intros ty k a Ha. by apply Hkeep', Hkeep.
Qed.

Lemma registered_new g : registeredById (newIdentifierCache g).
Proof. intros ty L e i. unfold typeIndex. simpl. by rewrite lookup_empty. Qed.

(** Data that carries a type and an external key, and no [lid], resolves
    to the entry of the secondary table for that key. *)
Lemma getOrCreate_by_id c ty k a :
  ty ≠ "" → k ≠ "" →
  ko_id (typeIndex c (normalizeModelName ty)) !! k = Some a →
  getOrCreateRecordIdentifier (RefData (mkData (Str ty) (Str k) Absent)) c
  = (Return a, ensureIndex (normalizeModelName ty) c).
Proof.
  intros Hty Hk Ha.
  unfold getOrCreateRecordIdentifier, _getRecordIdentifier.
  unfold bind, get, ret, throw, modify, getTypeIndex. simpl.
  rewrite !bool_decide_false by done. simpl.
  rewrite typeIndex_ensureIndex. unfold indexLookup. simpl.
  rewrite decide_False by done. by rewrite Ha.
Qed.

(** A resolution by type and external key that returns an identifier
    with that key leaves it registered under the key. *)
Lemma getOrCreate_registers c ty k a :
  k ≠ "" →
  (getOrCreateRecordIdentifier (RefData (mkData (Str ty) (Str k) Absent)) c).1 = Return a →
  tk_id (tok (after (getOrCreateRecordIdentifier (RefData (mkData (Str ty) (Str k) Absent))) c) a)
    = Some k →
  ty ≠ ""
  ∧ ko_id (typeIndex (after (getOrCreateRecordIdentifier
                               (RefData (mkData (Str ty) (Str k) Absent))) c)
                     (normalizeModelName ty)) !! k = Some a.
Proof.
  intros Hk Hret. apply getOrCreate_Return in Hret. rewrite getOrCreate_after.
  set (r := RefData (mkData (Str ty) (Str k) Absent)) in *.
  assert (coerceId (r_id (data_of c r)) = Some k) as Eid.
  { simpl. by rewrite decide_False. }
  destruct (resolve_spec r true c) as
    [a' ? ? Hl|a'|l a' ? El Hl| | |ty' a' ? ? Ety Hix|ty' l|ty' ? ? ? ? Hix
    |ty' e ? ? ? Ety ? ? He|ty' newLid
    |ty' newLid ? ? ? Hne Ety ? Hix Hlid Hgen Hfree]; try done.
  - injection Hret as <-. intros _. rewrite typeIndex_ensureIndex.
    simpl in Ety. subst ty'. rewrite Eid in Hix. unfold indexLookup in Hix. simpl in Hix.
    split; [|done]. by intros ->.
  - injection Hret as <-. simpl in Ety. subst ty'. intros Hi.
    split.
    + by intros ->.
    + unfold registerId in *. destruct (tk_id (tok (asked _ c) e)) as [i|] eqn:Ei.
      * rewrite tok_with_index, Ei in Hi. injection Hi as ->.
        rewrite typeIndex_with_index_eq. simpl. by rewrite lookup_insert_eq.
      * by rewrite Ei in Hi.
  - injection Hret as <-. simpl in Ety. subst ty'. intros _.
    split.
    + by intros ->.
    + unfold registerId. rewrite tok_insertIdentifier, tok_allocate_asked. simpl.
      rewrite decide_False by done.
      rewrite typeIndex_with_index_eq. simpl. by rewrite lookup_insert_eq.
Qed.

(** ** What the permitted calls keep *)

Lemma indexed_resolve r sg c :
  keyed c → globalEntriesIndexed c → globalEntriesIndexed (_getRecordIdentifier r sg c).2.
Proof.
  intros K G.
  assert (globalEntriesIndexed (asked (normalizeModelName (str_of (r_type (data_of c r)))) c))
    as Gasked.
  { revert G. apply indexed_same; intros; by autorewrite with cache. }
  assert (∀ ty e c', globalEntriesIndexed c' → globalEntriesIndexed (registerId ty e c'))
    as Greg.
  { intros ty e c' G'. unfold registerId. destruct (tk_id _); [|done].
    intros L a. rewrite with_index_lids, tok_with_index, typeIndex_with_index.
    intros Ha. apply G' in Ha. by destruct (decide _) as [->|]. }
  destruct (resolve_spec r sg c) as
    [a ? ? Hl|a|l a ? ? Hl| | |ty a ? ? ? Hix|ty l|ty ? ? ? ? Hix|ty e ? ? ? ? ? ? He
    |ty newLid|ty newLid]; try done; subst ty.
  - revert G. apply indexed_same; intros; by autorewrite with cache.
  - done.
  - done.
  - by apply Greg.
  - revert G. apply indexed_same; intros; autorewrite with cache; try done.
    rewrite tok_allocate_old; by autorewrite with cache.
  - apply Greg. apply indexed_insertIdentifier; [by rewrite tok_allocate_asked|].
    revert G. apply indexed_same; intros; autorewrite with cache; try done.
    rewrite tok_allocate_old; by autorewrite with cache.
Qed.

Lemma coherent_resolve r sg c :
  coherent c →
  coherent (_getRecordIdentifier r sg c).2
  ∧ ∀ ty k a, ko_id (typeIndex c ty) !! k = Some a →
              ko_id (typeIndex (_getRecordIdentifier r sg c).2 ty) !! k = Some a.
Proof.
  intros (K & J & HD). destruct (registered_resolve r sg c K J) as [J' Hkeep].
  split; [|done]. split; [by apply keyed_resolve|]. split; [done|].
  intros Hdebug. destruct (HD Hdebug) as (A & S & G).
  destruct (agreeing_resolve r sg c Hdebug) as [(_ & A' & S') _]; [done|].
  split; [done|]. split; [done|]. by apply indexed_resolve.
Qed.

Lemma createForNew_after d c :
  after (createIdentifierForNewRecord d) c = created d c
  ∨ (DEBUG = true
     ∧ after (createIdentifierForNewRecord d) c
       = ensureIndex (n_type d)
           (allocate (mkToken (_generate c (mkData (Str (n_type d)) (n_id d) Absent)
                                 (generated c))
                              (coerceId (n_id d)) (n_type d) true)
              (with_generated (S (generated c)) c))).
Proof.
  unfold after, createIdentifierForNewRecord.
  unfold bind, generate, makeStableRecordIdentifier, getTypeIndex, modify, get, throw, ret.
  cbn beta iota.
  destruct DEBUG; cbn [andb]; [|by left].
  destruct (bool_decide _); [right|left]; done.
Qed.

Lemma coherent_createForNew d c :
  coerceId (n_id d) = None → coherent c →
  coherent (after (createIdentifierForNewRecord d) c)
  ∧ ∀ ty, ko_id (typeIndex (after (createIdentifierForNewRecord d) c) ty)
          = ko_id (typeIndex c ty).
Proof.
  intros Hid (K & J & HD).
  set (t := mkToken (_generate c (mkData (Str (n_type d)) (n_id d) Absent) (generated c))
                    (coerceId (n_id d)) (n_type d) true).
  set (c1 := ensureIndex (n_type d) (allocate t (with_generated (S (generated c)) c))).
  assert (∀ a, a < length (heap c) → tok c1 a = tok c a) as Htok.
  { intros a Ha. unfold c1. by rewrite tok_ensureIndex, tok_allocate_old. }
  assert (∀ ty, typeIndex c1 ty = typeIndex c ty) as Hidx.
  { intros ty. unfold c1. by rewrite typeIndex_ensureIndex. }
  assert (tok c1 (length (heap c)) = t) as Hnew.
  { unfold c1. rewrite tok_ensureIndex. apply tok_allocate_bumped. }
  assert (registeredById c1) as J1 by by apply (registered_same c).
  assert (globalEntriesIndexed c → globalEntriesIndexed c1) as G1.
  { apply indexed_same; [done| | |done].
    - unfold c1. by autorewrite with cache.
    - intros ty. by rewrite Hidx. }
  assert (coherent c1 ∧ ∀ ty, ko_id (typeIndex c1 ty) = ko_id (typeIndex c ty)) as Hc1.
  { split; [|intros ty; by rewrite Hidx]. split; [|split; [done|]].
    - by apply keyed_createForNew_throw.
    - intros Hdebug. destruct (HD Hdebug) as (A & S & G).
      assert (agreeing c1) as (_ & A1 & S1).
      { unfold c1. apply agreeing_ensureIndex, agreeing_allocate, agreeing_with_generated.
        exact (conj K (conj A S)). }
      split; [done|]. split; [done|]. by apply G1. }
  destruct (createForNew_after d c) as [Hok|[Hdebug Hthrow]].
  2: { fold t in Hthrow. fold c1 in Hthrow. by rewrite Hthrow. }
  rewrite Hok. unfold created. fold t c1.
  split.
  - split; [|split].
    + pose proof (keyed_createForNew d c K) as K'. by rewrite Hok in K'.
    + apply registered_insert_keyless; [|done]. rewrite Hnew. simpl. exact Hid.
    + intros Hdebug. destruct (HD Hdebug) as (A & S & G).
      pose proof (agreeing_createForNew d c Hdebug (conj K (conj A S))) as (_ & A' & S').
      rewrite Hok in A', S'. unfold created in A', S'. fold t c1 in A', S'.
      split; [done|]. split; [done|].
      apply indexed_insertIdentifier; [by rewrite Hnew|]. by apply G1.
  - intros ty. rewrite typeIndex_insertIdentifier.
    destruct (decide (n_type d = ty)) as [<-|]; simpl; by rewrite Hidx.
Qed.

Lemma coherent_forget r c :
  DEBUG = true → coherent c →
  coherent (after (forgetRecordIdentifier r) c)
  ∧ ∀ ty k a, ko_id (typeIndex c ty) !! k = Some a →
              (getOrCreateRecordIdentifier r c).1 ≠ Return a →
              ko_id (typeIndex (after (forgetRecordIdentifier r) c) ty) !! k = Some a.
Proof.
  intros Hdebug Hc.
  pose proof (coherent_resolve r true c Hc) as [Hc1 Hkeep].
  pose proof Hc as (K & J & HD). destruct (HD Hdebug) as (A & S & G).
  pose proof (agreeing_getOrCreate r c Hdebug (conj K (conj A S))) as Hlive.
  unfold after, forgetRecordIdentifier, bind.
  rewrite <- getOrCreate_after in Hc1, Hkeep. unfold after in Hc1, Hkeep.
  destruct (getOrCreateRecordIdentifier r c) as [[x|e] c1] eqn:Er; cbn [fst snd] in *.
  2: { split; [done|]. intros ty k a Hreg _. by apply Hkeep. }
  destruct Hlive as [_ Hlive].
  unfold get, getTypeIndex, modify. cbn beta iota. cbn [snd].
  set (tyx := tk_type (tok c1 x)).
  set (c2 := ensureIndex tyx c1).
  destruct Hc1 as (K1 & J1 & HD1). destruct (HD1 Hdebug) as (A1 & S1 & G1).
  assert (∀ y, tok c2 y = tok c1 y) as Htok2 by (intros y; unfold c2; by rewrite tok_ensureIndex).
  assert (∀ ty', typeIndex c2 ty' = typeIndex c1 ty') as Hidx2
    by (intros ty'; unfold c2; by rewrite typeIndex_ensureIndex).
  assert (lids c2 = lids c1) as Hlids2 by (unfold c2; by autorewrite with cache).
  assert (keyed c2) as K2 by by apply keyed_ensureIndex.
  assert (registeredById c2) as J2 by by apply (registered_same c1).
  assert (agreeing c2) as Hag2 by exact (agreeing_ensureIndex _ _ (conj K1 (conj A1 S1))).
  assert (globalEntriesIndexed c2) as G2.
  { revert G1. apply indexed_same; [done..| |done]. intros ty'. by rewrite Hidx2. }
  assert (lids c2 !! tk_lid (tok c2 x) = Some x) as Hlive2 by by rewrite Htok2, Hlids2.
  assert (ko_lid (typeIndex c2 (tk_type (tok c2 x))) !! tk_lid (tok c2 x) = Some x) as Hix
    by by apply G2.
  replace (tok c1 x) with (tok c2 x) by apply Htok2.
  set (c3 := removeIdentifier x (tok c2 x) c2).
  assert (coherent c3) as Hc3.
  { split; [by apply keyed_removeIdentifier|]. split.
    - by apply registered_removeIdentifier.
    - intros _. destruct (agreeing_removeIdentifier x c2 Hlive2 Hag2) as (_ & A3 & S3).
      split; [done|]. split; [done|]. by apply indexed_removeIdentifier. }
  split.
  - destruct Hc3 as (K3 & J3 & HD3). destruct (HD3 Hdebug) as (A3 & S3 & G3).
    split; [by apply keyed_emit, keyed_unmark|]. split.
    + revert J3. apply registered_same; [|intros ty'|done];
        intros; by autorewrite with cache.
    + intros _. assert (agreeing (emit (EvForget x) (unmarkStableIdentifier r c3)))
        as (_ & A4 & S4)
        by exact (agreeing_emit _ _ (agreeing_unmark _ _ (conj K3 (conj A3 S3)))).
      split; [done|]. split; [done|].
      revert G3. apply indexed_same; [| | |done]; intros;
        by rewrite ?emit_lids, ?tok_emit, ?typeIndex_emit, ?unmark_lids, ?tok_unmark,
             ?typeIndex_unmark.
  - intros ty k a Hreg Hspare. assert (x ≠ a) as Hxa by congruence.
    rewrite typeIndex_emit, typeIndex_unmark.
    unfold c3. rewrite ko_id_removeIdentifier, Hidx2.
    specialize (Hkeep _ _ _ Hreg).
    destruct (decide (tk_type (tok c2 x) = ty)) as [Hty|]; [|done].
    destruct (tk_id (tok c2 x)) as [j|] eqn:Ej; [|done].
    rewrite lookup_delete_ne; [done|]. intros <-.
    pose proof (J2 _ _ _ _ Hix Ej) as Hx. rewrite Hty, Hidx2 in Hx. congruence.
Qed.

Lemma coherent_new g : coherent (newIdentifierCache g).
Proof.
  split; [apply keyed_new|]. split; [apply registered_new|]. intros _.
  split; [apply agreeing_new|]. split; [apply agreeing_new|].
  intros L a. simpl. by rewrite lookup_empty.
Qed.

Lemma coherent_exec o c :
  permitted o = true → coherent c →
  coherent (exec c o)
  ∧ ∀ ty k a, ko_id (typeIndex c ty) !! k = Some a →
              spares a [o] c = true →
              ko_id (typeIndex (exec c o) ty) !! k = Some a.
Proof.
  intros Ho Hc. destruct o as [r|r|d|r d|r|m]; simpl in *.
  - rewrite getOrCreate_after. destruct (coherent_resolve r true c Hc). split; auto.
  - unfold after, peekRecordIdentifier.
    destruct (coherent_resolve r false c Hc). split; auto.
  - apply bool_decide_eq_true_1 in Ho.
    destruct (coherent_createForNew d c Ho Hc) as [Hc' Hid]. split; [done|].
    intros ty k a Ha _. by rewrite Hid.
  - done.
  - destruct (coherent_forget r c Ho Hc) as [Hc' Hkeep]. split; [done|].
    intros ty k a Ha Hsp. apply Hkeep; [done|].
    rewrite andb_true_r in Hsp. apply negb_true_iff, bool_decide_eq_false_1 in Hsp. done.
  - destruct Hc as (K & J & HD). unfold after, __configureMerge. simpl.
    set (c' := with_merge _ c).
    assert (∀ a, tok c' a = tok c a) as Htok by (intros; unfold c'; by autorewrite with cache).
    assert (∀ ty, typeIndex c' ty = typeIndex c ty) as Hidx
      by (intros; unfold c'; by autorewrite with cache).
    split; [|intros ty k a; by rewrite Hidx].
    split; [by apply keyed_with_merge|]. split; [by apply (registered_same c)|].
    intros Hdebug. destruct (HD Hdebug) as (A & S & G).
    destruct (agreeing_with_merge (default defaultEmptyCallback m) c (conj K (conj A S)))
      as (_ & A' & S').
    split; [done|]. split; [done|].
    revert G. apply indexed_same; [done| |intros ty; by rewrite Hidx|done].
    unfold c'. by autorewrite with cache.
Qed.

Lemma coherent_run ops c ty k a :
  forallb permitted ops = true → coherent c →
  ko_id (typeIndex c ty) !! k = Some a → spares a ops c = true →
  coherent (run ops c) ∧ ko_id (typeIndex (run ops c) ty) !! k = Some a.
Proof.
  revert c. induction ops as [|o ops IH]; intros c Hops Hc Ha Hsp; [done|].
  cbn [forallb] in Hops. apply andb_true_iff in Hops as [Ho Hops].
  destruct (coherent_exec o c Ho Hc) as [Hc' Hkeep].
  assert (spares a [o] c = true ∧ spares a ops (exec c o) = true) as [Hsp1 Hsp2].
  { cbn [spares] in *. apply andb_true_iff in Hsp as [-> ->]. by destruct o. }
  apply (IH (exec c o)); auto.
Qed.

(** Stability between resolutions on any keyed cache whose identifiers
    with an external key are registered under it: after any number of
    [getOrCreateRecordIdentifier] and [peekRecordIdentifier] calls the
    resolution by type and external key returns the same object. *)
Lemma stable_between_resolutions
    (c : IdentifierCache) (ty k : string) (a : addr) (ops : list Op) :
  keyed c → registeredById c →
  k ≠ "" →
  forallb isResolve ops = true →
  (getOrCreateRecordIdentifier (RefData (mkData (Str ty) (Str k) Absent)) c).1 = Return a →
  tk_id (tok (after (getOrCreateRecordIdentifier (RefData (mkData (Str ty) (Str k) Absent))) c) a)
    = Some k →
  (getOrCreateRecordIdentifier (RefData (mkData (Str ty) (Str k) Absent))
     (run ops (after (getOrCreateRecordIdentifier
                        (RefData (mkData (Str ty) (Str k) Absent))) c))).1
  = Return a.
Proof.
  intros K J Hk Hops Hret Hid.
  destruct (getOrCreate_registers c ty k a Hk Hret Hid) as [Hty Hreg].
  set (c1 := after (getOrCreateRecordIdentifier (RefData (mkData (Str ty) (Str k) Absent))) c)
    in *.
  assert (keyed c1) as K1 by by apply keyed_getOrCreate.
  assert (registeredById c1) as J1.
  { unfold c1. rewrite getOrCreate_after. by apply registered_resolve. }
  destruct (registered_run ops c1 Hops K1 J1) as [_ Hkeep].
  by rewrite (getOrCreate_by_id _ ty k a Hty Hk (Hkeep _ _ _ Hreg)).
Qed.



(** C6 (amended). Local-key passthrough: when resource data (anything but
    a marked identifier) carries a non-empty local key [L], on a cache with
    keyed tables, (1) the identifier a resolution returns has local key
    [L], unless [L] is in neither local-key table and the identifier was
    found in the secondary table under the data's external key; (2) every
    object the call makes has local key [L]; (3) when no table has an
    entry for the data and a creation is due (the call may create, or the
    data has a type and an external key), a generation method that
    answers anything but [L] makes the call throw, and no object is
    made. *)
Theorem resolve_keeps_supplied_lid (c : IdentifierCache) (r : Ref) (sg : bool) (L : string) :
  keyed c →
  isStableIdentifier c r = false →
  coerceId (r_lid (data_of c r)) = Some L →
  let d := data_of c r in
  let ty := normalizeModelName (str_of (r_type d)) in
  (∀ a, (_getRecordIdentifier r sg c).1 = Return (Some a) →
     tk_lid (tok (_getRecordIdentifier r sg c).2 a) = L
     ∨ (lids c !! L = None ∧ ko_lid (typeIndex c ty) !! L = None
        ∧ ∃ i, coerceId (r_id d) = Some i ∧ ko_id (typeIndex c ty) !! i = Some a))
  ∧ (∀ a, length (heap c) ≤ a < length (heap (_getRecordIdentifier r sg c).2) →
       tk_lid (tok (_getRecordIdentifier r sg c).2 a) = L)
  ∧ (lids c !! L = None →
     isNonEmptyString (r_type d) = true →
     sg = true ∨ truthy (r_id d) = true →
     indexLookup (typeIndex c ty) (Some L) (coerceId (r_id d)) = None →
     _generate c d (generated c) ≠ L →
     (_getRecordIdentifier r sg c).1 = Throw ErrLidChanged
     ∧ heap (_getRecordIdentifier r sg c).2 = heap c).
Proof.
  intros [K1 K2] Hst El d ty. subst d ty.
  destruct (resolve_spec r sg c) as
    [a ? Hs|a ? Hs|l a ? El' Hl|? Hu Hsg Htr|? Hu Hne|ty' a ? Hu Ety Hix
    |ty' l ? Hu Ety Hix El' Hgen|ty' ? Hu Hsg Ety Hix Hne Hsame
    |ty' e ? Hu Hsg Ety Hix El'|ty' newLid ? Hu Hsg Ety Egen HD Hin Hne Hsame
    |ty' newLid ? Hu Hsg Hne Ety Egen Hix Hsame Hg Hfree].
  - subst r. simpl in Hst. by apply bool_decide_eq_false in Hst.
  - subst r. simpl in Hst. by apply bool_decide_eq_false in Hst.
  - assert (l = L) as -> by congruence.
    split; [|split].
    + intros ? [= <-]. left. by destruct (K1 _ _ Hl) as [_ ?].
    + intros a' Ha'. lia.
    + intros Hnone. congruence.
  - split; [|split].
    + by intros ?.
    + intros a' Ha'. lia.
    + intros _ Hne [Hsg'|Hid]; [congruence|].
      rewrite Hid in Htr.
      assert (truthy (r_type (data_of c r)) = true) as Hty by exact Hne.
      rewrite Hty in Htr. done.
  - split; [|split].
    + by intros ?.
    + intros a' Ha'. lia.
    + intros _ Hne'. congruence.
  - subst ty'. rewrite El in Hix.
    split; [|split].
    + intros ? [= <-]. autorewrite with cache.
      unfold indexLookup in Hix. simpl in Hix.
      destruct (ko_lid (typeIndex c _) !! L) as [b|] eqn:Eb.
      * injection Hix as ->. left. by destruct (K2 _ _ _ Eb) as (_ & ? & _).
      * right. unfold lidUnknown in Hu. rewrite El in Hu. simpl in Hu.
        destruct (coerceId (r_id (data_of c r))) as [i|]; [|done]. eauto.
    + intros a' Ha'. autorewrite with cache in Ha'. lia.
    + intros _ _ _ Hix'. congruence.
  - split; [|split].
    + by intros ?.
    + intros a' Ha'. autorewrite with cache in Ha'. lia.
    + intros _ _ _ _ _. by autorewrite with cache.
  - split; [|split].
    + intros a Ha. rewrite El in Ha. done.
    + intros a' Ha'. autorewrite with cache in Ha'. lia.
    + intros _ _ _ _ Hgen. exfalso. apply Hgen. by rewrite <- (Hsame L El).
  - congruence.
  - assert (newLid = L) as -> by (symmetry; by apply Hsame).
    split; [|split].
    + by intros ?.
    + intros a' Ha'. autorewrite with cache in Ha'. rewrite length_app in Ha'. simpl in Ha'.
      assert (a' = length (heap c)) as -> by lia.
      by rewrite tok_allocate_asked.
    + intros _ _ _ _ Hgen. exfalso. apply Hgen. by rewrite <- Egen.
  - assert (newLid = L) as -> by (symmetry; by apply Hsame).
    assert (∀ c0 a', length (heap c) ≤ a' <
                length (heap (registerId ty' (length (heap c))
                  (insertIdentifier ty' L (length (heap c))
                    (allocate c0 (asked ty' c))))) → a' = length (heap c)) as Honly.
    { intros c0 a'. unfold registerId. destruct (tk_id _); autorewrite with cache;
        rewrite heap_insertIdentifier; autorewrite with cache;
        rewrite length_app; simpl; lia. }
    assert (∀ c0, tk_lid c0 = L →
              tk_lid (tok (registerId ty' (length (heap c))
                (insertIdentifier ty' L (length (heap c))
                  (allocate c0 (asked ty' c)))) (length (heap c))) = L) as Hnew.
    { intros c0 Hc0. unfold registerId. destruct (tk_id _); autorewrite with cache;
        by rewrite tok_insertIdentifier, tok_allocate_asked. }
    split; [|split].
    + intros ? [= <-]. left. by apply Hnew.
    + intros a' Ha'. apply Honly in Ha' as ->. by apply Hnew.
    + intros _ _ _ _ Hgen. exfalso. apply Hgen. by rewrite <- Egen.
Qed.

(** C9. Expected absence: a peek on data that is not a marked identifier,
    whose local key is in no entry of the global table, and that lacks a
    non-empty type or a non-empty external key, returns "no identity"; it
    does not throw and leaves the cache exactly as it was. *)
Theorem peek_absent_is_not_an_error (c : IdentifierCache) (r : Ref) :
  isStableIdentifier c r = false →
  (∀ l, coerceId (r_lid (data_of c r)) = Some l → lids c !! l = None) →
  truthy (r_type (data_of c r)) && truthy (r_id (data_of c r)) = false →
  peekRecordIdentifier r c = (Return None, c).
Proof.
  intros Hs Hl Ht.
  unfold peekRecordIdentifier, _getRecordIdentifier, bind, get, ret. simpl.
  rewrite Hs.
  destruct (coerceId (r_lid (data_of c r))) as [l|] eqn:El; simpl.
  - rewrite (Hl l eq_refl). by rewrite Ht.
  - by rewrite Ht.
Qed.

(** ** Calls on a marked identifier *)

Lemma getOrCreate_stable a c :
  a ∈ stable c → (DEBUG = true → lids c !! tk_lid (tok c a) = Some a) →
  getOrCreateRecordIdentifier (RefToken a) c = (Return a, c).
Proof.
  intros Hs Hl. unfold getOrCreateRecordIdentifier, _getRecordIdentifier.
  unfold bind, get, ret, throw. simpl.
  rewrite bool_decide_true by done.
  destruct DEBUG; simpl; [|done].
  by rewrite bool_decide_true by auto.
Qed.

Lemma forget_stable a c :
  a ∈ stable c → (DEBUG = true → lids c !! tk_lid (tok c a) = Some a) →
  forgetRecordIdentifier (RefToken a) c = (Return tt, forgotten a c).
Proof.
  intros Hs Hl. unfold forgetRecordIdentifier.
  rewrite (bind_Return _ _ _ _ _ (getOrCreate_stable a c Hs Hl)).
  reflexivity.
Qed.


(** ** A new record and its first update *)

Lemma createForNew_fresh d c :
  (DEBUG = true →
   lids c !! _generate c (mkData (Str (n_type d)) (n_id d) Absent) (generated c) = None) →
  createIdentifierForNewRecord d c = (Return (length (heap c)), created d c).
Proof.
  intros Hfree. unfold createIdentifierForNewRecord.
  unfold bind, generate, makeStableRecordIdentifier, getTypeIndex, modify, get, throw, ret.
  cbn beta iota. rewrite ensureIndex_lids, allocate_lids.
  change (lids (with_generated (S (generated c)) c)) with (lids c).
  destruct DEBUG; cbn [andb]; [|done].
  by rewrite bool_decide_false by (rewrite Hfree by done; by intros [? ?]).
Qed.

Lemma created_tok d c :
  tok (created d c) (length (heap c))
  = mkToken (_generate c (mkData (Str (n_type d)) (n_id d) Absent) (generated c))
            (coerceId (n_id d)) (n_type d) true.
Proof.
  unfold created. rewrite tok_insertIdentifier, tok_ensureIndex.
  apply tok_allocate_bumped.
Qed.

Lemma created_live d c : live (created d c) (length (heap c)).
Proof.
  split; [|split].
  - unfold created, insertIdentifier. rewrite !with_index_stable.
    change (stable (with_lids ?l ?x)) with (stable x).
    rewrite ensureIndex_stable, allocate_stable. apply elem_of_union_l.
    by apply elem_of_singleton.
  - unfold created. rewrite heap_insertIdentifier, ensureIndex_heap, allocate_heap.
    rewrite length_app. simpl. lia.
  - rewrite created_tok. unfold created. rewrite lids_insertIdentifier. simpl.
    apply lookup_insert_eq.
Qed.

Lemma detectMerge_no_id a d i c :
  tk_id (tok c a) = None → detectMerge a d i c = (Return None, c).
Proof.
  intros Hid. unfold detectMerge, bind, get, ret. cbn beta iota. by rewrite Hid.
Qed.

Lemma perform_assign a k c :
  tk_id (tok c a) = None →
  performRecordIdentifierUpdate a (mkData Absent (Str k) Absent) c
  = (Return tt,
     setTokenId a (coerceId (Str k)) (emit (EvUpdate a (mkData Absent (Str k) Absent)) c)).
Proof.
  intros Hid. unfold performRecordIdentifierUpdate.
  unfold bind, get, ret, throw, modify. cbn beta iota.
  destruct DEBUG; cbn; [|done]. by rewrite Hid.
Qed.

Lemma update_assigns_id a k c :
  live c a → tk_id (tok c a) = None → k ≠ "" →
  updateRecordIdentifier (RefToken a) (mkData Absent (Str k) Absent) c
  = (Return (a, mkData Absent (Str k) Absent), assigned a k c).
Proof.
  intros (Hs & Hlt & Hl) Hid Hk. unfold updateRecordIdentifier.
  rewrite (bind_Return _ _ _ _ _ (getOrCreate_stable a c Hs (λ _, Hl))).
  rewrite (bind_Return _ _ _ _ _ (detectMerge_no_id a _ _ c Hid)).
  unfold bind at 1. unfold get at 1. cbn beta iota.
  cbn [r_type truthy andb]. unfold bind at 1. unfold ret at 1. cbn beta iota.
  unfold bind at 1. unfold ret at 1. cbn beta iota. cbn [fst snd].
  unfold bind at 1. unfold get at 1. cbn beta iota.
  rewrite (bind_Return _ _ _ _ _ (perform_assign a k c Hid)).
  unfold bind at 1. unfold get at 1. cbn beta iota.
  rewrite Hid. cbn [coerceId]. rewrite decide_False by done.
  rewrite tok_setTokenId_id by done.
  rewrite bool_decide_false by done. cbn [negb andb].
  rewrite bool_decide_true by eauto.
  unfold bind, getTypeIndex, modify, ret. cbn beta iota.
  unfold assigned. by autorewrite with cache.
Qed.

Lemma assigned_tok_id a k c : a < length (heap c) → tk_id (tok (assigned a k c) a) = Some k.
Proof.
  intros Ha. unfold assigned. rewrite tok_with_index, tok_ensureIndex.
  by rewrite tok_setTokenId_id.
Qed.

Lemma assigned_ko_id a k c :
  ko_id (typeIndex (assigned a k c) (tk_type (tok c a))) !! k = Some a.
Proof.
  unfold assigned. rewrite typeIndex_with_index_eq. simpl. apply lookup_insert_eq.
Qed.

(** C8. New-record round trip: on any cache, provided the local key
    generated for the new record is not taken (a DEBUG build throws
    otherwise) and ["person"] is its own normal form,
    [createIdentifierForNewRecord({type: "person"})] returns a new
    identifier without external key; [updateRecordIdentifier] on it with
    [{id: "42"}] returns it and sets its external key to ["42"]; and
    [getOrCreateRecordIdentifier({type: "person", id: "42"})] then returns
    that very object. *)
Theorem new_record_round_trip (c : IdentifierCache) :
  normalizeModelName "person" = "person" →
  (DEBUG = true →
   lids c !! _generate c (mkData (Str "person") Absent Absent) (generated c) = None) →
  let t := length (heap c) in
  let c1 := after (createIdentifierForNewRecord (mkNew "person" Absent)) c in
  let c2 := after (updateRecordIdentifier (RefToken t) (mkData Absent (Str "42") Absent)) c1 in
  (createIdentifierForNewRecord (mkNew "person" Absent) c).1 = Return t
  ∧ tk_id (tok c1 t) = None
  ∧ (updateRecordIdentifier (RefToken t) (mkData Absent (Str "42") Absent) c1).1
    = Return (t, mkData Absent (Str "42") Absent)
  ∧ tk_id (tok c2 t) = Some "42"
  ∧ (getOrCreateRecordIdentifier (RefData (mkData (Str "person") (Str "42") Absent)) c2).1
    = Return t.
Proof.
  intros Hnorm Hfree t c1 c2.
  pose proof (createForNew_fresh (mkNew "person" Absent) c Hfree) as Hnew.
  assert (c1 = created (mkNew "person" Absent) c) as Hc1
    by (unfold c1, after; by rewrite Hnew).
  pose proof (created_tok (mkNew "person" Absent) c) as Htok. fold t in Htok.
  pose proof (created_live (mkNew "person" Absent) c) as Hlive. fold t in Hlive.
  rewrite <- Hc1 in Htok, Hlive.
  assert (tk_id (tok c1 t) = None) as Hid by by rewrite Htok.
  pose proof (update_assigns_id t "42" c1 Hlive Hid ltac:(done)) as Hupd.
  assert (c2 = assigned t "42" c1) as Hc2 by (unfold c2, after; by rewrite Hupd).
  split; [by rewrite Hnew|]. split; [done|]. split; [by rewrite Hupd|].
  destruct Hlive as (_ & Hlt & _).
  split; [rewrite Hc2; by apply assigned_tok_id|].
  rewrite (getOrCreate_by_id c2 "person" "42" t); [done..|].
  rewrite Hnorm, Hc2.
  pose proof (assigned_ko_id t "42" c1) as Hk. by rewrite Htok in Hk.
Qed.

(** ** An update that meets another identifier with the incoming key *)

Lemma detectMerge_other_id b d i k c :
  tk_id (tok c b) = Some k → k ≠ i →
  detectMerge b d (Some i) c
  = (Return (ko_id (typeIndex c (tk_type (tok c b))) !! i),
     ensureIndex (tk_type (tok c b)) c).
Proof.
  intros Hid Hne. unfold detectMerge. rewrite bind_get. cbn zeta.
  rewrite Hid. rewrite bool_decide_true by eauto.
  rewrite bool_decide_false by congruence.
  rewrite bool_decide_true by eauto. cbn [andb negb].
  rewrite bind_getTypeIndex, bind_get. unfold ret.
  by rewrite typeIndex_ensureIndex.
Qed.

Lemma merge_eq ty b a data newId kept c :
  tk_type (tok c a) = ty →
  _merge c (heap c) b a data = Some kept →
  (if bool_decide (Some kept = Some b) then a else b) ∈ stable c →
  (DEBUG = true →
   lids c !! tk_lid (tok c (if bool_decide (Some kept = Some b) then a else b))
   = Some (if bool_decide (Some kept = Some b) then a else b)) →
  _mergeRecordIdentifiers ty b a data newId c
  = (Return (kept, mkData (r_type data) (r_id data) (Str (tk_lid (tok c kept)))),
     merged ty b a data (key_of newId) kept
       (if bool_decide (Some kept = Some b) then a else b) c).
Proof.
  intros Hty Hm Hs Hl. unfold _mergeRecordIdentifiers.
  rewrite bind_get. cbn zeta. rewrite Hm, bind_modify.
  set (loser := if bool_decide (Some kept = Some b) then a else b) in *.
  pose proof (forget_stable loser (emit (EvMerge b a data) c) Hs Hl) as Hf.
  rewrite (bind_Return _ _ _ _ _ Hf).
  rewrite bind_modify, bind_get. cbn zeta.
  rewrite tok_with_index, forgotten_tok, tok_emit, Hty.
  rewrite bind_getTypeIndex, bind_modify, bind_get. unfold ret.
  unfold merged. by rewrite tok_with_index, tok_ensureIndex, tok_with_index, forgotten_tok.
Qed.

(** [performRecordIdentifierUpdate] when the data's [lid] and type, if it
    has them, are the identifier's, and it has an [id]. *)
Lemma perform_ok a d c :
  (r_lid d = Absent ∨ coerceId (r_lid d) = Some (tk_lid (tok c a))) →
  (newTypeOf d = None ∨ newTypeOf d = Some (tk_type (tok c a))) →
  r_id d ≠ Absent → r_id d ≠ Undefined →
  performRecordIdentifierUpdate a d c
  = (Return tt,
     setTokenId a (coerceId (r_id d))
       (emit (EvUpdate a d) (warned DEBUG a (coerceId (r_id d)) c))).
Proof.
  intros Hlid Hty Hid1 Hid2. unfold performRecordIdentifierUpdate, warned.
  rewrite (bool_decide_false (r_id d = Absent)) by done.
  rewrite (bool_decide_false (r_id d = Undefined)) by done. cbn [negb andb].
  destruct DEBUG; cbn [andb].
  2: { by rewrite bind_modify. }
  rewrite bind_bind, bind_get. cbn zeta.
  assert ((if negb (bool_decide (r_lid d = Absent))
              && negb (bool_decide (r_lid d = Undefined))
              && negb (bool_decide (coerceId (r_lid d) = Some (tk_lid (tok c a))))
           then @throw unit ErrLidUpdate else ret tt) = ret tt) as ->.
  { destruct Hlid as [->|Hl]; [done|]. rewrite (bool_decide_true _ Hl).
    by rewrite !andb_false_r. }
  rewrite bind_bind, bind_ret.
  assert ((match newTypeOf d with
           | Some type =>
               if negb (bool_decide (type = "")) && negb (bool_decide (type = tk_type (tok c a)))
               then @throw unit ErrTypeUpdate else ret tt
           | None => ret tt
           end) = ret tt) as Hcheck.
  { destruct Hty as [-> | ->]; [done|].
    rewrite (bool_decide_true (tk_type (tok c a) = tk_type (tok c a))) by done.
    by rewrite andb_false_r. }
  destruct (bool_decide (is_Some (tk_id (tok c a)))
            && negb (bool_decide (tk_id (tok c a) = coerceId (r_id d)))) eqn:Hw.
  - rewrite bind_bind, bind_modify, bind_bind.
    rewrite Hcheck, bind_ret, bind_modify. done.
  - rewrite bind_bind, bind_ret, bind_bind.
    rewrite Hcheck, bind_ret, bind_modify. done.
Qed.

Lemma warned_heap d a i c : heap (warned d a i c) = heap c.
Proof. unfold warned. by destruct (_ && _). Qed.
Lemma warned_tok d a i c b : tok (warned d a i c) b = tok c b.
Proof. unfold warned. by destruct (_ && _). Qed.
Lemma warned_lids d a i c : lids (warned d a i c) = lids c.
Proof. unfold warned. by destruct (_ && _). Qed.
Lemma warned_stable d a i c : stable (warned d a i c) = stable c.
Proof. unfold warned. by destruct (_ && _). Qed.
Lemma typeIndex_warned d a i c ty : typeIndex (warned d a i c) ty = typeIndex c ty.
Proof. unfold warned. by destruct (_ && _). Qed.

Lemma merged_heap ty b a d key kept loser c :
  heap (merged ty b a d key kept loser c) = heap c.
Proof.
  unfold merged. by rewrite with_index_heap, ensureIndex_heap, with_index_heap, forgotten_heap.
Qed.
Lemma merged_tok ty b a d key kept loser c x :
  tok (merged ty b a d key kept loser c) x = tok c x.
Proof. unfold tok. by rewrite merged_heap. Qed.
Lemma merged_lids ty b a d key kept loser c :
  lids (merged ty b a d key kept loser c) = delete (tk_lid (tok c loser)) (lids c).
Proof.
  unfold merged. by rewrite with_index_lids, ensureIndex_lids, with_index_lids, forgotten_lids.
Qed.
Lemma merged_stable ty b a d key kept loser c :
  stable (merged ty b a d key kept loser c) = stable c ∖ {[loser]}.
Proof.
  unfold merged.
  by rewrite with_index_stable, ensureIndex_stable, with_index_stable, forgotten_stable.
Qed.
Lemma merged_trace ty b a d key kept loser c :
  trace (merged ty b a d key kept loser c) = trace c ++ [EvMerge b a d; EvForget loser].
Proof.
  unfold merged.
  rewrite with_index_trace, ensureIndex_trace, with_index_trace, forgotten_trace.
  simpl. by rewrite <- app_assoc.
Qed.
Lemma merged_ko_id ty b a d key kept loser c :
  ko_id (typeIndex (merged ty b a d key kept loser c) ty) !! key = Some kept.
Proof. unfold merged. rewrite typeIndex_with_index_eq. simpl. apply lookup_insert_eq. Qed.
Lemma merged_ko_lid ty b a d key kept loser c :
  ko_lid (typeIndex (merged ty b a d key kept loser c) ty)
  = ko_lid (typeIndex (forgotten loser c) ty).
Proof.
  unfold merged. rewrite typeIndex_with_index_eq, ko_lid_set_ko_id.
  rewrite typeIndex_ensureIndex, typeIndex_with_index_eq, ko_lid_set_ko_id.
  rewrite !forgotten_ko_lid. by rewrite tok_emit, typeIndex_emit.
Qed.

Lemma update_via_merge (c : IdentifierCache) (a b kept : addr) (i k : string)
    (data : ResourceData) :
  live c a → live c b →
  tk_type (tok c a) = tk_type (tok c b) →
  ko_id (typeIndex c (tk_type (tok c b))) !! i = Some a →
  tk_id (tok c b) = Some k → k ≠ i → i ≠ "" →
  tk_lid (tok c kept) ≠ "" →
  r_id data = Str i →
  (newTypeOf data = None ∨ newTypeOf data = Some (tk_type (tok c b))) →
  _merge c (heap c) b a data = Some kept → kept = a ∨ kept = b →
  updateRecordIdentifier (RefToken b) data c
  = (Return (kept, mkData (r_type data) (r_id data) (Str (tk_lid (tok c kept)))),
     settled kept (tk_id (tok c kept))
       (setTokenId kept (Some i)
          (emit (EvUpdate kept (mkData (r_type data) (r_id data) (Str (tk_lid (tok c kept)))))
             (warned DEBUG kept (Some i)
                (merged (tk_type (tok c b)) b a data i kept
                   (if bool_decide (Some kept = Some b) then a else b)
                   (ensureIndex (tk_type (tok c b)) (ensureIndex (tk_type (tok c b)) c))))))).
Proof.
  intros (Has & Halt & Hal) (Hbs & Hblt & Hbl) Hty Hreg Hidb Hk Hi Hlid Hdid Hdty Hm Hkept.
  destruct data as [dt did dl]. cbn [r_id r_type r_lid] in *. subst did.
  set (data := mkData dt (Str i) dl) in *.
  set (ty := tk_type (tok c b)) in *.
  unfold updateRecordIdentifier.
  rewrite (bind_Return _ _ _ _ _ (getOrCreate_stable b c Hbs (λ _, Hbl))).
  cbn zeta. cbn [r_id data coerceId]. rewrite decide_False by done.
  rewrite (bind_Return _ _ _ _ _ (detectMerge_other_id b data i k c Hidb Hk)).
  fold ty. rewrite Hreg, bind_get, bind_ret, bind_bind, bind_get. cbn zeta.
  rewrite tok_ensureIndex. fold ty. rewrite bind_bind, bind_getTypeIndex.
  set (c2 := ensureIndex ty (ensureIndex ty c)).
  set (loser := if bool_decide (Some kept = Some b) then a else b).
  assert (loser = a ∨ loser = b) as Hloser by (unfold loser; destruct (bool_decide _); auto).
  assert (_mergeRecordIdentifiers ty b a data (Some i) c2
          = (Return (kept, mkData (r_type data) (r_id data) (Str (tk_lid (tok c2 kept)))),
             merged ty b a data (key_of (Some i)) kept loser c2)) as Hmerge.
  { apply merge_eq.
    - unfold c2. by rewrite !tok_ensureIndex.
    - unfold c2. by rewrite !ensureIndex_merge, !ensureIndex_heap.
    - fold loser. unfold c2. rewrite !ensureIndex_stable. by destruct Hloser as [-> | ->].
    - fold loser. intros _. unfold c2. rewrite !ensureIndex_lids, !tok_ensureIndex.
      by destruct Hloser as [-> | ->]. }
  rewrite (bind_Return _ _ _ _ _ Hmerge). cbn [fst snd key_of default].
  assert (tok c2 kept = tok c kept) as Hc2 by (unfold c2; by rewrite !tok_ensureIndex).
  rewrite Hc2. set (data' := mkData _ _ (Str (tk_lid (tok c kept)))).
  set (c3 := merged ty b a data i kept loser c2).
  assert (∀ x, tok c3 x = tok c x) as Htok3.
  { intros x. unfold c3, c2. by rewrite merged_tok, !tok_ensureIndex. }
  assert (tk_type (tok c kept) = ty) as Htyk by (by destruct Hkept as [-> | ->]).
  assert (kept < length (heap c)) as Hklt by (by destruct Hkept as [-> | ->]).
  rewrite bind_get. cbn zeta. rewrite Htok3.
  assert (performRecordIdentifierUpdate kept data' c3
          = (Return tt,
             setTokenId kept (coerceId (r_id data'))
               (emit (EvUpdate kept data') (warned DEBUG kept (coerceId (r_id data')) c3))))
    as Hperf.
  { apply perform_ok.
    - right. subst data'. cbn [r_lid coerceId]. by rewrite decide_False, Htok3.
    - rewrite Htok3, Htyk. exact Hdty.
    - done.
    - done. }
  rewrite (bind_Return _ _ _ _ _ Hperf).
  assert (coerceId (r_id data') = Some i) as ->.
  { subst data'. cbn. by rewrite decide_False. }
  set (c4 := setTokenId kept (Some i) _).
  rewrite bind_get. cbn zeta.
  unfold settled. fold c4.
  destruct (negb (bool_decide (tk_id (tok c kept) = tk_id (tok c4 kept)))
            && bool_decide (is_Some (tk_id (tok c4 kept)))) eqn:Hch.
  - rewrite bind_bind, bind_getTypeIndex, bind_bind, bind_modify.
    destruct (tk_id (tok c kept)) as [old|] eqn:Eold.
    + by rewrite bind_modify.
    + by rewrite bind_ret.
  - by rewrite bind_ret.
Qed.

Lemma settled_same a old c : old = tk_id (tok c a) → settled a old c = c.
Proof. intros ->. unfold settled. by rewrite bool_decide_true. Qed.

Lemma settled_changed a old i c :
  tk_id (tok c a) = Some i → old ≠ i →
  settled a (Some old) c
  = with_index (tk_type (tok c a)) (del_ko_id old)
      (with_index (tk_type (tok c a)) (set_ko_id i (Some a))
         (ensureIndex (tk_type (tok c a)) c)).
Proof.
  intros Hi Hne. unfold settled. rewrite Hi.
  rewrite bool_decide_false by congruence. by rewrite bool_decide_true by eauto.
Qed.

(** C4 (amended). Merge survivor consistency: let [a] and [b] be two live
    identifiers of one type, [a] holding external key ["3"] and being the
    entry for it in the secondary table, [b] holding another external key,
    both with non-empty local keys.  When [updateRecordIdentifier] is
    called on [b] with data whose external key is ["3"] and whose type, if
    it has one, is the identifiers' type, and the merge method answers
    with one of the two, then: the call returns the identifier kept,
    and the data's [lid] is the kept identifier's; the merge method was
    called exactly once, with [b], [a] and the data, and the forget
    callback for the other identifier right after it; the secondary table
    of the type files the kept identifier under ["3"], which is now its
    external key, and (for a type that is its own normal form) data with
    that type and key resolves to it; the kept identifier is live; the
    other one is gone from both local-key tables and no longer marked. *)
Theorem merge_survivor_consistency
    (c : IdentifierCache) (a b kept : addr) (k : string) (data : ResourceData) :
  live c a → live c b → a ≠ b →
  tk_type (tok c a) = tk_type (tok c b) →
  tk_id (tok c a) = Some "3" →
  ko_id (typeIndex c (tk_type (tok c b))) !! "3" = Some a →
  tk_id (tok c b) = Some k → k ≠ "3" →
  tk_lid (tok c a) ≠ "" → tk_lid (tok c b) ≠ "" →
  r_id data = Str "3" →
  (newTypeOf data = None ∨ newTypeOf data = Some (tk_type (tok c b))) →
  _merge c (heap c) b a data = Some kept → kept = a ∨ kept = b →
  let ty := tk_type (tok c b) in
  let loser := if decide (kept = a) then b else a in
  let c' := after (updateRecordIdentifier (RefToken b) data) c in
  let data' := mkData (r_type data) (r_id data) (Str (tk_lid (tok c kept))) in
  (updateRecordIdentifier (RefToken b) data c).1 = Return (kept, data')
  ∧ trace c'
    = trace c ++ [EvMerge b a data; EvForget loser]
      ++ (if DEBUG && bool_decide (kept = b) then [EvWarnId b (Some "3")] else [])
      ++ [EvUpdate kept data']
  ∧ ko_id (typeIndex c' ty) !! "3" = Some kept
  ∧ tk_id (tok c' kept) = Some "3"
  ∧ (normalizeModelName ty = ty → ty ≠ "" →
     (getOrCreateRecordIdentifier (RefData (mkData (Str ty) (Str "3") Absent)) c').1
     = Return kept)
  ∧ live c' kept
  ∧ lids c' !! tk_lid (tok c loser) = None
  ∧ ko_lid (typeIndex c' ty) !! tk_lid (tok c loser) = None
  ∧ isStableIdentifier c' (RefToken loser) = false.
Proof.
  intros Ha Hb Hab Hty Hida Hreg Hidb Hk Hla Hlb Hdid Hdty Hm Hkept ty loser c' data'.
  assert (tk_lid (tok c kept) ≠ "") as Hlk by (by destruct Hkept as [-> | ->]).
  pose proof (update_via_merge c a b kept "3" k data Ha Hb Hty Hreg Hidb Hk ltac:(done)
                Hlk Hdid Hdty Hm Hkept) as Hupd.
  fold ty data' in Hupd.
  assert (c' = (updateRecordIdentifier (RefToken b) data c).2) as Hc' by done.
  rewrite Hupd in Hc'. cbn [snd] in Hc'. clearbody c'.
  destruct Ha as (Has & Halt & Hal). destruct Hb as (Hbs & Hblt & Hbl).
  assert (tk_lid (tok c a) ≠ tk_lid (tok c b)) as Hlab.
  { intros Heq. rewrite Heq in Hal. congruence. }
  set (c2 := ensureIndex ty (ensureIndex ty c)) in *.
  assert (∀ x, tok c2 x = tok c x) as Htok2
    by (intros x; unfold c2; by rewrite !tok_ensureIndex).
  assert (lids c2 = lids c) as Hlids2 by (unfold c2; by rewrite !ensureIndex_lids).
  assert (stable c2 = stable c) as Hst2 by (unfold c2; by rewrite !ensureIndex_stable).
  assert (trace c2 = trace c) as Htr2 by (unfold c2; by rewrite !ensureIndex_trace).
  assert (length (heap c2) = length (heap c)) as Hlen2
    by (unfold c2; by rewrite !ensureIndex_heap).
  split; [by rewrite Hupd|].
  destruct Hkept as [-> | ->].
  - (* the matched identifier is kept *)
    assert (loser = b) as -> by (unfold loser; by rewrite decide_True).
    rewrite (bool_decide_false (Some a = Some b)) in Hc' by congruence.
    set (c3 := merged ty b a data "3" a b c2) in *.
    assert (∀ x, tok c3 x = tok c x) as Htok3
      by (intros x; unfold c3; by rewrite merged_tok).
    assert (warned DEBUG a (Some "3") c3 = c3) as Hw.
    { unfold warned. rewrite Htok3, Hida. rewrite (bool_decide_true (Some "3" = Some "3")) by done.
      by rewrite andb_false_r. }
    rewrite Hw in Hc'.
    set (c4 := setTokenId a (Some "3") (emit (EvUpdate a data') c3)) in *.
    assert (tk_id (tok c4 a) = Some "3") as Hid4.
    { unfold c4. rewrite tok_setTokenId_id; [done|]. rewrite ?emit_heap, ?emit_lids, ?emit_stable, ?emit_trace. unfold c3.
      rewrite merged_heap. lia. }
    rewrite settled_same in Hc' by (by rewrite Hid4, Hida). subst c'.
    rewrite (bool_decide_false (a = b)) by done. rewrite andb_false_r.
    split; [|split; [|split; [|split; [|split; [|split; [|split]]]]]].
    + unfold c4. rewrite setTokenId_trace. rewrite ?emit_heap, ?emit_lids, ?emit_stable, ?emit_trace. unfold c3. rewrite merged_trace, Htr2.
      by rewrite <- app_assoc.
    + unfold c4. rewrite typeIndex_setTokenId, typeIndex_emit. apply merged_ko_id.
    + done.
    + intros Hn Hne. rewrite (getOrCreate_by_id c4 ty "3" a); [done..|].
      rewrite Hn. unfold c4. rewrite typeIndex_setTokenId, typeIndex_emit. apply merged_ko_id.
    + split; [|split].
      * unfold c4. rewrite setTokenId_stable. rewrite ?emit_heap, ?emit_lids, ?emit_stable, ?emit_trace. unfold c3.
        rewrite merged_stable, Hst2. apply elem_of_difference. split; [done|].
        by intros ->%elem_of_singleton.
      * unfold c4. rewrite setTokenId_length. rewrite ?emit_heap, ?emit_lids, ?emit_stable, ?emit_trace. unfold c3. rewrite merged_heap. lia.
      * unfold c4. rewrite tok_setTokenId_lid, setTokenId_lids, tok_emit, emit_lids.
        rewrite Htok3. unfold c3. rewrite merged_lids, Htok2, Hlids2.
        by rewrite lookup_delete_ne.
    + unfold c4. rewrite setTokenId_lids. rewrite ?emit_heap, ?emit_lids, ?emit_stable, ?emit_trace. unfold c3.
      rewrite merged_lids, Htok2, Hlids2. apply lookup_delete_eq.
    + unfold c4. rewrite typeIndex_setTokenId, typeIndex_emit. unfold c3.
      rewrite merged_ko_lid, forgotten_ko_lid, Htok2. fold ty.
      rewrite decide_True by done. apply lookup_delete_eq.
    + unfold isStableIdentifier. apply bool_decide_eq_false.
      unfold c4. rewrite setTokenId_stable. rewrite ?emit_heap, ?emit_lids, ?emit_stable, ?emit_trace. unfold c3. rewrite merged_stable.
      intros Hx. apply elem_of_difference in Hx as [_ Hx]. apply Hx.
      by apply elem_of_singleton.
  - (* the updated identifier is kept *)
    assert (loser = a) as -> by (unfold loser; by rewrite decide_False).
    rewrite (bool_decide_true (Some b = Some b)) in Hc' by done.
    set (c3 := merged ty b a data "3" b a c2) in *.
    assert (∀ x, tok c3 x = tok c x) as Htok3
      by (intros x; unfold c3; by rewrite merged_tok).
    set (c3' := warned DEBUG b (Some "3") c3) in *.
    assert (trace c3' = trace c3 ++ (if DEBUG then [EvWarnId b (Some "3")] else [])) as Htr3.
    { unfold c3', warned. rewrite Htok3, Hidb.
      rewrite (bool_decide_true (is_Some (Some k))) by eauto.
      rewrite (bool_decide_false (Some k = Some "3")) by congruence.
      destruct DEBUG; cbn [andb negb]; [by rewrite emit_trace|]. by rewrite app_nil_r. }
    set (c4 := setTokenId b (Some "3") (emit (EvUpdate b data') c3')) in *.
    assert (length (heap c3') = length (heap c)) as Hlen3.
    { unfold c3'. rewrite warned_heap. unfold c3. rewrite merged_heap. lia. }
    assert (tk_id (tok c4 b) = Some "3") as Hid4.
    { unfold c4. rewrite tok_setTokenId_id; [done|]. rewrite emit_heap. lia. }
    assert (tk_type (tok c4 b) = ty) as Hty4.
    { unfold c4. rewrite tok_setTokenId_type, tok_emit. unfold c3'.
      by rewrite warned_tok, Htok3. }
    rewrite Hidb in Hc'. rewrite (settled_changed b k "3" c4 Hid4 Hk) in Hc'.
    rewrite Hty4 in Hc'. subst c'.
    rewrite (bool_decide_true (b = b)) by done. rewrite andb_true_r.
    assert (∀ ty', typeIndex c4 ty' = typeIndex c3 ty') as Hidx4.
    { intros ty'. unfold c4. rewrite typeIndex_setTokenId, typeIndex_emit.
      unfold c3'. by rewrite typeIndex_warned. }
    split; [|split; [|split; [|split; [|split; [|split; [|split]]]]]].
    + rewrite !with_index_trace, ensureIndex_trace. unfold c4.
      rewrite setTokenId_trace, emit_trace, Htr3. unfold c3.
      rewrite merged_trace, Htr2. by rewrite <- !app_assoc.
    + rewrite !typeIndex_with_index_eq. simpl.
      rewrite lookup_delete_ne by done. apply lookup_insert_eq.
    + by rewrite !tok_with_index, tok_ensureIndex.
    + intros Hn Hne. rewrite (getOrCreate_by_id _ ty "3" b); [done..|].
      rewrite Hn, !typeIndex_with_index_eq. simpl.
      rewrite lookup_delete_ne by done. apply lookup_insert_eq.
    + split; [|split].
      * rewrite !with_index_stable, ensureIndex_stable. unfold c4.
        rewrite setTokenId_stable. rewrite ?emit_heap, ?emit_lids, ?emit_stable, ?emit_trace. unfold c3'. rewrite warned_stable. unfold c3.
        rewrite merged_stable, Hst2. apply elem_of_difference. split; [done|].
        intros Hx%elem_of_singleton. by apply Hab.
      * rewrite !with_index_heap, ensureIndex_heap. unfold c4.
        rewrite setTokenId_length, emit_heap. lia.
      * rewrite !tok_with_index, tok_ensureIndex, !with_index_lids, ensureIndex_lids.
        unfold c4. rewrite tok_setTokenId_lid, setTokenId_lids, tok_emit, emit_lids.
        unfold c3'. rewrite warned_tok, warned_lids, Htok3. unfold c3.
        rewrite merged_lids, Htok2, Hlids2. by rewrite lookup_delete_ne.
    + rewrite !with_index_lids, ensureIndex_lids. unfold c4. rewrite setTokenId_lids. simpl.
      unfold c3'. rewrite warned_lids. unfold c3.
      rewrite merged_lids, Htok2, Hlids2. apply lookup_delete_eq.
    + rewrite !typeIndex_with_index_eq. simpl. rewrite typeIndex_ensureIndex, Hidx4.
      unfold c3. rewrite merged_ko_lid, forgotten_ko_lid, Htok2, Hty. fold ty.
      rewrite decide_True by done. apply lookup_delete_eq.
    + unfold isStableIdentifier. apply bool_decide_eq_false.
      rewrite !with_index_stable, ensureIndex_stable. unfold c4.
      rewrite setTokenId_stable. rewrite ?emit_heap, ?emit_lids, ?emit_stable, ?emit_trace. unfold c3'. rewrite warned_stable. unfold c3.
      rewrite merged_stable.
      intros Hx. apply elem_of_difference in Hx as [_ Hx]. apply Hx.
      by apply elem_of_singleton.
Qed.

End Properties.

(** * Further properties of the cache *)

Arguments thrown : simpl never.

Section Coverage.

Context `{Env}.

(** ** Peeking *)

(** X1. [peekRecordIdentifier] never creates, files, unmarks or reports
    anything: after it, whether it returned or threw, the objects, the
    marks, the global table, the tables and list of every type, the merge
    method and the trace of callback calls are what they were.  (What it
    may leave behind is the empty index of a type and one more call of the
    generation method.) *)
Theorem peek_changes_no_table (r : Ref) (c : IdentifierCache) :
  let c' := after (peekRecordIdentifier r) c in
  heap c' = heap c ∧ stable c' = stable c ∧ lids c' = lids c
  ∧ (∀ ty, typeIndex c' ty = typeIndex c ty)
  ∧ trace c' = trace c ∧ _merge c' = _merge c ∧ _generate c' = _generate c
  ∧ (generated c' = generated c ∨ generated c' = S (generated c)).
Proof.
  unfold after, peekRecordIdentifier. cbn zeta.
  destruct (resolve_spec r false c); try discriminate;
    repeat split; intros; autorewrite with cache; auto.
Qed.

(** What [peekRecordIdentifier] says about the call of
    [getOrCreateRecordIdentifier] with the same argument on the same
    cache: both run the same lookups. *)
Lemma peek_and_resolve r c :
  match (_getRecordIdentifier r false c).1 with
  | Return (Some a) =>
      (_getRecordIdentifier r true c).1 = Return (Some a)
      ∧ heap (_getRecordIdentifier r true c).2 = heap c
  | Return None =>
      truthy (r_type (data_of c r)) && truthy (r_id (data_of c r)) = true →
      ((_getRecordIdentifier r true c).1 = Return (Some (length (heap c)))
       ∧ length (heap (_getRecordIdentifier r true c).2) = S (length (heap c)))
      ∨ (DEBUG = true ∧ (_getRecordIdentifier r true c).1 = Throw ErrTypeChanged)
  | Throw e =>
      (_getRecordIdentifier r true c).1 = Throw e
      ∧ (e = ErrLidChanged ∨ (DEBUG = true ∧ e = ErrNotInStore))
  end.
Proof.
  unfold _getRecordIdentifier, createAndIndex.
  unfold bind, get, ret, throw, modify, getTypeIndex, makeStableRecordIdentifier, generate.
  cbn beta iota.
  destruct (isStableIdentifier c r) eqn:Hst.
  { destruct r as [a|d]; [|done].
    destruct DEBUG; simpl; [|done].
    destruct (bool_decide _); simpl; auto. }
  set (d := data_of c r).
  destruct (coerceId (r_lid d) ≫= (λ l, lids c !! l)) as [a|] eqn:Hl; [done|].
  destruct (truthy (r_type d) && truthy (r_id d)) eqn:Ht; simpl; [|done].
  assert (isNonEmptyString (r_type d) = true) as ->.
  { apply andb_true_iff in Ht as [Ht _]. exact Ht. }
  simpl. rewrite !typeIndex_ensureIndex.
  set (ty := normalizeModelName (str_of (r_type d))).
  destruct (indexLookup (typeIndex c ty) (coerceId (r_lid d)) (coerceId (r_id d)))
    as [a|] eqn:Hix; simpl.
  { split; [done|]. by rewrite ensureIndex_heap. }
  rewrite ensureIndex_generate, ensureIndex_generated.
  set (newLid := _generate c d (generated c)).
  destruct (bool_decide (is_Some (coerceId (r_lid d)))
            && negb (bool_decide (coerceId (r_lid d) = Some newLid))); simpl; [auto|].
  destruct (generatedLookup (typeIndex c ty) (coerceId (r_lid d)) newLid) as [e|] eqn:Hg;
    simpl.
  { split; [done|]. unfold registerId.
    destruct (tk_id _); rewrite ?with_index_heap; simpl; by rewrite ensureIndex_heap. }
  intros _. rewrite ensureIndex_lids, ensureIndex_heap.
  destruct DEBUG; simpl.
  - destruct (bool_decide (is_Some (lids c !! newLid))); simpl; [by right|].
    left. split; [done|]. unfold registerId.
    destruct (tk_id _); rewrite ?with_index_heap, heap_insertIdentifier, allocate_heap,
      length_app; simpl; rewrite ?ensureIndex_heap; lia.
  - left. split; [done|]. unfold registerId.
    destruct (tk_id _); rewrite ?with_index_heap, heap_insertIdentifier, allocate_heap,
      length_app; simpl; rewrite ?ensureIndex_heap; lia.
Qed.


(** X2. What [peekRecordIdentifier] finds is what
    [getOrCreateRecordIdentifier] returns: when a peek returns an
    identifier, the resolution of the same argument on the same cache
    returns that identifier and creates no object. *)
Theorem peek_finds_what_getOrCreate_returns (r : Ref) (c : IdentifierCache) (a : addr) :
  (peekRecordIdentifier r c).1 = Return (Some a) →
  (getOrCreateRecordIdentifier r c).1 = Return a
  ∧ heap (after (getOrCreateRecordIdentifier r) c) = heap c.
Proof.
  intros Hp. unfold peekRecordIdentifier in Hp.
  pose proof (peek_and_resolve r c) as Hr. rewrite Hp in Hr. destruct Hr as [Hr Hh].
  rewrite getOrCreate_after. split; [|done].
  unfold getOrCreateRecordIdentifier, bind.
  destruct (_getRecordIdentifier r true c) as [o c']. simpl in Hr. by subst o.
Qed.

(** X3. A peek that finds nothing for data with a type and an external key
    means that the resolution will not return a known identifier: on the
    same cache [getOrCreateRecordIdentifier] creates one new object and
    returns it, or, in a DEBUG build, throws because the generated [lid] is
    taken in the global table. *)
Theorem peek_absent_means_getOrCreate_creates (r : Ref) (c : IdentifierCache) :
  (peekRecordIdentifier r c).1 = Return None →
  truthy (r_type (data_of c r)) && truthy (r_id (data_of c r)) = true →
  ((getOrCreateRecordIdentifier r c).1 = Return (length (heap c))
   ∧ length (heap (after (getOrCreateRecordIdentifier r) c)) = S (length (heap c)))
  ∨ (DEBUG = true ∧ (getOrCreateRecordIdentifier r c).1 = Throw ErrTypeChanged).
Proof.
  intros Hp Ht. unfold peekRecordIdentifier in Hp.
  pose proof (peek_and_resolve r c) as Hr. rewrite Hp in Hr. specialize (Hr Ht).
  rewrite getOrCreate_after.
  unfold getOrCreateRecordIdentifier, bind.
  destruct (_getRecordIdentifier r true c) as [o c']. simpl in Hr |- *.
  destruct Hr as [[-> Hh]|[HD ->]]; [by left|by right].
Qed.

(** ** Calls that throw *)

Lemma resolve_Throw r sg c e :
  (_getRecordIdentifier r sg c).1 = Throw e →
  sameTables c (_getRecordIdentifier r sg c).2
  ∧ trace (_getRecordIdentifier r sg c).2 = trace c
  ∧ (e = ErrTypeAssert ∨ e = ErrLidChanged
     ∨ (DEBUG = true ∧ (e = ErrNotInStore ∨ e = ErrTypeChanged))).
Proof.
  unfold sameTables.
  destruct (resolve_spec r sg c); try discriminate; intros [= <-];
    repeat split; intros; autorewrite with cache; auto.
Qed.

Lemma resolve_true_Some r c : (_getRecordIdentifier r true c).1 ≠ Return None.
Proof. destruct (resolve_spec r true c); discriminate. Qed.

Lemma getOrCreate_Throw r c e :
  (getOrCreateRecordIdentifier r c).1 = Throw e →
  (_getRecordIdentifier r true c).1 = Throw e.
Proof.
  pose proof (resolve_true_Some r c) as Hn.
  unfold getOrCreateRecordIdentifier, bind, ret, throw.
  destruct (_getRecordIdentifier r true c) as [[[a|]|e'] c']; simpl in *; congruence.
Qed.

Lemma forget_Throw r c e :
  (forgetRecordIdentifier r c).1 = Throw e →
  (getOrCreateRecordIdentifier r c).1 = Throw e
  ∧ after (forgetRecordIdentifier r) c = after (getOrCreateRecordIdentifier r) c.
Proof.
  unfold after, forgetRecordIdentifier, bind.
  destruct (getOrCreateRecordIdentifier r c) as [[a|e'] c']; simpl; [done|].
  by intros [= ->].
Qed.



(** ** The fields of an identifier that no call changes *)

Lemma tok_setTokenId_origin a i c b :
  tk_clientOriginated (tok (setTokenId a i c) b) = tk_clientOriginated (tok c b).
Proof.
  destruct (decide (a = b)) as [<-|Hne]; [|by rewrite tok_setTokenId_ne].
  unfold tok, setTokenId. simpl.
  destruct (decide (a < length (heap c))).
  - by rewrite list_lookup_insert_eq.
  - by rewrite list_insert_ge by lia.
Qed.

Lemma extends_refl c : extends c c.
Proof. split; [done|]. by intros. Qed.

Lemma extends_step c0 c c' :
  length (heap c) ≤ length (heap c') →
  (∀ a, a < length (heap c) →
     tk_lid (tok c' a) = tk_lid (tok c a) ∧ tk_type (tok c' a) = tk_type (tok c a)
     ∧ tk_clientOriginated (tok c' a) = tk_clientOriginated (tok c a)) →
  extends c0 c → extends c0 c'.
Proof.
  intros Hlen Htok [Hl Hf]. split; [lia|]. intros a Ha.
  destruct (Hf a Ha) as (<- & <- & <-). apply Htok. lia.
Qed.

Lemma extends_same_heap c0 c c' : heap c' = heap c → extends c0 c → extends c0 c'.
Proof.
  intros Hh. apply extends_step; [by rewrite Hh|]. intros a _. unfold tok. by rewrite Hh.
Qed.

Lemma extends_ensureIndex c0 ty c : extends c0 c → extends c0 (ensureIndex ty c).
Proof. apply extends_same_heap, ensureIndex_heap. Qed.
Lemma extends_asked c0 ty c : extends c0 c → extends c0 (asked ty c).
Proof. apply extends_same_heap, asked_heap. Qed.
Lemma extends_emit c0 e c : extends c0 c → extends c0 (emit e c).
Proof. by apply extends_same_heap. Qed.
Lemma extends_unmark c0 r c : extends c0 c → extends c0 (unmarkStableIdentifier r c).
Proof. apply extends_same_heap, unmark_heap. Qed.
Lemma extends_with_merge c0 m c : extends c0 c → extends c0 (with_merge m c).
Proof. by apply extends_same_heap. Qed.
Lemma extends_with_generated c0 n c : extends c0 c → extends c0 (with_generated n c).
Proof. by apply extends_same_heap. Qed.
Lemma extends_with_index c0 ty f c : extends c0 c → extends c0 (with_index ty f c).
Proof. by apply extends_same_heap. Qed.
Lemma extends_insertIdentifier c0 ty L a c :
  extends c0 c → extends c0 (insertIdentifier ty L a c).
Proof. by apply extends_same_heap. Qed.
Lemma extends_removeIdentifier c0 a t c :
  extends c0 c → extends c0 (removeIdentifier a t c).
Proof. apply extends_same_heap, heap_removeIdentifier. Qed.
Lemma extends_registerId c0 ty a c : extends c0 c → extends c0 (registerId ty a c).
Proof. unfold registerId. destruct (tk_id _); [|done]. by apply extends_same_heap. Qed.

Lemma extends_allocate c0 t c : extends c0 c → extends c0 (allocate t c).
Proof.
  apply extends_step.
  - rewrite allocate_heap, length_app. lia.
  - intros a Ha. by rewrite tok_allocate_old.
Qed.

Lemma extends_setTokenId c0 a i c : extends c0 c → extends c0 (setTokenId a i c).
Proof.
  apply extends_step.
  - by rewrite setTokenId_length.
  - intros b _. by rewrite tok_setTokenId_lid, tok_setTokenId_type, tok_setTokenId_origin.
Qed.

Create HintDb extends.

#[local] Hint Resolve extends_ensureIndex extends_asked extends_emit extends_unmark
  extends_with_merge extends_with_generated extends_with_index extends_insertIdentifier
  extends_removeIdentifier extends_registerId extends_allocate extends_setTokenId : extends.

Lemma extends_resolve c0 r sg : preserves (extends c0) (_getRecordIdentifier r sg).
Proof. intros c Hc. unfold after. destruct (resolve_spec r sg c); eauto 6 with extends. Qed.

Lemma extends_getOrCreate c0 r : preserves (extends c0) (getOrCreateRecordIdentifier r).
Proof. unfold getOrCreateRecordIdentifier. preserve. apply extends_resolve. Qed.

Lemma extends_createForNew c0 d : preserves (extends c0) (createIdentifierForNewRecord d).
Proof.
  intros c Hc. unfold after, createIdentifierForNewRecord.
  unfold bind, generate, makeStableRecordIdentifier, getTypeIndex, modify, get, throw, ret.
  simpl. destruct (DEBUG && _); simpl; eauto 6 with extends.
Qed.

Lemma extends_forget c0 r : preserves (extends c0) (forgetRecordIdentifier r).
Proof.
  unfold forgetRecordIdentifier, getTypeIndex. preserve; eauto with extends.
  apply extends_getOrCreate.
Qed.

Lemma extends_detectMerge c0 a d i : preserves (extends c0) (detectMerge a d i).
Proof. unfold detectMerge, getTypeIndex. preserve; eauto with extends. Qed.

Lemma extends_perform c0 a d : preserves (extends c0) (performRecordIdentifierUpdate a d).
Proof. unfold performRecordIdentifierUpdate. preserve; eauto with extends. Qed.

Lemma extends_merge c0 ty a e d i :
  preserves (extends c0) (_mergeRecordIdentifiers ty a e d i).
Proof.
  unfold _mergeRecordIdentifiers, getTypeIndex. preserve; eauto with extends.
  apply extends_forget.
Qed.

Lemma extends_update c0 r d : preserves (extends c0) (updateRecordIdentifier r d).
Proof.
  unfold updateRecordIdentifier, getTypeIndex.
  preserve; eauto using extends_getOrCreate, extends_detectMerge, extends_merge,
    extends_perform with extends.
Qed.

Lemma extends_exec c0 c o : extends c0 c → extends c0 (exec c o).
Proof.
  destruct o; simpl.
  - apply extends_getOrCreate.
  - apply extends_resolve.
  - apply extends_createForNew.
  - apply extends_update.
  - apply extends_forget.
  - unfold __configureMerge. intros ?. by apply extends_with_merge.
Qed.

Lemma extends_run c0 ops c : extends c0 c → extends c0 (run ops c).
Proof.
  revert c. induction ops as [|o ops IH]; intros c Hc; [done|].
  simpl. apply IH. by apply extends_exec.
Qed.


(** ** Only an update changes an identifier *)

Lemma unchanged_refl c : unchanged c c.
Proof. split; [done|]. by intros. Qed.

Lemma unchanged_step c0 c c' :
  length (heap c) ≤ length (heap c') →
  (∀ a, a < length (heap c) → tok c' a = tok c a) →
  unchanged c0 c → unchanged c0 c'.
Proof.
  intros Hlen Htok [Hl Hf]. split; [lia|]. intros a Ha.
  rewrite <- (Hf a Ha). apply Htok. lia.
Qed.

Lemma unchanged_same_heap c0 c c' : heap c' = heap c → unchanged c0 c → unchanged c0 c'.
Proof.
  intros Hh. apply unchanged_step; [by rewrite Hh|]. intros a _. unfold tok. by rewrite Hh.
Qed.

Lemma unchanged_ensureIndex c0 ty c : unchanged c0 c → unchanged c0 (ensureIndex ty c).
Proof. apply unchanged_same_heap, ensureIndex_heap. Qed.
Lemma unchanged_asked c0 ty c : unchanged c0 c → unchanged c0 (asked ty c).
Proof. apply unchanged_same_heap, asked_heap. Qed.
Lemma unchanged_emit c0 e c : unchanged c0 c → unchanged c0 (emit e c).
Proof. by apply unchanged_same_heap. Qed.
Lemma unchanged_unmark c0 r c : unchanged c0 c → unchanged c0 (unmarkStableIdentifier r c).
Proof. apply unchanged_same_heap, unmark_heap. Qed.
Lemma unchanged_with_merge c0 m c : unchanged c0 c → unchanged c0 (with_merge m c).
Proof. by apply unchanged_same_heap. Qed.
Lemma unchanged_with_generated c0 n c : unchanged c0 c → unchanged c0 (with_generated n c).
Proof. by apply unchanged_same_heap. Qed.
Lemma unchanged_insertIdentifier c0 ty L a c :
  unchanged c0 c → unchanged c0 (insertIdentifier ty L a c).
Proof. by apply unchanged_same_heap. Qed.
Lemma unchanged_removeIdentifier c0 a t c :
  unchanged c0 c → unchanged c0 (removeIdentifier a t c).
Proof. apply unchanged_same_heap, heap_removeIdentifier. Qed.
Lemma unchanged_registerId c0 ty a c : unchanged c0 c → unchanged c0 (registerId ty a c).
Proof. unfold registerId. destruct (tk_id _); [|done]. by apply unchanged_same_heap. Qed.
Lemma unchanged_allocate c0 t c : unchanged c0 c → unchanged c0 (allocate t c).
Proof.
  apply unchanged_step.
  - rewrite allocate_heap, length_app. lia.
  - intros a Ha. by rewrite tok_allocate_old.
Qed.

Create HintDb unchanged.

#[local] Hint Resolve unchanged_ensureIndex unchanged_asked unchanged_emit unchanged_unmark
  unchanged_with_merge unchanged_with_generated unchanged_insertIdentifier
  unchanged_removeIdentifier unchanged_registerId unchanged_allocate : unchanged.

Lemma unchanged_resolve c0 r sg : preserves (unchanged c0) (_getRecordIdentifier r sg).
Proof. intros c Hc. unfold after. destruct (resolve_spec r sg c); eauto 6 with unchanged. Qed.

Lemma unchanged_getOrCreate c0 r : preserves (unchanged c0) (getOrCreateRecordIdentifier r).
Proof. unfold getOrCreateRecordIdentifier. preserve. apply unchanged_resolve. Qed.

Lemma unchanged_createForNew c0 d :
  preserves (unchanged c0) (createIdentifierForNewRecord d).
Proof.
  intros c Hc. unfold after, createIdentifierForNewRecord.
  unfold bind, generate, makeStableRecordIdentifier, getTypeIndex, modify, get, throw, ret.
  simpl. destruct (DEBUG && _); simpl; eauto 6 with unchanged.
Qed.

Lemma unchanged_forget c0 r : preserves (unchanged c0) (forgetRecordIdentifier r).
Proof.
  unfold forgetRecordIdentifier, getTypeIndex. preserve; eauto with unchanged.
  apply unchanged_getOrCreate.
Qed.

Lemma unchanged_exec c0 c o : isUpdate o = false → unchanged c0 c → unchanged c0 (exec c o).
Proof.
  intros Ho. destruct o; simpl; try done.
  - apply unchanged_getOrCreate.
  - apply unchanged_resolve.
  - apply unchanged_createForNew.
  - apply unchanged_forget.
Qed.

Lemma unchanged_run c0 ops c :
  forallb (λ o, negb (isUpdate o)) ops = true → unchanged c0 c → unchanged c0 (run ops c).
Proof.
  revert c. induction ops as [|o ops IH]; intros c Hops Hc; [done|].
  simpl in *. apply andb_true_iff in Hops as [Ho Hops]. apply negb_true_iff in Ho.
  apply IH; [done|]. by apply unchanged_exec.
Qed.

(** X6. Only [updateRecordIdentifier] changes an identifier: after any
    calls of the other methods, every object of the cache has the fields
    it had, the external key included. *)
Theorem only_an_update_changes_an_identifier
    (c : IdentifierCache) (ops : list Op) (a : addr) :
  forallb (λ o, negb (isUpdate o)) ops = true →
  a < length (heap c) →
  tok (run ops c) a = tok c a.
Proof.
  intros Hops Ha. destruct (unchanged_run c ops c Hops (unchanged_refl c)) as [_ Hf].
  by apply Hf.
Qed.


(** ** The lists of all identifiers *)

Lemma sublist_removelast (l : list addr) : removelast l `sublist_of` l.
Proof.
  induction l as [|x l IH]; [done|]. simpl.
  destruct l; [by apply sublist_nil_l|]. by apply sublist_skip.
Qed.

Lemma sublist_spliceOut a l : spliceOut a l `sublist_of` l.
Proof.
  unfold spliceOut. destruct (indexOf a l); [apply sublist_delete|apply sublist_removelast].
Qed.

(** A step that adds nothing to a list, drops no object and leaves the
    types of the objects alone keeps the lists well formed. *)
Lemma listed_shrink c c' :
  length (heap c) ≤ length (heap c') →
  (∀ a, a < length (heap c) → tk_type (tok c' a) = tk_type (tok c a)) →
  (∀ ty, allIdentifiers (typeIndex c' ty) `sublist_of` allIdentifiers (typeIndex c ty)) →
  listed c → listed c'.
Proof.
  intros Hlen Htok Hsub Hc ty. destruct (Hc ty) as [Hnd Hin]. split.
  - by apply (sublist_NoDup _ _ Hnd).
  - intros a Ha. destruct (Hin a (elem_of_sublist _ _ _ Ha (Hsub ty))) as [Hlt Hty].
    split; [lia|]. by rewrite Htok.
Qed.

Lemma listed_same_heap c c' :
  heap c' = heap c →
  (∀ ty, allIdentifiers (typeIndex c' ty) `sublist_of` allIdentifiers (typeIndex c ty)) →
  listed c → listed c'.
Proof.
  intros Hh. apply listed_shrink; [by rewrite Hh|]. intros a _. unfold tok. by rewrite Hh.
Qed.

Lemma listed_ensureIndex ty c : listed c → listed (ensureIndex ty c).
Proof.
  apply listed_same_heap; [apply ensureIndex_heap|]. intros. by rewrite typeIndex_ensureIndex.
Qed.
Lemma listed_asked ty c : listed c → listed (asked ty c).
Proof. apply listed_same_heap; [apply asked_heap|]. intros. by rewrite typeIndex_asked. Qed.
Lemma listed_emit e c : listed c → listed (emit e c).
Proof. by apply listed_same_heap. Qed.
Lemma listed_unmark r c : listed c → listed (unmarkStableIdentifier r c).
Proof.
  apply listed_same_heap; [apply unmark_heap|]. intros. by rewrite typeIndex_unmark.
Qed.
Lemma listed_with_merge m c : listed c → listed (with_merge m c).
Proof. by apply listed_same_heap. Qed.
Lemma listed_with_generated n c : listed c → listed (with_generated n c).
Proof. by apply listed_same_heap. Qed.
Lemma listed_with_lids l c : listed c → listed (with_lids l c).
Proof. by apply listed_same_heap. Qed.

Lemma listed_with_index ty f c :
  (∀ ko, allIdentifiers (f ko) `sublist_of` allIdentifiers ko) →
  listed c → listed (with_index ty f c).
Proof.
  intros Hf. apply listed_same_heap; [done|]. intros ty'.
  rewrite typeIndex_with_index. by destruct (decide (ty = ty')) as [<-|].
Qed.

Lemma listed_registerId ty a c : listed c → listed (registerId ty a c).
Proof.
  unfold registerId. destruct (tk_id _); [|done]. by apply listed_with_index.
Qed.

Lemma listed_removeIdentifier a t c : listed c → listed (removeIdentifier a t c).
Proof.
  intros Hc. unfold removeIdentifier.
  apply listed_with_index; [intros; apply sublist_spliceOut|].
  apply listed_with_index; [done|]. apply listed_with_lids.
  destruct (tk_id t); [|done]. by apply listed_with_index.
Qed.

Lemma listed_setTokenId a i c : listed c → listed (setTokenId a i c).
Proof.
  apply listed_shrink.
  - by rewrite setTokenId_length.
  - intros b _. by rewrite tok_setTokenId_type.
  - done.
Qed.

Lemma listed_allocate t c : listed c → listed (allocate t c).
Proof.
  apply listed_shrink.
  - rewrite allocate_heap, length_app. lia.
  - intros a Ha. by rewrite tok_allocate_old.
  - done.
Qed.

(** Entering an object that is in no list yet. *)
Lemma listed_insertIdentifier ty L a c :
  a < length (heap c) → tk_type (tok c a) = ty →
  a ∉ allIdentifiers (typeIndex c ty) →
  listed c → listed (insertIdentifier ty L a c).
Proof.
  intros Ha Hty Hnew Hc ty'. rewrite typeIndex_insertIdentifier.
  rewrite heap_insertIdentifier. setoid_rewrite tok_insertIdentifier.
  destruct (decide (ty = ty')) as [<-|]; [|apply Hc]. simpl.
  destruct (Hc ty) as [Hnd Hin]. split.
  - apply NoDup_app. split; [done|]. split; [|apply NoDup_singleton].
    intros x Hx Hxa. apply list_elem_of_singleton in Hxa. by subst x.
  - intros x Hx. apply elem_of_app in Hx as [Hx|Hx]; [by apply Hin|].
    apply list_elem_of_singleton in Hx. by subst x.
Qed.

(** Entering an object just made. *)
Lemma listed_insert_new ty L t c :
  tk_type t = ty → listed c →
  listed (insertIdentifier ty L (length (heap c)) (allocate t c)).
Proof.
  intros Hty Hc. apply listed_insertIdentifier.
  - rewrite allocate_heap, length_app. simpl. lia.
  - by rewrite tok_allocate_new.
  - rewrite typeIndex_allocate. intros Hin. apply (Hc ty) in Hin as [Hlt _]. lia.
  - by apply listed_allocate.
Qed.

Lemma listed_new g : listed (newIdentifierCache g).
Proof.
  intros ty. unfold typeIndex. simpl. rewrite lookup_empty. simpl.
  split; [apply NoDup_nil_2|]. intros a Ha. by apply elem_of_nil in Ha.
Qed.

Create HintDb listed.

#[local] Hint Resolve listed_ensureIndex listed_asked listed_emit listed_unmark
  listed_with_merge listed_with_generated listed_registerId listed_removeIdentifier
  listed_setTokenId listed_allocate : listed.

Lemma listed_resolve r sg : preserves listed (_getRecordIdentifier r sg).
Proof.
  intros c Hc. unfold after.
  destruct (resolve_spec r sg c); eauto with listed.
  apply listed_registerId.
  rewrite <- (asked_heap ty c). apply listed_insert_new; [done|]. by apply listed_asked.
Qed.

Lemma listed_getOrCreate r : preserves listed (getOrCreateRecordIdentifier r).
Proof. unfold getOrCreateRecordIdentifier. preserve. apply listed_resolve. Qed.

Lemma listed_createForNew d : preserves listed (createIdentifierForNewRecord d).
Proof.
  intros c Hc. unfold after, createIdentifierForNewRecord.
  unfold bind, generate, makeStableRecordIdentifier, getTypeIndex, modify, get, throw, ret.
  simpl.
  set (t := mkToken _ _ _ _).
  destruct (DEBUG && _); simpl; eauto with listed.
  assert (listed (insertIdentifier (n_type d)
                    (_generate c (mkData (Str (n_type d)) (n_id d) Absent) (generated c))
                    (length (heap c))
                    (allocate t (ensureIndex (n_type d) (with_generated (S (generated c)) c)))))
    as Hl.
  { rewrite <- (ensureIndex_heap (n_type d) (with_generated (S (generated c)) c)) at 1.
    apply listed_insert_new; [done|]. by apply listed_ensureIndex, listed_with_generated. }
  intros ty. specialize (Hl ty). revert Hl.
  rewrite !typeIndex_insertIdentifier, !heap_insertIdentifier.
  setoid_rewrite tok_insertIdentifier.
  rewrite !typeIndex_ensureIndex, !typeIndex_allocate, !typeIndex_ensureIndex.
  rewrite ensureIndex_heap, !allocate_heap, ensureIndex_heap.
  unfold tok. by rewrite ensureIndex_heap, !allocate_heap, ensureIndex_heap.
Qed.

Lemma listed_forget r : preserves listed (forgetRecordIdentifier r).
Proof.
  unfold forgetRecordIdentifier, getTypeIndex. preserve; eauto with listed.
  apply listed_getOrCreate.
Qed.

Lemma listed_set_ko_id ty k v c : listed c → listed (with_index ty (set_ko_id k v) c).
Proof. by apply listed_with_index. Qed.

Lemma listed_del_ko_id ty k c : listed c → listed (with_index ty (del_ko_id k) c).
Proof. by apply listed_with_index. Qed.

#[local] Hint Resolve listed_set_ko_id listed_del_ko_id : listed.

Lemma listed_detectMerge a d i : preserves listed (detectMerge a d i).
Proof. unfold detectMerge, getTypeIndex. preserve; eauto with listed. Qed.

Lemma listed_perform a d : preserves listed (performRecordIdentifierUpdate a d).
Proof. unfold performRecordIdentifierUpdate. preserve; eauto with listed. Qed.

Lemma listed_merge ty a e d i : preserves listed (_mergeRecordIdentifiers ty a e d i).
Proof.
  unfold _mergeRecordIdentifiers, getTypeIndex. preserve; eauto with listed.
  apply listed_forget.
Qed.

Lemma listed_update r d : preserves listed (updateRecordIdentifier r d).
Proof.
  unfold updateRecordIdentifier, getTypeIndex.
  preserve; eauto using listed_getOrCreate, listed_detectMerge, listed_merge, listed_perform
    with listed.
Qed.

Lemma listed_exec c o : listed c → listed (exec c o).
Proof.
  destruct o; simpl.
  - apply listed_getOrCreate.
  - apply listed_resolve.
  - apply listed_createForNew.
  - apply listed_update.
  - apply listed_forget.
  - unfold __configureMerge. intros ?. by apply listed_with_merge.
Qed.

Lemma listed_run ops c : listed c → listed (run ops c).
Proof.
  revert c. induction ops as [|o ops IH]; intros c Hc; [done|].
  simpl. apply IH. by apply listed_exec.
Qed.

(** X7. The list of all identifiers of a type never holds an identifier
    twice, and holds objects of that type only: after any sequence of
    calls on a new cache, in any build and with any generation and merge
    method. *)
Theorem all_identifiers_are_listed_once
    (configured : option GenerationMethod) (ops : list Op) (ty : string) :
  let c := run ops (newIdentifierCache configured) in
  NoDup (allIdentifiers (typeIndex c ty))
  ∧ ∀ a, a ∈ allIdentifiers (typeIndex c ty) →
         a < length (heap c) ∧ tk_type (tok c a) = ty.
Proof. apply listed_run, listed_new. Qed.


(** ** The secondary tables *)

Lemma coherent_permitted ops c :
  forallb permitted ops = true → coherent c → coherent (run ops c).
Proof.
  revert c. induction ops as [|o ops IH]; intros c Hops Hc; [done|].
  cbn [forallb] in Hops. apply andb_true_iff in Hops as [Ho Hops].
  apply (IH (exec c o) Hops). by apply coherent_exec.
Qed.

(** X8. No two identifiers of a type's primary table share an external
    key: on a new cache, after any resolutions, peeks, new records without
    external key, changes of the merge method and (in a DEBUG build)
    forgets, an identifier of the primary table that has an external key
    is the entry of the secondary table for that key, so another
    identifier of the table with the same key is the same object. *)
Theorem indexed_identifiers_have_distinct_keys
    (configured : option GenerationMethod) (ops : list Op)
    (ty L1 L2 i : string) (e1 e2 : addr) :
  let c := run ops (newIdentifierCache configured) in
  forallb permitted ops = true →
  ko_lid (typeIndex c ty) !! L1 = Some e1 → tk_id (tok c e1) = Some i →
  ko_lid (typeIndex c ty) !! L2 = Some e2 → tk_id (tok c e2) = Some i →
  ko_id (typeIndex c ty) !! i = Some e1 ∧ e1 = e2.
Proof.
  intros c Hops H1 Hi1 H2 Hi2.
  destruct (coherent_permitted ops _ Hops (coherent_new configured)) as (_ & J & _).
  pose proof (J _ _ _ _ H1 Hi1) as Hr1. pose proof (J _ _ _ _ H2 Hi2) as Hr2.
  split; [done|]. unfold c in *. congruence.
Qed.

(** X9. In a DEBUG build, as long as no update is made, the secondary
    table of a type is sound: every entry [k -> t] of it has [t.id = k],
    and [t] is in the primary table of the type under its own [lid], hence
    of that type and in the global table. *)
Theorem secondary_table_is_sound_without_updates
    (configured : option GenerationMethod) (ops : list Op) (ty k : string) (t : addr) :
  let c := run ops (newIdentifierCache configured) in
  DEBUG = true →
  forallb (λ o, negb (isUpdate o)) ops = true →
  ko_id (typeIndex c ty) !! k = Some t →
  tk_id (tok c t) = Some k
  ∧ tk_type (tok c t) = ty
  ∧ ko_lid (typeIndex c ty) !! tk_lid (tok c t) = Some t
  ∧ lids c !! tk_lid (tok c t) = Some t.
Proof.
  intros c HD Hops Ht.
  assert (agreeing c) as ([_ K2] & A & S).
  { apply agreeing_run; [done..|]. apply agreeing_new. }
  destruct (S _ _ _ Ht) as [Hid Hl]. destruct (K2 _ _ _ Hl) as (_ & _ & Hty).
  split; [done|]. split; [done|]. split; [done|]. by apply A in Hl.
Qed.

End Coverage.

(** * Examples on concrete builds *)



(** Why forgets are among the permitted calls in a DEBUG build only: in a
    production build [getOrCreateRecordIdentifier] hands back any marked
    object without looking it up.  An identifier forgotten through its
    resource data stays marked ([forgetRecordIdentifier] unmarks its
    argument); forgetting it a second time, through the object, removes
    the entries of the identifier made for [person:1] in between, and
    [person:1] resolves to a third object. *)
Lemma forget_of_a_stale_identifier_in_production :
  let d := RefData (mkData (Str "person") (Str "1") Absent) in
  let c0 := @run prodBuild [OpGetOrCreate d; OpForget d] (@newIdentifierCache prodBuild None) in
  let c1 := after (@getOrCreateRecordIdentifier prodBuild d) c0 in
  let ops := [OpForget (RefToken 0)] in
  (@getOrCreateRecordIdentifier prodBuild d c0).1 = Return 1
  ∧ tk_id (tok c1 1) = Some "1"
  ∧ forallb (λ o, match o with OpForget _ => true | _ => false end) ops = true
  ∧ @spares prodBuild 1 ops c1 = true
  ∧ (@getOrCreateRecordIdentifier prodBuild d (@run prodBuild ops c1)).1 = Return 2
  ∧ (@getOrCreateRecordIdentifier devBuild (RefToken 0)
       (after (@getOrCreateRecordIdentifier devBuild d)
          (@run devBuild [OpGetOrCreate d; OpForget d] (@newIdentifierCache devBuild None)))).1
    = Throw ErrNotInStore.
Proof. vm_compute. repeat split. Qed.

(** Why a new record with an external key is not among the permitted
    calls: it is not filed under its key, so forgetting it removes the
    entry of the identifier that is.  With random lids, in a DEBUG build:
    [person:1] resolves to object 0, a new record [person:1] is object 1,
    object 1 is forgotten, and [person:1] resolves to a third object. *)
Lemma forget_of_a_new_record_with_the_same_key :
  let d := RefData (mkData (Str "person") (Str "1") Absent) in
  let c0 := @newIdentifierCache devBuild (Some randomLids) in
  let c1 := after (@getOrCreateRecordIdentifier devBuild d) c0 in
  let ops := [OpCreateForNew (mkNew "person" (Str "1")); OpForget (RefToken 1)] in
  (@getOrCreateRecordIdentifier devBuild d c0).1 = Return 0
  ∧ tk_id (tok c1 0) = Some "1"
  ∧ (@createIdentifierForNewRecord devBuild (mkNew "person" (Str "1")) c1).1 = Return 1
  ∧ @spares devBuild 0 ops c1 = true
  ∧ (@getOrCreateRecordIdentifier devBuild d (@run devBuild ops c1)).1 = Return 2.
Proof. vm_compute. repeat split. Qed.

(** C2, at the failing input: an identifier is resolved for [person:5] and
    then updated with data for the same local key whose external key is
    ["6"].  In both builds the update returns the same object with
    external key ["6"], files it under ["6"] in the secondary table and
    drops the entry for ["5"]; the DEBUG build gives the warning and goes
    on to replace the key all the same. *)
Lemma update_replaces_a_set_external_key (debug : bool) :
  let c0 := @newIdentifierCache (buildOf debug) None in
  let c1 := after (@getOrCreateRecordIdentifier (buildOf debug)
                     (RefData (mkData (Str "person") (Str "5") Absent))) c0 in
  let data := mkData (Str "person") (Str "6") (Str "@ember-data:lid-person-5") in
  let c2 := after (@updateRecordIdentifier (buildOf debug) (RefToken 0) data) c1 in
  tok c1 0 = mkToken "@ember-data:lid-person-5" (Some "5") "person" false
  ∧ (@updateRecordIdentifier (buildOf debug) (RefToken 0) data c1).1 = Return (0, data)
  ∧ tok c2 0 = mkToken "@ember-data:lid-person-5" (Some "6") "person" false
  ∧ ko_id (typeIndex c2 "person") !! "6" = Some 0
  ∧ ko_id (typeIndex c2 "person") !! "5" = None
  ∧ trace c2 = (if debug then [EvWarnId 0 (Some "6")] else []) ++ [EvUpdate 0 data].
Proof. destruct debug; vm_compute; repeat split. Qed.

(** C3, at the failing input: on a cache whose merge method was never
    configured, two identifiers are resolved for [tag:3] and [tag:4], and
    the second is updated with data for [tag:3].  In both builds the
    default callback is called and answers [undefined]; the updated
    identifier is forgotten as the loser, the entry for ["3"] is cleared,
    and the call throws on reading [kept.lid]. *)
Lemma default_merge_forgets_and_throws (debug : bool) :
  let c2 := @run (buildOf debug)
              [OpGetOrCreate (RefData (mkData (Str "tag") (Str "3") Absent));
               OpGetOrCreate (RefData (mkData (Str "tag") (Str "4") Absent))]
              (@newIdentifierCache (buildOf debug) None) in
  let data := mkData (Str "tag") (Str "3") Absent in
  let c3 := after (@updateRecordIdentifier (buildOf debug) (RefToken 1) data) c2 in
  bool_decide (live c2 0) = true
  ∧ bool_decide (live c2 1) = true
  ∧ (@updateRecordIdentifier (buildOf debug) (RefToken 1) data c2).1 = Throw ErrTypeError
  ∧ trace c3 = [EvMerge 1 0 data; EvForget 1]
  ∧ isStableIdentifier c3 (RefToken 1) = false
  ∧ lids c3 !! "@ember-data:lid-tag-4" = None
  ∧ allIdentifiers (typeIndex c3 "tag") = [0]
  ∧ ko_id (typeIndex c3 "tag") !! "3" = None.
Proof. destruct debug; vm_compute; repeat split. Qed.

(** C4, witness: a DEBUG cache whose merge method keeps the matched
    identifier; [tag:3] and [tag:4] are resolved (objects [0] and [1]) and
    the second is updated with data for [tag:3]. *)
Lemma merge_survivor_example :
  let c := @run devBuild
             [OpConfigureMerge (Some keepMatched);
              OpGetOrCreate (RefData (mkData (Str "tag") (Str "3") Absent));
              OpGetOrCreate (RefData (mkData (Str "tag") (Str "4") Absent))]
             (@newIdentifierCache devBuild None) in
  let data := mkData (Str "tag") (Str "3") Absent in
  let ty := tk_type (tok c 1) in
  let loser := if decide (0 = 0) then 1 else 0 in
  let c' := after (@updateRecordIdentifier devBuild (RefToken 1) data) c in
  let data' := mkData (r_type data) (r_id data) (Str (tk_lid (tok c 0))) in
  (@updateRecordIdentifier devBuild (RefToken 1) data c).1 = Return (0, data')
  ∧ trace c'
    = trace c ++ [EvMerge 1 0 data; EvForget loser]
      ++ (if @DEBUG devBuild && bool_decide (0 = 1) then [EvWarnId 1 (Some "3")] else [])
      ++ [EvUpdate 0 data']
  ∧ ko_id (typeIndex c' ty) !! "3" = Some 0
  ∧ tk_id (tok c' 0) = Some "3"
  ∧ (@normalizeModelName devBuild ty = ty → ty ≠ "" →
     (@getOrCreateRecordIdentifier devBuild
        (RefData (mkData (Str ty) (Str "3") Absent)) c').1 = Return 0)
  ∧ live c' 0
  ∧ lids c' !! tk_lid (tok c loser) = None
  ∧ ko_lid (typeIndex c' ty) !! tk_lid (tok c loser) = None
  ∧ isStableIdentifier c' (RefToken loser) = false.
Proof.
  intros c data.
  apply (@merge_survivor_consistency devBuild c 0 1 0 "4" data).
  - refine (bool_decide_eq_true_1 (live c 0) _). vm_compute. reflexivity.
  - refine (bool_decide_eq_true_1 (live c 1) _). vm_compute. reflexivity.
  - discriminate.
  - vm_compute. reflexivity.
  - vm_compute. reflexivity.
  - vm_compute. reflexivity.
  - vm_compute. reflexivity.
  - discriminate.
  - vm_compute. discriminate.
  - vm_compute. discriminate.
  - reflexivity.
  - right. vm_compute. reflexivity.
  - vm_compute. reflexivity.
  - left. reflexivity.
Defined.

(** C4, counterexample: the merge method is configured, [tag:3] is
    resolved, and the other identifier is a new record without external
    key.  Updating it with data for [tag:3] calls no merge method and
    forgets nothing: both identifiers stay live, both now hold the key
    ["3"], and the key resolves to the updated one. *)
Lemma no_merge_for_an_identifier_without_key :
  let c := @run devBuild
             [OpConfigureMerge (Some keepMatched);
              OpGetOrCreate (RefData (mkData (Str "tag") (Str "3") Absent));
              OpCreateForNew (mkNew "tag" Absent)]
             (@newIdentifierCache devBuild None) in
  let data := mkData (Str "tag") (Str "3") Absent in
  let c' := after (@updateRecordIdentifier devBuild (RefToken 1) data) c in
  bool_decide (live c 0) = true
  ∧ bool_decide (live c 1) = true
  ∧ tk_id (tok c 0) = Some "3" ∧ tk_type (tok c 0) = tk_type (tok c 1)
  ∧ (@updateRecordIdentifier devBuild (RefToken 1) data c).1 = Return (1, data)
  ∧ trace c' = [EvUpdate 1 data]
  ∧ bool_decide (live c' 0) = true
  ∧ bool_decide (live c' 1) = true
  ∧ tk_id (tok c' 0) = Some "3" ∧ tk_id (tok c' 1) = Some "3"
  ∧ (@getOrCreateRecordIdentifier devBuild
       (RefData (mkData (Str "tag") (Str "3") Absent)) c').1 = Return 1.
Proof. vm_compute. repeat split. Qed.



(** C6, witness: data with the local key ["L"] on a new DEBUG cache. *)
Lemma supplied_lid_example :
  let c := @newIdentifierCache devBuild None in
  let r := RefData (mkData (Str "person") (Str "1") (Str "L")) in
  let d := data_of c r in
  let ty := @normalizeModelName devBuild (str_of (r_type d)) in
  (∀ a, (@_getRecordIdentifier devBuild r true c).1 = Return (Some a) →
     tk_lid (tok (@_getRecordIdentifier devBuild r true c).2 a) = "L"
     ∨ (lids c !! "L" = None ∧ ko_lid (typeIndex c ty) !! "L" = None
        ∧ ∃ i, coerceId (r_id d) = Some i ∧ ko_id (typeIndex c ty) !! i = Some a))
  ∧ (∀ a, length (heap c) ≤ a < length (heap (@_getRecordIdentifier devBuild r true c).2) →
       tk_lid (tok (@_getRecordIdentifier devBuild r true c).2 a) = "L")
  ∧ (lids c !! "L" = None →
     isNonEmptyString (r_type d) = true →
     true = true ∨ truthy (r_id d) = true →
     indexLookup (typeIndex c ty) (Some "L") (coerceId (r_id d)) = None →
     _generate c d (generated c) ≠ "L" →
     (@_getRecordIdentifier devBuild r true c).1 = Throw ErrLidChanged
     ∧ heap (@_getRecordIdentifier devBuild r true c).2 = heap c).
Proof.
  intros c r.
  apply (@resolve_keeps_supplied_lid devBuild c r true "L").
  - apply keyed_new.
  - reflexivity.
  - reflexivity.
Defined.

(** C6, counterexample: [person:1] is resolved first; resolving data for
    [person:1] that carries the local key ["L"] then returns the existing
    identifier, whose local key is not ["L"]. *)
Lemma resolve_returns_another_lid :
  let c := after (@getOrCreateRecordIdentifier devBuild
                    (RefData (mkData (Str "person") (Str "1") Absent)))
             (@newIdentifierCache devBuild None) in
  let r := RefData (mkData (Str "person") (Str "1") (Str "L")) in
  (@getOrCreateRecordIdentifier devBuild r c).1 = Return 0
  ∧ tk_lid (tok (after (@getOrCreateRecordIdentifier devBuild r) c) 0)
    = "@ember-data:lid-person-1".
Proof. vm_compute. repeat split. Qed.

(** C7, at the failing input: [createIdentifierForNewRecord] with
    [{type: "person", id: "1"}] on a new cache, in both builds.  The new
    identifier holds the key ["1"] and is in the global table, the primary
    table and the list of its type, but the secondary table has no entry
    for ["1"].  With a generation method that draws random local keys, a
    resolution of [person:1] therefore makes a second object. *)
Lemma new_record_is_not_filed_under_its_key (debug : bool) :
  let c := after (@createIdentifierForNewRecord (buildOf debug) (mkNew "person" (Str "1")))
             (@newIdentifierCache (buildOf debug) None) in
  let c' := after (@createIdentifierForNewRecord (buildOf debug) (mkNew "person" (Str "1")))
              (@newIdentifierCache (buildOf debug) (Some randomLids)) in
  (@createIdentifierForNewRecord (buildOf debug) (mkNew "person" (Str "1"))
     (@newIdentifierCache (buildOf debug) None)).1 = Return 0
  ∧ tok c 0 = mkToken "@ember-data:lid-person-1" (Some "1") "person" true
  ∧ lids c !! "@ember-data:lid-person-1" = Some 0
  ∧ ko_lid (typeIndex c "person") !! "@ember-data:lid-person-1" = Some 0
  ∧ allIdentifiers (typeIndex c "person") = [0]
  ∧ ko_id (typeIndex c "person") !! "1" = None
  ∧ tok c' 0 = mkToken "uuid-" (Some "1") "person" true
  ∧ ko_id (typeIndex c' "person") !! "1" = None
  ∧ (@getOrCreateRecordIdentifier (buildOf debug)
       (RefData (mkData (Str "person") (Str "1") Absent)) c').1 = Return 1.
Proof. destruct debug; vm_compute; repeat split. Qed.

(** C8, witness: the round trip on a new DEBUG cache. *)
Lemma new_record_round_trip_example :
  let c := @newIdentifierCache devBuild None in
  let t := length (heap c) in
  let c1 := after (@createIdentifierForNewRecord devBuild (mkNew "person" Absent)) c in
  let c2 := after (@updateRecordIdentifier devBuild (RefToken t)
                     (mkData Absent (Str "42") Absent)) c1 in
  (@createIdentifierForNewRecord devBuild (mkNew "person" Absent) c).1 = Return t
  ∧ tk_id (tok c1 t) = None
  ∧ (@updateRecordIdentifier devBuild (RefToken t) (mkData Absent (Str "42") Absent) c1).1
    = Return (t, mkData Absent (Str "42") Absent)
  ∧ tk_id (tok c2 t) = Some "42"
  ∧ (@getOrCreateRecordIdentifier devBuild
       (RefData (mkData (Str "person") (Str "42") Absent)) c2).1 = Return t.
Proof.
  intros c.
  apply (@new_record_round_trip devBuild c).
  - reflexivity.
  - intros _. reflexivity.
Defined.

(** C9, witness: after [person:1] has been resolved, a peek with an
    unknown local key and a type but no external key. *)
Lemma peek_absent_example :
  let c := after (@getOrCreateRecordIdentifier devBuild
                    (RefData (mkData (Str "person") (Str "1") Absent)))
             (@newIdentifierCache devBuild None) in
  @peekRecordIdentifier devBuild (RefData (mkData (Str "person") Absent (Str "unknown"))) c
  = (Return None, c).
Proof.
  intros c.
  apply (@peek_absent_is_not_an_error devBuild c).
  - reflexivity.
  - intros l [= <-]. vm_compute. reflexivity.
  - reflexivity.
Defined.


(** In a DEBUG build an update can set the stage for the same
    disagreement: [person:1] is resolved, its external key is cleared by an
    update with [id: null] (which leaves the entry of the secondary table
    behind), and it is forgotten; an identifier of type [x] takes over its
    local key; a forget by [person:1] then finds the stale entry and drops
    the local key from the global table only. *)
Lemma lid_tables_disagree_after_update :
  let c := @run devBuild
             [OpGetOrCreate (RefData (mkData (Str "person") (Str "1") Absent));
              OpUpdate (RefToken 0) (mkData Absent Null Absent);
              OpForget (RefToken 0);
              OpGetOrCreate (RefData (mkData (Str "x") Absent (Str "@ember-data:lid-person-1")));
              OpForget (RefData (mkData (Str "person") (Str "1") Absent))]
             (@newIdentifierCache devBuild None) in
  ko_lid (typeIndex c "x") !! "@ember-data:lid-person-1" = Some 1
  ∧ lids c !! "@ember-data:lid-person-1" = None.
Proof. vm_compute. repeat split. Qed.

(** * Examples for the further properties *)

(** X2, witness: after [person:1] has been resolved on a new cache, a peek
    finds object 0, and the resolution returns object 0 without making
    another. *)
Lemma peek_finds_example :
  let d := RefData (mkData (Str "person") (Str "1") Absent) in
  let c := after (@getOrCreateRecordIdentifier devBuild d) (@newIdentifierCache devBuild None) in
  (@getOrCreateRecordIdentifier devBuild d c).1 = Return 0
  ∧ heap (after (@getOrCreateRecordIdentifier devBuild d) c) = heap c.
Proof.
  intros d c. apply (@peek_finds_what_getOrCreate_returns devBuild d c 0).
  vm_compute. reflexivity.
Defined.

(** X3, witness: on a new cache a peek for [person:1] finds nothing, and
    the resolution makes object 0. *)
Lemma peek_absent_then_created_example :
  let d := RefData (mkData (Str "person") (Str "1") Absent) in
  let c := @newIdentifierCache devBuild None in
  ((@getOrCreateRecordIdentifier devBuild d c).1 = Return (length (heap c))
   ∧ length (heap (after (@getOrCreateRecordIdentifier devBuild d) c)) = S (length (heap c)))
  ∨ (@DEBUG devBuild = true
     ∧ (@getOrCreateRecordIdentifier devBuild d c).1 = Throw ErrTypeChanged).
Proof.
  intros d c. apply (@peek_absent_means_getOrCreate_creates devBuild d c).
  - vm_compute. reflexivity.
  - vm_compute. reflexivity.
Defined.



(** X6, witness: a forget and a new resolution of [person:1] leave the
    fields of the forgotten object 0 as they were. *)
Lemma only_an_update_changes_example :
  let d := RefData (mkData (Str "person") (Str "1") Absent) in
  let c := after (@getOrCreateRecordIdentifier devBuild d) (@newIdentifierCache devBuild None) in
  let ops := [@OpForget (RefToken 0); @OpGetOrCreate d] in
  tok (@run devBuild ops c) 0 = tok c 0.
Proof.
  intros d c ops. apply (@only_an_update_changes_an_identifier devBuild c ops 0).
  - reflexivity.
  - vm_compute. lia.
Defined.

(** X8, witness: after a resolution of [person:1], a new record without
    external key and a forget of [tag:1], the identifier filed under the
    [lid] of [person:1] is object 0, and it is the entry for ["1"]. *)
Lemma distinct_keys_example :
  let ops := [@OpGetOrCreate (RefData (mkData (Str "person") (Str "1") Absent));
              @OpCreateForNew (mkNew "person" Null);
              @OpForget (RefData (mkData (Str "tag") (Str "1") Absent))] in
  let c := @run devBuild ops (@newIdentifierCache devBuild None) in
  ko_id (typeIndex c "person") !! "1" = Some 0 ∧ 0 = 0.
Proof.
  intros ops c.
  apply (@indexed_identifiers_have_distinct_keys devBuild None ops "person"
           "@ember-data:lid-person-1" "@ember-data:lid-person-1" "1" 0 0).
  - reflexivity.
  - vm_compute. reflexivity.
  - vm_compute. reflexivity.
  - vm_compute. reflexivity.
  - vm_compute. reflexivity.
Defined.

(** X9, witness: after a resolution, a new record and a forget in a DEBUG
    build, the entry for ["1"] of [person] is object 0, with that key,
    type and tables. *)
Lemma secondary_table_example :
  let ops := [@OpGetOrCreate (RefData (mkData (Str "person") (Str "1") Absent));
              @OpCreateForNew (mkNew "person" (Str "2"));
              @OpForget (RefToken 1)] in
  let c := @run devBuild ops (@newIdentifierCache devBuild None) in
  tk_id (tok c 0) = Some "1"
  ∧ tk_type (tok c 0) = "person"
  ∧ ko_lid (typeIndex c "person") !! tk_lid (tok c 0) = Some 0
  ∧ lids c !! tk_lid (tok c 0) = Some 0.
Proof.
  intros ops c.
  apply (@secondary_table_is_sound_without_updates devBuild None ops "person" "1" 0).
  - reflexivity.
  - reflexivity.
  - vm_compute. reflexivity.
Defined.
